(** * Room model: BSP construction, wall identities, plane-polygon map

    A shallow embedding of [rts::room_model] (code-samples/room_model.h).

    Conventions of the embedding.
    - A [rts::wall*] into the walls created by the BSP algorithm is an
      address ([ptr], a natural number); the objects behind those
      addresses live in a store [heap := ptr -> wall].  Every address
      holds a wall, so a pointer is never dangling; allocation ([new])
      hands out the addresses [next], [next+1], ... of a bump counter.
    - [std::vector] is [list]; an index outside the vector is a [Fault]
      for [operator[]] (undefined behaviour in C++) and an
      [OutOfRange] exception for [at].
    - Counters and indices of the source ([int], [size_t]) are [Z] or
      [nat]; the wall identifiers kept in a wall are [Z], since the
      header that fixes their width (wall.h) is not part of the code at
      hand.  Where the width is visible in room_model.h (the
      [unsigned int] of line 373) the reduction modulo 2^32 is written
      out.
    - [float]/[double] plane data is an abstract scalar with the two
      operations the code uses on it ([!=] and [signbit]).  A [double]
      of the splitting rule is the rational it stands for; every
      division and subtraction rounds its exact result to a double
      again, by the rounding [rnd] of the platform.
    - [std::sort] on the table of the splitting rule is the sort of the
      platform: it returns the rows sorted, in whatever order it leaves
      rows that the comparison does not tell apart.
    - The geometric kernel (three-way classification of a point against a
      plane, splitting of a polygon by a plane) is an interface. *)

From Stdlib Require Import ZArith QArith Qabs Qminmax Lia Sorted.
From stdpp Require Import base list sets functions sorting.

Set Default Proof Using "Type".

(** ** Outcomes of code that can go wrong *)

Inductive outcome (A : Type) : Type :=
  | Done (a : A)      (* ran to completion *)
  | Fault             (* out-of-bounds access: undefined behaviour *)
  | OutOfFuel.        (* the recursion budget of the model ran out *)
Arguments Done {A} a.
Arguments Fault {A}.
Arguments OutOfFuel {A}.

#[global] Instance outcome_bind : MBind outcome := fun A B k m =>
  match m with
  | Done a => k a
  | Fault => Fault
  | OutOfFuel => OutOfFuel
  end.

Definition is_done {A} (m : outcome A) : Prop := exists a, m = Done a.

(** ** [std::sort] and [std::unique]

    [std::sort] leaves the relative order of equivalent elements open.
    [std_sort] is one sort among those it may be: the insertion sort
    the usual library implementations run on short ranges, which keeps
    equivalent elements in their order.  It stands for [std::sort]
    where no two elements of the range are equivalent and every sort
    returns the same range: on the addresses of the aggregator (equal
    addresses are the same element) and on walls with pairwise distinct
    ids.  The two sorts of the splitting rule, where rows do tie, go
    through the sort of the [Platform] below. *)

Section StdSort.
Context {A : Type} (lt : A -> A -> bool).

Fixpoint sort_insert (x : A) (l : list A) : list A :=
  match l with
  | [] => [x]
  | y :: l' => if lt y x then y :: sort_insert x l' else x :: y :: l'
  end.

Fixpoint std_sort (l : list A) : list A :=
  match l with
  | [] => []
  | x :: l' => sort_insert x (std_sort l')
  end.

(** The order of a sorted range: by [lt] first and, among elements
    that [lt] does not tell apart, by their order [before] the sort. *)
Definition ranked (before : A -> A -> Prop) (x y : A) : Prop :=
  lt x y = true \/ (lt y x = false /\ before x y).
End StdSort.

(** [std::unique] followed by [resize]: drop every element equal to its
    predecessor. *)
Fixpoint std_unique (l : list nat) : list nat :=
  match l with
  | [] => []
  | x :: l' =>
      match l' with
      | [] => [x]
      | y :: _ => if Nat.eqb x y then std_unique l' else x :: std_unique l'
      end
  end.

(** ** The geometric kernel (spatial-partitioning/) *)

Inductive Side : Type := ABOVE | ON | BELOW.

Definition Side_eqb (a b : Side) : bool :=
  match a, b with
  | ABOVE, ABOVE | ON, ON | BELOW, BELOW => true
  | _, _ => false
  end.

(** Scalars of the geometry: [fne] is [!=], [signbit] is [std::signbit]. *)
Class Scalar := {
  scalar : Type;
  fne : scalar -> scalar -> bool;
  signbit : scalar -> bool
}.

Section Geometry.
Context `{Scalar}.

(** [Point] of the kernel and [arma::fvec3] of the wall. *)
Record Point : Type := mkPoint { px : scalar; py : scalar; pz : scalar }.
Record fvec3 : Type := mkVec { v0 : scalar; v1 : scalar; v2 : scalar }.

Definition vec_at (v : fvec3) (k : nat) : scalar :=
  match k with
  | 0 => v0 v
  | 1 => v1 v
  | _ => v2 v
  end.
End Geometry.

(** Planes of the kernel: built from a normal and an offset, and able to
    classify a point. *)
Class Planes `{Scalar} := {
  Plane : Type;
  make_plane : scalar -> scalar -> scalar -> scalar -> Plane;
  whichSide : Plane -> Point -> Side
}.

Section Polygons.
Context `{Planes}.

(** [PolygonSpatial]: the ring of vertices reached from [first()] by
    [next()], the id of the wall it stems from, and its plane. *)
Record PolygonSpatial : Type := mkPolygon {
  points : list Point;
  m_parentID : Z;
  plane : Plane
}.

Definition nPoints (p : PolygonSpatial) : nat := length (points p).

(** The three [List<PolygonSpatial>] that [split] appends to. *)
Record Buckets : Type := mkBuckets {
  above : list PolygonSpatial;
  on : list PolygonSpatial;
  below : list PolygonSpatial
}.
End Polygons.

(** [split(polygon, plane, above, on, below)] of the kernel. *)
Class Splitter `{Planes} := {
  split : PolygonSpatial -> Plane -> Buckets -> Buckets
}.

(** ** Walls (wall.h) *)

(** Address of a wall created by the BSP algorithm. *)
Abbreviation ptr := nat.

Module wall.
Section Fields.
Context `{Scalar}.

(** Modelled from the spec: the class [rts::wall] is declared in wall.h,
    outside room_model.h.  The fields are those of the spec's data model
    that room_model.h reads or writes: [parent] is the reference to the
    original wall, as its index in [walls]; [direct_reflectables] holds
    addresses of BSP walls.  The blocking-candidate state that
    [init_wall_state], [update_blockable_walls] and
    [sort_blockables_by_dist] maintain is not represented. *)
Record t : Type := mk {
  id : Z;
  corners : list fvec3;
  material : nat;
  enabled : bool;
  force_loaded : bool;
  n : fvec3;
  double_n : fvec3;
  d : scalar;
  parent_id : Z;
  parent : option nat;
  plane_polygon_map_id : Z;
  direct_reflectables : list ptr
}.

Definition setID (w : t) (i : Z) : t :=
  mk i (corners w) (material w) (enabled w) (force_loaded w) (n w)
     (double_n w) (d w) (parent_id w) (parent w) (plane_polygon_map_id w)
     (direct_reflectables w).

Definition set_enabled (w : t) (b : bool) : t :=
  mk (id w) (corners w) (material w) b (force_loaded w) (n w)
     (double_n w) (d w) (parent_id w) (parent w) (plane_polygon_map_id w)
     (direct_reflectables w).

Definition set_plane_polygon_map_id (w : t) (g : Z) : t :=
  mk (id w) (corners w) (material w) (enabled w) (force_loaded w) (n w)
     (double_n w) (d w) (parent_id w) (parent w) g
     (direct_reflectables w).

Definition set_direct_reflectables (w : t) (r : list ptr) : t :=
  mk (id w) (corners w) (material w) (enabled w) (force_loaded w) (n w)
     (double_n w) (d w) (parent_id w) (parent w) (plane_polygon_map_id w)
     r.
End Fields.
End wall.

Abbreviation wall := wall.t.

(** The walls created by the BSP algorithm, by address. *)
Abbreviation heap := (ptr -> wall).

(** State of the allocator: the store and the next free address. *)
Abbreviation store := ((ptr -> wall) * ptr)%type.

(** ** Disabling walls from the configuration *)

Inductive exception : Type := out_of_range.

Section Disable.
Context `{Scalar}.

(** [walls.at(wall_id).enabled = false] for each configured index, in
    order; [at] throws on the first index that is not below
    [walls.size()], and the walls disabled before it stay disabled. *)
Fixpoint disable_selected_walls (walls_to_disable : list nat)
    (walls : list wall) : list wall * option exception :=
  match walls_to_disable with
  | [] => (walls, None)
  | wall_id :: rest =>
      match walls !! wall_id with
      | Some w =>
          disable_selected_walls rest
            (<[wall_id := wall.set_enabled w false]> walls)
      | None => (walls, Some out_of_range)
      end
  end.
End Disable.

(** ** SpatialAdapter: walls to polygons and back *)

Section Adapter.
Context `{Splitter}.

Definition to_point (c : fvec3) : Point := mkPoint (v0 c) (v1 c) (v2 c).
Definition to_fvec3 (p : Point) : fvec3 := mkVec (px p) (py p) (pz p).

Definition wall_polygon (w : wall) : PolygonSpatial :=
  mkPolygon (map to_point (wall.corners w)) (wall.id w)
    (make_plane (vec_at (wall.n w) 0) (vec_at (wall.n w) 1)
                (vec_at (wall.n w) 2) (wall.d w)).

(** One polygon per enabled wall, in the order of the walls. *)
Fixpoint construct_polygonspatial_model (polygons : list wall)
    : list PolygonSpatial :=
  match polygons with
  | [] => []
  | i :: rest =>
      if wall.enabled i
      then wall_polygon i :: construct_polygonspatial_model rest
      else construct_polygonspatial_model rest
  end.

(** Line 373: [const unsigned int myID = (i->m_parentID * 10000 + id)].
    The sum is formed in the integer type of [m_parentID] (polygon.h,
    not at hand) and stored in an [unsigned int]: what is kept is the
    value reduced modulo 2^32. *)
Definition to_unsigned_int (z : Z) : Z := (z mod 2 ^ 32)%Z.

(** Lines 364-385, the wall built for one polygon: the ring of the
    polygon, the material and the plane data of [walls[m_parentID]].
    The counter [id] stays 0 in the source (the loop advances [i], not
    [id]).  The two [true] of the constructor call are taken to be the
    enabled and the force-loaded flag; a new wall starts without group
    and without directly-reflectable walls. *)
Definition rtswall_of (walls : list wall) (i : PolygonSpatial)
    : outcome wall :=
  match points i with
  | [] => Fault
  | _ :: _ =>
      if bool_decide (0 <= m_parentID i)%Z then
        match walls !! Z.to_nat (m_parentID i) with
        | Some p =>
            let myID := to_unsigned_int (m_parentID i * 10000 + 0) in
            Done (wall.mk myID
                    (map to_fvec3 (points i)) (wall.material p)
                    true true (wall.n p) (wall.double_n p) (wall.d p)
                    (m_parentID i) (Some (Z.to_nat (m_parentID i)))
                    0 [])
        | None => Fault
        end
      else Fault
  end.

Fixpoint construct_rtswall_model (walls : list wall)
    (polygons : list PolygonSpatial) (st : store)
    : outcome (list ptr * store) :=
  match polygons with
  | [] => Done ([], st)
  | i :: rest =>
      myWall ← rtswall_of walls i;
      let '(h, next) := st in
      '(wall_model, st') ←
        construct_rtswall_model walls rest (<[next := myWall]> h, S next);
      Done (next :: wall_model, st')
  end.
End Adapter.

(** ** BSPBuilder *)

#[warnings="-register-all"] Inductive BSPNode : Type :=
  Node (node_walls : list ptr) (front back : option BSPNode) (leaf_node : bool).

Definition node_walls (x : BSPNode) : list ptr :=
  match x with Node ws _ _ _ => ws end.
Definition front (x : BSPNode) : option BSPNode :=
  match x with Node _ f _ _ => f end.
Definition back (x : BSPNode) : option BSPNode :=
  match x with Node _ _ b _ => b end.
Definition leaf_node (x : BSPNode) : bool :=
  match x with Node _ _ _ l => l end.

(** The elements of a vector with their positions: two iterators of one
    vector are equal exactly when their positions are (the polygons of a
    vector are distinct objects). *)
Definition indexed {A} (l : list A) : list (nat * A) := imap pair l.

(** Rows of the two tables of the splitting rule:
    [measures] holds (wall-id, behind, front, crosses),
    [r_p] holds (wall-id, balance score, crosses). *)
Abbreviation measure := (nat * nat * nat * nat)%type.
Abbreviation rp_row := (nat * Q * nat)%type.

Definition rp_id (r : rp_row) : nat := r.1.1.
Definition rp_score (r : rp_row) : Q := r.1.2.
Definition rp_cross (r : rp_row) : nat := r.2.

Definition Qltb (x y : Q) : bool := negb (Qle_bool y x).

(** ** The platform: double arithmetic and [std::sort]

    What the compiler and the standard library decide, with what the
    language promises of them.
    - [rnd] takes the exact result of a division or a subtraction to
      the double that is stored (the threshold and every result at hand
      are finite).  Rounding keeps the order and is exact on 0 and 1.
      A quotient of two counters is not flushed to zero: the counters
      are [int]s, so a quotient that is not 0 is far above the smallest
      double.
    - [sort_r_p] is [std::sort] on the table [r_p]: the result holds
      the rows it was given and is sorted by the comparison, a strict
      weak order; nothing is said of rows that compare equivalent. *)
Definition strict_weak_order {A} (lt : A -> A -> bool) : Prop :=
  (forall a, lt a a = false) /\
  (forall a b c, lt a b = true -> lt b c = true -> lt a c = true) /\
  (forall a b c, lt a b = false -> lt b c = false -> lt a c = false).

Class Platform := {
  rnd : Q -> Q;
  rnd_mono : forall x y, (x <= y)%Q -> (rnd x <= rnd y)%Q;
  rnd_0 : (rnd 0 == 0)%Q;
  rnd_1 : (rnd 1 == 1)%Q;
  rnd_pos : forall a b : nat, a <> 0 -> b <> 0 ->
    (0 < rnd (inject_Z (Z.of_nat a) / inject_Z (Z.of_nat b)))%Q;
  sort_r_p : (rp_row -> rp_row -> bool) -> list rp_row -> list rp_row;
  sort_r_p_perm : forall lt l, sort_r_p lt l ≡ₚ l;
  sort_r_p_sorted : forall lt l,
    strict_weak_order lt ->
    StronglySorted (fun x y => lt y x = false) (sort_r_p lt l)
}.

Section Selection.
Context `{Platform}.

(** Lines 207-221: the balance score of one row of [measures]; the two
    quotients are doubles. *)
Definition balance (behind in_front : nat) : Q :=
  if Nat.eqb behind 0 then 0
  else if Nat.eqb in_front 0 then 0
  else Qmin (rnd (inject_Z (Z.of_nat behind) / inject_Z (Z.of_nat in_front)))
            (rnd (inject_Z (Z.of_nat in_front) / inject_Z (Z.of_nat behind))).

Definition r_p_table (measures : list measure) : list rp_row :=
  map (fun '(i, behind, in_front, crosses) =>
         (i, balance behind in_front, crosses)) measures.

(** Distance of a row's balance score to the threshold, as line 240
    computes it: [abs] of the rounded difference. *)
Definition deviation (threshold : Q) (r : rp_row) : Q :=
  Qabs (rnd (rp_score r - threshold)).

(** Line 240: the score of a row replaced by that distance. *)
Definition deviation_row (threshold : Q) (i : rp_row) : rp_row :=
  (rp_id i, deviation threshold i, rp_cross i).

(** Lines 222-247: sort by crossings, take the first row whose score
    reaches the threshold; without one, replace every score by its
    distance to the threshold, sort by it and take the front row. *)
Definition select_wall_id (r_p : list rp_row) (threshold : Q) : option nat :=
  let r_p1 := sort_r_p (fun x y => Nat.ltb (rp_cross x) (rp_cross y)) r_p in
  match find (fun i => Qle_bool threshold (rp_score i)) r_p1 with
  | Some i => Some (rp_id i)
  | None =>
      let r_p2 := map (deviation_row threshold) r_p1 in
      match sort_r_p (fun x y => Qltb (rp_score x) (rp_score y)) r_p2 with
      | i :: _ => Some (rp_id i)
      | [] => None
      end
  end.
End Selection.

Section Builder.
Context `{Splitter} `{Platform}.

(** Does some vertex of [j] lie on side [s] of the plane? *)
Definition some_vertex (s : Side) (pl : Plane) (j : PolygonSpatial) : bool :=
  existsb (fun pt => Side_eqb (whichSide pl pt) s) (points j).

(** Lines 145-163. *)
Definition subspace_convex (polygons : list PolygonSpatial) : bool :=
  forallb (fun '(a, i) =>
    forallb (fun '(b, j) =>
      Nat.eqb a b || negb (some_vertex BELOW (plane i) j))
      (indexed polygons))
    (indexed polygons).

(** Lines 181-202: one polygon [j] counted in the row of [i]. *)
Definition count_polygon (i j : PolygonSpatial) (row : measure) : measure :=
  let behind := some_vertex BELOW (plane i) j in
  let in_front := some_vertex ABOVE (plane i) j in
  let '(tid, nb, nf, nc) := row in
  let '(tid, nb, nf, nc) :=
    if behind && negb in_front then (tid, S nb, nf, nc) else (tid, nb, nf, nc) in
  let '(tid, nb, nf, nc) :=
    if negb behind && in_front then (tid, nb, S nf, nc) else (tid, nb, nf, nc) in
  let '(tid, nb, nf, nc) :=
    if behind && in_front then (tid, nb, nf, S nc) else (tid, nb, nf, nc) in
  if negb behind && negb in_front then (tid, nb, S nf, nc) else (tid, nb, nf, nc).

Definition measure_row (polygons : list PolygonSpatial) (temp_id : nat)
    (i : PolygonSpatial) : measure :=
  fold_left (fun row '(b, j) =>
               if Nat.eqb temp_id b then row else count_polygon i j row)
    (indexed polygons) (temp_id, 0, 0, 0).

Definition measures (polygons : list PolygonSpatial) : list measure :=
  map (fun '(a, i) => measure_row polygons a i) (indexed polygons).

Definition select_splitter (polygons : list PolygonSpatial) (threshold : Q)
    : option nat :=
  select_wall_id (r_p_table (measures polygons)) threshold.

(** Lines 255-259. *)
Definition split_others (polygons : list PolygonSpatial) (wall_id : nat)
    (partition_wall : PolygonSpatial) : Buckets :=
  fold_left (fun acc '(i, p) =>
               if Nat.eqb i wall_id then acc
               else split p (plane partition_wall) acc)
    (indexed polygons) (mkBuckets [] [] []).

(** Modelled from the spec: [update_blockable_walls] is not defined in
    room_model.h; it maintains the blocking-candidate state of the
    walls it is given, which is not represented here, so the vector
    comes back as it went in. *)
Definition update_blockable_walls (ws : list ptr) : list ptr := ws.

(** [build_BSP]; [st] is the allocator state, [new_walls] the
    accumulator passed by reference.  The children of the initialiser
    list are built front first. *)
Fixpoint build_BSP (fuel : nat) (walls : list wall)
    (polygons : list PolygonSpatial) (st : store) (new_walls : list ptr)
    (threshold : Q) : outcome (option BSPNode * store * list ptr) :=
  match fuel with
  | 0 => OutOfFuel
  | S fuel' =>
      match polygons with
      | [] => Done (None, st, new_walls)
      | _ :: _ =>
          if subspace_convex polygons then
            '(ws, st1) ← construct_rtswall_model walls polygons st;
            Done (Some (Node ws None None true), st1, new_walls ++ ws)
          else
            match select_splitter polygons threshold with
            | None => Fault
            | Some wall_id =>
                match polygons !! wall_id with
                | None => Fault
                | Some partition_wall =>
                    let b := split_others polygons wall_id partition_wall in
                    let on_polys := partition_wall :: on b in
                    '(ws, st1) ← construct_rtswall_model walls on_polys st;
                    let myWalls := update_blockable_walls ws in
                    '(f, st2, nw2) ←
                      build_BSP fuel' walls (above b) st1 new_walls threshold;
                    '(k, st3, nw3) ←
                      build_BSP fuel' walls (below b) st2 nw2 threshold;
                    Done (Some (Node myWalls f k false), st3, nw3 ++ myWalls)
                end
            end
      end
  end.

(** TreeInspector. *)
Fixpoint height (x : BSPNode) : Z :=
  match x with
  | Node _ f k _ =>
      let left_height := match f with Some y => height y | None => 0%Z end in
      let right_height := match k with Some y => height y | None => 0%Z end in
      if (right_height <=? left_height)%Z
      then (left_height + 1)%Z else (right_height + 1)%Z
  end.

Definition traverseTree (node : option BSPNode) : Z :=
  match node with Some x => height x | None => 0%Z end.

(** Every wall referenced from a tree. *)
Fixpoint node_tree_walls (x : BSPNode) : list ptr :=
  match x with
  | Node ws f k _ =>
      ws ++ match f with Some y => node_tree_walls y | None => [] end
         ++ match k with Some y => node_tree_walls y | None => [] end
  end.

Definition tree_walls (node : option BSPNode) : list ptr :=
  match node with Some x => node_tree_walls x | None => [] end.

(** A polygon that [construct_rtswall_model] can turn into a wall: its
    ring has a first edge and its parent id indexes [walls]. *)
Definition convertible (walls : list wall) (i : PolygonSpatial) : Prop :=
  points i <> [] /\ (0 <= m_parentID i < Z.of_nat (length walls))%Z.

Definition buckets_all (P : PolygonSpatial -> Prop) (b : Buckets) : Prop :=
  Forall P (above b) /\ Forall P (on b) /\ Forall P (below b).

(** A produced wall as the construction leaves it: a parent id with
    property [P] that indexes [walls], enabled, and carrying the plane
    and material of that parent. *)
Definition wall_ok (P : Z -> Prop) (walls : list wall) (w : wall) : Prop :=
  P (wall.parent_id w) /\
  (0 <= wall.parent_id w < Z.of_nat (length walls))%Z /\
  wall.enabled w = true /\
  exists p, walls !! Z.to_nat (wall.parent_id w) = Some p /\
    wall.parent w = Some (Z.to_nat (wall.parent_id w)) /\
    wall.n w = wall.n p /\ wall.double_n w = wall.double_n p /\
    wall.d w = wall.d p /\ wall.material w = wall.material p.

(** What one call of [build_BSP] from the store [(h, next)] and the
    accumulator [new_walls] leaves behind. *)
Definition built_ok (P : Z -> Prop) (walls : list wall) (h : heap)
    (next : ptr) (new_walls : list ptr)
    (r : option BSPNode * store * list ptr) : Prop :=
  let '(tree, (h', next'), new_walls') := r in
  next <= next' /\
  (forall p, ~ (next <= p < next') -> h' p = h p) /\
  (exists added,
     new_walls' = new_walls ++ added /\ NoDup added /\
     forall p, p ∈ added <-> next <= p < next') /\
  (forall p, next <= p < next' -> wall_ok P walls (h' p)) /\
  (forall p, p ∈ tree_walls tree -> next <= p < next').

(** What the construction expects of the kernel about lineage: every
    polygon that [split] adds to a list is a fragment of the polygon
    it was given and carries that polygon's parent id. *)
Definition fragments_inherit_parent : Prop :=
  forall p pl b q,
    q ∈ above (split p pl b) ++ on (split p pl b) ++ below (split p pl b) ->
    q ∈ above b ++ on b ++ below b \/ m_parentID q = m_parentID p.
End Builder.

(** ** IdentityHarmonizer (set_up_room_model, lines 81-90) *)

Section Harmonizer.
Context `{Scalar}.

(** The inner loop for one original wall index [i]. *)
Fixpoint relabel_children (i : Z) (pwalls_BSP : list ptr)
    (monotone_id_increment : Z) (h : heap) : heap :=
  match pwalls_BSP with
  | [] => h
  | j :: rest =>
      if (wall.parent_id (h j) =? i)%Z then
        relabel_children i rest (monotone_id_increment + 1)
          (<[j := wall.setID (h j)
                    (wall.parent_id (h j) * 1000 + monotone_id_increment)]> h)
      else relabel_children i rest monotone_id_increment h
  end.

(** The outer loop over [0 .. walls.size()). *)
Definition harmonise_identifiers (walls_size : nat) (pwalls_BSP : list ptr)
    (h : heap) : heap :=
  fold_left (fun h' i => relabel_children (Z.of_nat i) pwalls_BSP 0 h')
    (seq 0 walls_size) h.

(** The number of walls with parent id [i] among the first [k]
    produced walls: the sequence number (from 0) of the wall at
    position [k] among the children of its parent. *)
Definition children_before (h : heap) (pwalls_BSP : list ptr) (k : nat)
    (i : Z) : Z :=
  Z.of_nat (length (filter (fun j => wall.parent_id (h j) = i)
                      (take k pwalls_BSP))).
End Harmonizer.

(** ** PlanePolygonMapper (create_plane_polygon_map) *)

Abbreviation plane_polygon_map := (list (list ptr)).

Section Mapper.
Context `{Scalar}.

(** Lines 312-322: [one_wall] against the first wall [rep] of a group. *)
Definition same_normal (one_wall rep : wall) : bool :=
  forallb (fun k =>
      negb (fne (vec_at (wall.n rep) k) (vec_at (wall.n one_wall) k)
            || xorb (signbit (vec_at (wall.n one_wall) k))
                    (signbit (vec_at (wall.n rep) k))))
    [0; 1; 2]
  && negb (fne (wall.d one_wall) (wall.d rep)).

Definition assign_group (h : heap) (w : ptr) (g : nat) : heap :=
  <[w := wall.set_plane_polygon_map_id (h w) (Z.of_nat g)]> h.

(** Lines 309-334: the loop over the groups for one enabled wall,
    started at group [i].  The bound [plane_polygon_map.size()] is read
    again at every round, so a group pushed in round [i] is visited in
    round [i+1]. *)
Fixpoint place_wall (fuel : nat) (one_wall : ptr) (i : nat)
    (m : plane_polygon_map) (h : heap) : outcome (plane_polygon_map * heap) :=
  match fuel with
  | 0 => OutOfFuel
  | S fuel' =>
      match m !! i with
      | None => Done (m, h)
      | Some [] => Fault
      | Some (rep :: members) =>
          if (wall.id (h one_wall) =? wall.id (h rep))%Z then
            place_wall fuel' one_wall (S i) m h
          else if same_normal (h one_wall) (h rep) then
            Done (<[i := (rep :: members) ++ [one_wall]]> m,
                  assign_group h one_wall i)
          else if Nat.eqb i (length m - 1) then
            place_wall fuel' one_wall (S i) (m ++ [[one_wall]])
              (assign_group h one_wall (i + 1))
          else place_wall fuel' one_wall (S i) m h
      end
  end.

(** Lines 307-335. *)
Fixpoint scan_walls (walls_to_check : list ptr) (m : plane_polygon_map)
    (h : heap) : outcome (plane_polygon_map * heap) :=
  match walls_to_check with
  | [] => Done (m, h)
  | one_wall :: rest =>
      if negb (wall.enabled (h one_wall)) then scan_walls rest m h
      else
        '(m', h') ← place_wall (length m + 2) one_wall 0 m h;
        scan_walls rest m' h'
  end.

(** The keys the mapper reads and never writes. *)
Definition same_keys (h h' : heap) : Prop :=
  forall p, wall.id (h' p) = wall.id (h p) /\
            wall.enabled (h' p) = wall.enabled (h p).

Definition sort_by_id (h : heap) (walls_to_check : list ptr) : list ptr :=
  std_sort (fun a b => (wall.id (h a) <? wall.id (h b))%Z) walls_to_check.

(** [m] is the member [plane_polygon_map] as the call finds it. *)
Definition create_plane_polygon_map (walls_to_check : list ptr)
    (m : plane_polygon_map) (h : heap)
    : outcome (plane_polygon_map * heap) :=
  match sort_by_id h walls_to_check with
  | [] => Fault
  | (first_wall :: _) as sorted =>
      let m1 := m ++ [[first_wall]] in
      match m1 with
      | (rep :: _) :: _ => scan_walls sorted m1 (assign_group h rep 0)
      | _ => Fault
      end
  end.
End Mapper.

(** ** ReflectableAggregator (set_up_room_model, lines 109-123) *)

Section Aggregator.
Context `{Scalar}.

(** Lines 111-116. *)
Definition direct_reflectables_united (h : heap) (i : list ptr) : list ptr :=
  concat (map (fun k => wall.direct_reflectables (h k)) i).

(** Lines 119-121: sort by address, drop repeated addresses. *)
Definition sort_unique (l : list ptr) : list ptr :=
  std_unique (std_sort Nat.ltb l).

Definition unify_group (i : list ptr) (h : heap) : outcome heap :=
  let united := sort_unique (direct_reflectables_united h i) in
  match i with
  | [] => Fault
  | i0 :: _ => Done (<[i0 := wall.set_direct_reflectables (h i0) united]> h)
  end.

Fixpoint unify_direct_reflectables (m : plane_polygon_map) (h : heap)
    : outcome heap :=
  match m with
  | [] => Done h
  | i :: rest => h' ← unify_group i h; unify_direct_reflectables rest h'
  end.
End Aggregator.

(** ** Further notions for the construction *)

(** The nodes of a tree, root first. *)
Fixpoint node_nodes (x : BSPNode) : list BSPNode :=
  match x with
  | Node _ f k _ =>
      x :: match f with Some y => node_nodes y | None => [] end
        ++ match k with Some y => node_nodes y | None => [] end
  end.

Definition tree_nodes (node : option BSPNode) : list BSPNode :=
  match node with Some x => node_nodes x | None => [] end.

Section BuilderMore.
Context `{Splitter} `{Platform}.

(** What the construction expects of the kernel about the shape of
    fragments: whatever [split] adds to a list can be turned into a
    wall again, as the polygon it was given could. *)
Definition fragments_stay_convertible (walls : list wall) : Prop :=
  forall p pl b,
    convertible walls p ->
    buckets_all (convertible walls) b ->
    buckets_all (convertible walls) (split p pl b).

(** The first part of [set_up_room_model], lines 70-93, for a room model whose members
    are still empty: the polygons of the enabled walls, the tree, the
    relabelling and the plane-polygon map.  The steps after line 93
    work on the blocking-candidate state and on wall methods that are
    defined outside room_model.h. *)
Definition set_up_room_model_prefix (fuel : nat) (polygons : list wall)
    (h : heap) (threshold : Q)
    : outcome (option BSPNode * heap * list ptr * plane_polygon_map) :=
  let polygonSpatialPartitioning := construct_polygonspatial_model polygons in
  let walls := polygons in
  '(bsp_tree, st, pwalls_BSP) ←
    build_BSP fuel walls polygonSpatialPartitioning (h, 0) [] threshold;
  let h1 := harmonise_identifiers (length walls) pwalls_BSP st.1 in
  '(m, h2) ← create_plane_polygon_map pwalls_BSP [] h1;
  Done (bsp_tree, h2, pwalls_BSP, m).
End BuilderMore.

(** ** Further notions for the plane-polygon map *)

Section MapperMore.
Context `{Scalar}.

(** Does [one_wall] match the plane of the first wall of group [g]? *)
Definition matches (h : heap) (one_wall : ptr) (g : list ptr) : bool :=
  match g with
  | rep :: _ => same_normal (h one_wall) (h rep)
  | [] => false
  end.

(** Index of the first group from position [i] on that [one_wall]
    matches. *)
Fixpoint first_match_from (h : heap) (one_wall : ptr) (i : nat)
    (m : plane_polygon_map) : option nat :=
  match m with
  | [] => None
  | g :: m' =>
      if matches h one_wall g then Some i
      else first_match_from h one_wall (S i) m'
  end.

(** [m'] holds every group of [m], at its place, possibly with more
    members behind the ones it had. *)
Definition map_extends (m m' : plane_polygon_map) : Prop :=
  length m <= length m' /\
  forall i g, m !! i = Some g -> exists g', m' !! i = Some (g ++ g').

(** Two stores that differ in group ids at most. *)
Definition same_but_group (h h' : heap) : Prop :=
  forall p, wall.set_plane_polygon_map_id (h' p) 0 =
            wall.set_plane_polygon_map_id (h p) 0.
(** The state of the map and the store between two rounds of the scan,
    relative to the store [h0] the scan started from. *)
Definition grouped (h0 : heap) (m : plane_polygon_map) (h : heap) : Prop :=
  Forall (fun g => g <> []) m /\
  same_but_group h0 h /\
  (forall i g w, m !! i = Some g -> w ∈ g ->
     wall.plane_polygon_map_id (h w) = Z.of_nat i) /\
  (forall rep members w, (rep :: members) ∈ m -> w ∈ members ->
     same_normal (h0 w) (h0 rep) = true) /\
  (forall i j ri gi rj gj, i < j ->
     m !! i = Some (ri :: gi) -> m !! j = Some (rj :: gj) ->
     same_normal (h0 rj) (h0 ri) = false).
End MapperMore.

(** * Trait generation (code-samples/generate_traits.cpp)

    A shallow embedding of the loop of [unit::generate_traits], lines
    13-109.  A [config] is the attribute lookup the code performs on it
    ([t["id"]]; an attribute that is not set reads as the empty string).
    The trait children of [modifications_] are a list, to which
    [add_child] appends a copy.  [utils::split], the random generator
    and the unit type are defined elsewhere: they are parameters of the
    embedding. *)

From Stdlib Require String.
Import String.StringSyntax.
Delimit Scope string_scope with string.

Module traits.

Abbreviation string := String.string.
Abbreviation config := (string -> string).

Record unit_traits := mk_unit_traits {
  modifications_traits : list config;   (* modifications_.child_range("trait") *)
  random_traits_ : bool
}.

Section GenerateTraits.
Variable split : string -> list string.               (* utils::split *)
Variable rng : Type.
Variable get_random_int : rng -> Z -> Z -> Z * rng.   (* randomness::generator *)
Variable possible_traits : list config.               (* u_type.possible_traits() *)
Variable max_traits : Z.                              (* u_type.num_traits() *)
Variable can_recruit : bool.

(** Does one of [current_traits] carry the id [s]?  (Lines 29-34, 57-60
    and 75-78.) *)
Definition has_trait (current_traits : list config) (s : string) : bool :=
  existsb (fun mod' => String.eqb (mod' "id"%string) s) current_traits.

(** Lines 42-51: the exclusions of the trait itself, followed by those
    of the traits the unit has. *)
Definition temp_exclude_traits (current_traits : list config) (t : config)
    : list string :=
  split (t "exclude_traits"%string) ++
  flat_map (fun mod' =>
              if String.eqb (mod' "exclude_traits"%string) String.EmptyString
              then []
              else split (mod' "exclude_traits"%string))
           current_traits.

(** Lines 54-65. *)
Definition trait_req_met (current_traits : list config) (t : config) : bool :=
  forallb (has_trait current_traits) (split (t "require_traits"%string)).

(** Lines 71-86. *)
Definition trait_exc_met (current_traits : list config) (t : config) : bool :=
  forallb (fun s => negb (has_trait current_traits s
                          || String.eqb (t "id"%string) s))
          (temp_exclude_traits current_traits t).

(** Lines 25-97: is [t] pushed onto [candidate_traits]? *)
Definition is_candidate (must_have_only : bool) (current_traits : list config)
    (t : config) : bool :=
  negb (has_trait current_traits (t "id"%string))
  && trait_req_met current_traits t
  && trait_exc_met current_traits t
  && (negb must_have_only
      && (negb can_recruit
          || String.eqb (t "availability"%string) "any"%string)).

Definition candidate_traits (must_have_only : bool)
    (current_traits : list config) : list config :=
  filter (fun t => is_candidate must_have_only current_traits t = true)
         possible_traits.

(** The loop of lines 21-106, for [n] rounds at most.  The index the
    generator returns is used unchecked (line 104). *)
Fixpoint fill_traits (must_have_only : bool) (n : nat)
    (modifications : list config) (g : rng) : outcome (list config * rng) :=
  match n with
  | 0 => Done (modifications, g)
  | S n' =>
      let current_traits := modifications in
      let candidates := candidate_traits must_have_only current_traits in
      match candidates with
      | [] => Done (modifications, g)
      | _ :: _ =>
          let '(num, g') :=
            get_random_int g 0 (Z.of_nat (length candidates) - 1) in
          if (0 <=? num)%Z then
            match candidates !! Z.to_nat num with
            | Some t => fill_traits must_have_only n' (modifications ++ [t]) g'
            | None => Fault
            end
          else Fault
      end
  end.

(** [unit::generate_traits] from line 19 on; [nb_traits] is the size of
    [current_traits] at that line. *)
Definition generate_traits (must_have_only : bool) (nb_traits : Z)
    (modifications : list config) (g : rng) : outcome (unit_traits * rng) :=
  '(modifications', g') ←
    fill_traits must_have_only (Z.to_nat (max_traits - nb_traits))
      modifications g;
  Done (mk_unit_traits modifications' false, g').

(** The traits [added] one after the other to [current_traits], each a
    candidate at the time it was added. *)
Fixpoint added_in_turn (must_have_only : bool) (current_traits : list config)
    (added : list config) : Prop :=
  match added with
  | [] => True
  | t :: rest =>
      t ∈ candidate_traits must_have_only current_traits /\
      added_in_turn must_have_only (current_traits ++ [t]) rest
  end.

(** The generator keeps to the range it is asked for. *)
Definition generator_in_range : Prop :=
  forall g lo hi, (lo <= hi)%Z ->
    (lo <= (get_random_int g lo hi).1 <= hi)%Z.
End GenerateTraits.
End traits.

(** ** A small integer kernel and concrete rooms

    Integer coordinates; the plane [(a, b, c, d)] is [a x + b y + c z = d]
    and a point is classified by the sign of [a x + b y + c z - d].  A
    polygon that straddles the plane is cut into the vertices not below
    and the vertices not above it. *)

Module Fixture.

(** A platform with exact arithmetic whose sort keeps rows that tie in
    the order it found them. *)
#[global, refine] Instance exact_stable : Platform := {|
  rnd := fun x => x;
  sort_r_p := fun lt l => std_sort lt l
|}.
Proof.
  - by intros x y Hxy.
  - reflexivity.
  - reflexivity.
  - intros a b Ha Hb. apply Qlt_shift_div_l.
    + unfold Qlt. simpl. lia.
    + rewrite Qmult_0_l. unfold Qlt. simpl. lia.
  - intros lt l. induction l as [|x l IH]; simpl; [done|].
    transitivity (x :: std_sort lt l); [|by constructor].
    generalize (std_sort lt l). clear.
    intros k. induction k as [|y k IHk]; simpl; [done|].
    destruct (lt y x); [|done].
    transitivity (y :: x :: k); [by constructor|apply perm_swap].
  - intros lt l (Hirr & Htrans & Hneg).
    assert (forall x k z, z ∈ sort_insert lt x k -> z = x \/ z ∈ k) as Hmem.
    { intros x k z. induction k as [|y k IHk]; simpl.
      - intros ->%list_elem_of_singleton. by left.
      - destruct (lt y x).
        + rewrite !elem_of_cons. intros [->|Hz]; [by right; left|].
          destruct (IHk Hz); [by left|by right; right].
        + rewrite !elem_of_cons. tauto. }
    induction l as [|x l IH]; simpl; [constructor|].
    revert IH. generalize (std_sort lt l). intros k Hk.
    induction k as [|y k IHk]; simpl; [by repeat constructor|].
    apply StronglySorted_cons in Hk as [Hy Hk].
    rewrite Forall_forall in Hy.
    destruct (lt y x) eqn:Hyx.
    + constructor; [by apply IHk|].
      apply Forall_forall. intros z [->|Hz]%Hmem; [|by apply Hy].
      destruct (lt x y) eqn:Hxy; [|done].
      pose proof (Htrans _ _ _ Hxy Hyx) as Hxx. by rewrite Hirr in Hxx.
    + constructor; [by constructor; [|apply Forall_forall]|].
      constructor; [done|].
      apply Forall_forall. intros z Hz. by apply (Hneg z y x); [apply Hy|].
Defined.

(** A platform that differs in the one thing [std::sort] leaves open:
    it sorts the range with its first row moved to the end, so rows
    that tie do not come out in the order they went in. *)
Definition ties_rotated : Platform.
Proof.
  refine {|
    rnd := fun x => x;
    sort_r_p := fun lt l =>
      std_sort lt (match l with [] => [] | x :: l' => l' ++ [x] end)
  |}.
  - by intros x y Hxy.
  - reflexivity.
  - reflexivity.
  - intros a b Ha Hb. apply Qlt_shift_div_l.
    + unfold Qlt. simpl. lia.
    + rewrite Qmult_0_l. unfold Qlt. simpl. lia.
  - intros lt l.
    transitivity (match l with [] => [] | x :: l' => l' ++ [x] end).
    + apply (@sort_r_p_perm exact_stable).
    + destruct l as [|x l']; [done|]. symmetry. apply Permutation_cons_append.
  - intros lt l. apply (@sort_r_p_sorted exact_stable).
Defined.

#[global] Instance Z_scalar : Scalar := {|
  scalar := Z;
  fne := fun a b => negb (Z.eqb a b);
  signbit := fun a => Z.ltb a 0
|}.

#[global] Instance Z_planes : Planes := {|
  Plane := Z * Z * Z * Z;
  make_plane := fun a b c d => (a, b, c, d);
  whichSide := fun '(a, b, c, d) pt =>
    let s := (a * px pt + b * py pt + c * pz pt - d)%Z in
    if (0 <? s)%Z then ABOVE else if (s <? 0)%Z then BELOW else ON
|}.

Definition keep_side (s : Side) (pl : Plane) (p : PolygonSpatial)
    : PolygonSpatial :=
  mkPolygon
    (filter (fun pt => negb (Side_eqb (whichSide pl pt) s)) (points p))
    (m_parentID p) (plane p).

#[global] Instance Z_splitter : Splitter := {|
  split := fun p pl b =>
    let up := existsb (fun pt => Side_eqb (whichSide pl pt) ABOVE) (points p) in
    let down := existsb (fun pt => Side_eqb (whichSide pl pt) BELOW) (points p) in
    match up, down with
    | false, false => mkBuckets (above b) (on b ++ [p]) (below b)
    | true, false => mkBuckets (above b ++ [p]) (on b) (below b)
    | false, true => mkBuckets (above b) (on b) (below b ++ [p])
    | true, true =>
        mkBuckets (above b ++ [keep_side BELOW pl p]) (on b)
                  (below b ++ [keep_side ABOVE pl p])
    end
|}.

Definition pt (x y z : Z) : fvec3 := mkVec x y z.

(** An input wall with the given id, ring, plane and enabled flag. *)
Definition input_wall (i : Z) (ring : list fvec3) (a b c dd : Z) (en : bool)
    : wall :=
  wall.mk i ring 0 en false (mkVec a b c) (mkVec a b c) dd i None 0 [].

(** A wall of the store as far as the later stages look at it. *)
Definition bsp_wall (i pid : Z) (a b c dd : Z) (en : bool) (dr : list ptr)
    : wall :=
  wall.mk i [] 0 en true (mkVec a b c) (mkVec a b c) dd pid None 0 dr.

Definition blank : wall := bsp_wall 0 0 0 0 0 0 true [].
Definition empty_heap : heap := fun _ => blank.

(** Three squares through the origin, each one cutting the other two. *)
Definition crossing3 : list wall :=
  [ input_wall 0 [pt (-1) (-1) 0; pt 1 (-1) 0; pt 1 1 0; pt (-1) 1 0] 0 0 1 0 true;
    input_wall 1 [pt 0 (-1) (-1); pt 0 1 (-1); pt 0 1 1; pt 0 (-1) 1] 1 0 0 0 true;
    input_wall 2 [pt (-1) 0 (-1); pt 1 0 (-1); pt 1 0 1; pt (-1) 0 1] 0 1 0 0 true ].

(** The three squares and a fourth, disabled wall. *)
Definition crossing3_and_disabled : list wall :=
  crossing3 ++
  [ input_wall 3 [pt 2 (-1) (-1); pt 2 1 (-1); pt 2 1 1; pt 2 (-1) 1] 1 0 0 2 false ].

(** A floor triangle in front of an upright triangle that cuts the
    plane of the floor. *)
Definition floor_and_fin : list wall :=
  [ input_wall 0 [pt 1 0 0; pt 2 0 0; pt 2 1 0] 0 0 1 0 true;
    input_wall 1 [pt 0 0 (-1); pt 0 1 (-1); pt 0 0 1] 1 0 0 0 true ].

(** The four side walls of a unit box, normals pointing inwards, the
    third one disabled. *)
Definition box_sides : list wall :=
  [ input_wall 0 [pt 0 0 0; pt 0 1 0; pt 0 1 1; pt 0 0 1] 1 0 0 0 true;
    input_wall 1 [pt 1 0 0; pt 1 1 0; pt 1 1 1; pt 1 0 1] (-1) 0 0 (-1) true;
    input_wall 2 [pt 0 0 0; pt 1 0 0; pt 1 0 1; pt 0 0 1] 0 1 0 0 false;
    input_wall 3 [pt 0 1 0; pt 1 1 0; pt 1 1 1; pt 0 1 1] 0 (-1) 0 (-1) true ].

(** Two coplanar fragments (addresses 0 and 1) of input wall 0, with
    their own directly-reflectable sets. *)
Definition two_fragments : heap := fun p =>
  match p with
  | 0 => bsp_wall 0 0 0 0 1 0 true [7; 5]
  | 1 => bsp_wall 1 0 0 0 1 0 true [5; 9; 7]
  | _ => blank
  end.

(** Three post-split walls, ids 0, 1, 2: the first two on the plane
    z = 0, the third on x = 0; the one with the lowest id is disabled. *)
Definition first_disabled : heap := fun p =>
  match p with
  | 0 => bsp_wall 0 0 0 0 1 0 false []
  | 1 => bsp_wall 1 0 0 0 1 0 true []
  | 2 => bsp_wall 2 1 1 0 0 0 true []
  | _ => blank
  end.

(** Two enabled post-split walls on different planes. *)
Definition two_planes : heap := fun p =>
  match p with
  | 0 => bsp_wall 0 0 0 0 1 0 true []
  | 1 => bsp_wall 1 1 1 0 0 0 true []
  | _ => blank
  end.

End Fixture.

(** ** A small unit type for the trait generation *)

Module TraitFixture.
Import traits.

Definition unset : string := String.EmptyString.

(** Splitting at commas; empty pieces are dropped. *)
Fixpoint split_from (piece : string) (s : string) : list string :=
  match s with
  | String.EmptyString => if String.eqb piece unset then [] else [piece]
  | String.String c s' =>
      if String.eqb (String.String c unset) ","%string then
        (if String.eqb piece unset then [] else [piece]) ++ split_from unset s'
      else split_from (String.append piece (String.String c unset)) s'
  end.

Definition split_commas : string -> list string := split_from unset.

(** A generator that counts: the [g]-th draw from [lo..hi] is
    [lo + g mod (hi - lo + 1)]. *)
Definition counting (g : nat) (lo hi : Z) : Z * nat :=
  ((lo + Z.of_nat g mod (hi - lo + 1))%Z, S g).

Definition trait (tid require exclude availability : string) : config :=
  fun key =>
    if String.eqb key "id"%string then tid
    else if String.eqb key "require_traits"%string then require
    else if String.eqb key "exclude_traits"%string then exclude
    else if String.eqb key "availability"%string then availability
    else unset.
Arguments trait (tid require exclude availability)%_string.

Definition strong : config := trait "strong" unset unset "any".
Definition quick : config := trait "quick" unset "slow,dim" "any".
Definition slow : config := trait "slow" unset "quick" unset.
Definition fearless : config := trait "fearless" "strong" unset "any".
Definition dim : config := trait "dim" unset unset unset.

Definition possible : list config := [slow; fearless; quick; strong; dim].

End TraitFixture.

(** * Properties *)

(** ** The sort model *)

Section StdSortFacts.
Context {A : Type} (lt : A -> A -> bool).

Lemma sort_insert_perm (x : A) (l : list A) : sort_insert lt x l ≡ₚ x :: l.
Proof.
  induction l as [|y l IH]; simpl; [done|].
  destruct (lt y x); [|done].
  rewrite IH. apply perm_swap.
Qed.

Lemma std_sort_perm (l : list A) : std_sort lt l ≡ₚ l.
Proof.
  induction l as [|x l IH]; simpl; [done|].
  by rewrite sort_insert_perm, IH.
Qed.

Lemma std_sort_length (l : list A) : length (std_sort lt l) = length l.
Proof. by rewrite std_sort_perm. Qed.

Lemma elem_of_std_sort (x : A) (l : list A) : x ∈ std_sort lt l <-> x ∈ l.
Proof. by rewrite std_sort_perm. Qed.

(** [lt] is a strict weak order; [before] is the order of the input.
    The sorted range is ordered by [lt] first and, among equivalent
    elements, by [before]. *)
Hypothesis lt_trans :
  forall a b c, lt a b = true -> lt b c = true -> lt a c = true.
Hypothesis lt_negtrans :
  forall a b c, lt a b = false -> lt b c = false -> lt a c = false.

Variable before : A -> A -> Prop.

Lemma sort_insert_ranked (x : A) (l : list A) :
  Forall (before x) l ->
  StronglySorted (ranked lt before) l ->
  StronglySorted (ranked lt before) (sort_insert lt x l).
Proof using lt_trans lt_negtrans.
  induction l as [|y l IH]; intros Hx Hl; simpl.
  { repeat constructor. }
  apply StronglySorted_cons in Hl as [Hy Hl].
  apply Forall_cons in Hx as [Hxy Hx].
  destruct (lt y x) eqn:Hyx.
  - constructor; [by apply IH|].
    rewrite sort_insert_perm. constructor; [by left|done].
  - constructor; [by constructor|].
    constructor; [right; done|].
    rewrite Forall_forall in Hy, Hx |- *. intros z Hz.
    right. split; [|by apply Hx].
    destruct (Hy z Hz) as [Hyz|[Hzy _]].
    + destruct (lt z x) eqn:Hzx; [|done].
      by rewrite (lt_trans _ _ _ Hyz Hzx) in Hyx.
    + by apply (lt_negtrans z y x).
Qed.

Lemma std_sort_ranked (l : list A) :
  StronglySorted before l -> StronglySorted (ranked lt before) (std_sort lt l).
Proof using lt_trans lt_negtrans.
  induction l as [|x l IH]; intros Hl; simpl; [constructor|].
  apply StronglySorted_cons in Hl as [Hx Hl].
  apply sort_insert_ranked; [|by apply IH].
  by rewrite std_sort_perm.
Qed.
End StdSortFacts.

(** The first element of a sorted range that passes a test is ranked
    before every other element that passes it. *)
Lemma find_sorted {A} (R : A -> A -> Prop) (f : A -> bool) (l : list A) x :
  StronglySorted R l ->
  find f l = Some x ->
  f x = true /\ x ∈ l /\ forall y, y ∈ l -> f y = true -> y = x \/ R x y.
Proof.
  induction l as [|a l IH]; intros Hl Hf; simpl in *; [done|].
  apply StronglySorted_cons in Hl as [Ha Hl].
  destruct (f a) eqn:Hfa.
  - simplify_eq. split; [done|]. split; [by left|].
    intros y Hy _. apply elem_of_cons in Hy as [->|Hy]; [by left|].
    right. by eapply Forall_forall in Ha.
  - destruct (IH Hl Hf) as (Hfx & Hxl & Hmin).
    split; [done|]. split; [by right|].
    intros y Hy Hfy. apply elem_of_cons in Hy as [->|Hy]; [congruence|].
    by apply Hmin.
Qed.

Lemma find_none_all {A} (f : A -> bool) (l : list A) :
  find f l = None -> forall y, y ∈ l -> f y = false.
Proof.
  intros Hf y Hy. apply list_elem_of_In in Hy.
  by apply (find_none f l Hf).
Qed.

Lemma StronglySorted_mono {A} (R S : A -> A -> Prop) (l : list A) :
  (forall x y, R x y -> S x y) -> StronglySorted R l -> StronglySorted S l.
Proof.
  intros HRS. induction 1 as [|x l _ IH Hx]; constructor; [done|].
  eapply Forall_impl; [done|]. auto.
Qed.

Lemma StronglySorted_trivial {A} (l : list A) :
  StronglySorted (fun _ _ => True) l.
Proof. induction l; constructor; [done|]. by apply Forall_forall. Qed.

(** Addresses: sorting by [<] and dropping repeats. *)
Lemma std_sort_nat_sorted (l : list nat) :
  StronglySorted le (std_sort Nat.ltb l).
Proof.
  assert (StronglySorted (ranked Nat.ltb (fun _ _ => True))
            (std_sort Nat.ltb l)) as Hs.
  { apply std_sort_ranked.
    - intros a b c ?%Nat.ltb_lt ?%Nat.ltb_lt. apply Nat.ltb_lt. lia.
    - intros a b c ?%Nat.ltb_ge ?%Nat.ltb_ge. apply Nat.ltb_ge. lia.
    - apply StronglySorted_trivial. }
  eapply StronglySorted_mono; [|done].
  intros x y [?%Nat.ltb_lt|[?%Nat.ltb_ge _]]; lia.
Qed.

(** ** Disabling walls *)

Lemma first_out_of_range (l : list nat) (n : nat) :
  Exists (fun i => n <= i) l ->
  exists pre bad post,
    l = pre ++ bad :: post /\ Forall (fun i => i < n) pre /\ n <= bad.
Proof.
  induction l as [|a l IH]; intros Hex; [by apply Exists_nil in Hex|].
  destruct (decide (a < n)) as [Ha|Ha].
  - apply Exists_cons in Hex as [?|Hex]; [lia|].
    destruct (IH Hex) as (pre & bad & post & -> & Hpre & Hbad).
    exists (a :: pre), bad, post. split; [done|]. split; [by constructor|done].
  - exists [], a, l. split; [done|]. split; [constructor|lia].
Qed.

Section DisableFacts.
Context `{Scalar}.

Lemma disable_length (walls_to_disable : list nat) (walls : list wall) :
  length (disable_selected_walls walls_to_disable walls).1 = length walls.
Proof.
  revert walls. induction walls_to_disable as [|a l IH]; intros walls; simpl.
  { done. }
  destruct (walls !! a); [|done]. by rewrite IH, length_insert.
Qed.

Lemma disable_in_range (walls_to_disable : list nat) (walls : list wall) :
  Forall (fun i => i < length walls) walls_to_disable ->
  (disable_selected_walls walls_to_disable walls).2 = None.
Proof.
  revert walls. induction walls_to_disable as [|a l IH]; intros walls Hr; simpl.
  { done. }
  apply Forall_cons in Hr as [Ha Hr].
  destruct (lookup_lt_is_Some_2 walls a Ha) as [w ->].
  apply IH. by rewrite length_insert.
Qed.

Lemma disable_prefix (pre post : list nat) (bad : nat) (walls : list wall) :
  Forall (fun i => i < length walls) pre ->
  length walls <= bad ->
  disable_selected_walls (pre ++ bad :: post) walls =
    ((disable_selected_walls pre walls).1, Some out_of_range).
Proof.
  revert walls. induction pre as [|a l IH]; intros walls Hr Hbad; simpl.
  { by rewrite (lookup_ge_None_2 walls bad Hbad). }
  apply Forall_cons in Hr as [Ha Hr].
  destruct (lookup_lt_is_Some_2 walls a Ha) as [w ->].
  apply IH; by rewrite length_insert.
Qed.

Lemma disable_stays (walls_to_disable : list nat) (walls : list wall) (i : nat) :
  wall.enabled <$> walls !! i = Some false ->
  wall.enabled <$> (disable_selected_walls walls_to_disable walls).1 !! i
    = Some false.
Proof.
  revert walls. induction walls_to_disable as [|a l IH]; intros walls Hi; simpl.
  { done. }
  destruct (walls !! a) as [w|] eqn:Ha; [|done].
  apply IH. destruct (decide (a = i)) as [->|Hne].
  - rewrite list_lookup_insert_eq; [done|]. by eapply lookup_lt_Some.
  - by rewrite list_lookup_insert_ne.
Qed.

Lemma disable_sets_flag (walls_to_disable : list nat) (walls : list wall) (i : nat) :
  Forall (fun i => i < length walls) walls_to_disable ->
  i ∈ walls_to_disable ->
  wall.enabled <$> (disable_selected_walls walls_to_disable walls).1 !! i
    = Some false.
Proof.
  revert walls. induction walls_to_disable as [|a l IH]; intros walls Hr Hi;
    simpl.
  { by apply elem_of_nil in Hi. }
  apply Forall_cons in Hr as [Ha Hr].
  destruct (lookup_lt_is_Some_2 walls a Ha) as [w Hw]. rewrite Hw.
  destruct (decide (i = a)) as [->|Hne].
  - apply disable_stays. by rewrite list_lookup_insert_eq.
  - apply IH; [by rewrite length_insert|].
    apply elem_of_cons in Hi as [?|?]; done.
Qed.

Lemma disable_only_flag (walls_to_disable : list nat) (walls : list wall) (j : nat) :
  (fun w => wall.set_enabled w false) <$>
    (disable_selected_walls walls_to_disable walls).1 !! j =
  (fun w => wall.set_enabled w false) <$> walls !! j.
Proof.
  revert walls. induction walls_to_disable as [|a l IH]; intros walls; simpl.
  { done. }
  destruct (walls !! a) as [w|] eqn:Ha; [|done].
  rewrite IH. destruct (decide (a = j)) as [->|Hne].
  - rewrite list_lookup_insert_eq by (by eapply lookup_lt_Some).
    by rewrite Ha.
  - by rewrite list_lookup_insert_ne.
Qed.

Lemma disable_untouched (walls_to_disable : list nat) (walls : list wall) (j : nat) :
  j ∉ walls_to_disable ->
  (disable_selected_walls walls_to_disable walls).1 !! j = walls !! j.
Proof.
  revert walls. induction walls_to_disable as [|a l IH]; intros walls Hj; simpl.
  { done. }
  apply not_elem_of_cons in Hj as [Hne Hj].
  destruct (walls !! a) as [w|] eqn:Ha; [|done].
  rewrite IH by done. by rewrite list_lookup_insert_ne.
Qed.

(** C8.  An index that is not below the number of walls makes
    [disable_selected_walls] raise [out_of_range] at that index: the
    walls listed before it are disabled, nothing after it is looked
    at.  When every index is in range there is no fault, the wall at
    each listed index ends up with [enabled = false], and nothing but
    the [enabled] flags of the listed walls changes. *)
Theorem disable_selected_walls_fails_fast
    (walls_to_disable : list nat) (walls : list wall) :
  (forall pre bad post,
     walls_to_disable = pre ++ bad :: post ->
     Forall (fun i => i < length walls) pre ->
     length walls <= bad ->
     disable_selected_walls walls_to_disable walls =
       ((disable_selected_walls pre walls).1, Some out_of_range)) /\
  ((exists i, i ∈ walls_to_disable /\ length walls <= i) ->
     (disable_selected_walls walls_to_disable walls).2 = Some out_of_range) /\
  ((forall i, i ∈ walls_to_disable -> i < length walls) ->
     (disable_selected_walls walls_to_disable walls).2 = None /\
     forall i, i ∈ walls_to_disable ->
       wall.enabled <$>
         (disable_selected_walls walls_to_disable walls).1 !! i = Some false) /\
  (forall j,
     (fun w => wall.set_enabled w false) <$>
       (disable_selected_walls walls_to_disable walls).1 !! j =
     (fun w => wall.set_enabled w false) <$> walls !! j) /\
  (forall j, j ∉ walls_to_disable ->
     (disable_selected_walls walls_to_disable walls).1 !! j = walls !! j).
Proof.
  split; [|split; [|split; [|split]]].
  - intros pre bad post -> Hpre Hbad. by apply disable_prefix.
  - intros (i & Hi & Hbad).
    destruct (first_out_of_range walls_to_disable (length walls))
      as (pre & bad & post & -> & Hpre & Hb).
    { apply Exists_exists. eauto. }
    by rewrite disable_prefix.
  - intros Hall. apply Forall_forall in Hall.
    split; [by apply disable_in_range|].
    intros i Hi. by apply disable_sets_flag.
  - apply disable_only_flag.
  - apply disable_untouched.
Qed.
End DisableFacts.

Lemma std_unique_cons (x : nat) (l : list nat) :
  std_unique (x :: l) =
    match l with
    | [] => [x]
    | y :: _ => if Nat.eqb x y then std_unique l else x :: std_unique l
    end.
Proof. done. Qed.

Lemma elem_of_std_unique (x : nat) (l : list nat) :
  x ∈ std_unique l <-> x ∈ l.
Proof.
  induction l as [|a l IH]; [done|].
  rewrite std_unique_cons. destruct l as [|b l]; [done|].
  destruct (Nat.eqb_spec a b) as [->|_].
  - rewrite IH, !elem_of_cons. tauto.
  - rewrite !elem_of_cons, IH, !elem_of_cons. done.
Qed.

Lemma std_unique_sorted (l : list nat) :
  StronglySorted le l -> StronglySorted lt (std_unique l).
Proof.
  induction l as [|a l IH]; intros Hl; [constructor|].
  rewrite std_unique_cons.
  apply StronglySorted_cons in Hl as [Ha Hl].
  destruct l as [|b l]; [repeat constructor|].
  destruct (Nat.eqb_spec a b) as [->|Hab]; [by apply IH|].
  constructor; [by apply IH|].
  apply Forall_forall. intros z Hz. rewrite elem_of_std_unique in Hz.
  apply Forall_cons in Ha as [Hle Ha].
  apply StronglySorted_cons in Hl as [Hb _].
  apply elem_of_cons in Hz as [->|Hz]; [lia|].
  rewrite Forall_forall in Hb. specialize (Hb z Hz). lia.
Qed.

(** ** ReflectableAggregator *)

Section AggregatorFacts.
Context `{Scalar}.

Lemma sort_unique_perm (l l' : list ptr) :
  l ≡ₚ l' -> sort_unique l = sort_unique l'.
Proof.
  intros Hl. unfold sort_unique. f_equal.
  apply (StronglySorted_unique le); [apply std_sort_nat_sorted..|].
  by rewrite !std_sort_perm.
Qed.

Lemma sort_unique_sorted (l : list ptr) : StronglySorted lt (sort_unique l).
Proof. apply std_unique_sorted, std_sort_nat_sorted. Qed.

Lemma elem_of_sort_unique (x : ptr) (l : list ptr) :
  x ∈ sort_unique l <-> x ∈ l.
Proof. unfold sort_unique. by rewrite elem_of_std_unique, elem_of_std_sort. Qed.

Lemma elem_of_united (h : heap) (i : list ptr) (x : ptr) :
  x ∈ direct_reflectables_united h i <->
  exists k, k ∈ i /\ x ∈ wall.direct_reflectables (h k).
Proof.
  unfold direct_reflectables_united.
  induction i as [|a i IH]; simpl.
  - split; [by intros ?%elem_of_nil|by intros (k & ?%elem_of_nil & _)].
  - rewrite elem_of_app, IH. split.
    + intros [Hx|(k & Hk & Hx)]; [exists a|exists k];
        (split; [|done]); [by left|by right].
    + intros (k & [->|Hk]%elem_of_cons & Hx); [by left|right; eauto].
Qed.

Lemma united_ext (h h' : heap) (i : list ptr) :
  (forall k, k ∈ i -> h' k = h k) ->
  direct_reflectables_united h' i = direct_reflectables_united h i.
Proof.
  intros Hk. unfold direct_reflectables_united. f_equal.
  apply map_ext_in. intros k Hin%list_elem_of_In. by rewrite Hk.
Qed.

Lemma united_perm (h h' : heap) (i i' : list ptr) :
  i ≡ₚ i' ->
  (forall k, k ∈ i ->
     wall.direct_reflectables (h k) ≡ₚ wall.direct_reflectables (h' k)) ->
  direct_reflectables_united h i ≡ₚ direct_reflectables_united h' i'.
Proof.
  intros Hi Hk. unfold direct_reflectables_united.
  rewrite <- Hi. clear i' Hi.
  induction i as [|k i IH]; simpl; [done|].
  rewrite Hk by (by left). f_equiv. apply IH.
  intros k' Hk'. apply Hk. by right.
Qed.

(** Only first members of groups are written. *)
Lemma unify_frame (m : plane_polygon_map) (h h' : heap) (p : ptr) :
  unify_direct_reflectables m h = Done h' ->
  p ∉ concat m -> h' p = h p.
Proof.
  revert h. induction m as [|i m IH]; intros h Hrun Hp; simpl in *.
  { by simplify_eq. }
  destruct i as [|i0 rest]; [done|]. simpl in *.
  apply not_elem_of_cons in Hp as [Hp1 Hp2].
  apply not_elem_of_app in Hp2 as [_ Hp2].
  rewrite (IH _ Hrun Hp2).
  by apply fn_lookup_insert_ne.
Qed.
End AggregatorFacts.

(** ** SpatialAdapter and BSPBuilder *)

Lemma elem_of_indexed {A} (l : list A) (i : nat) (x : A) :
  (i, x) ∈ indexed l <-> l !! i = Some x.
Proof.
  unfold indexed. rewrite elem_of_lookup_imap. split.
  - by intros (j & y & [= -> ->] & Hl).
  - intros Hl. by exists i, x.
Qed.

Section BuilderFacts.
Context `{Splitter} `{Platform}.

Lemma construct_polygonspatial_model_filter (polygons : list wall) :
  construct_polygonspatial_model polygons =
    map wall_polygon (filter (fun w => wall.enabled w = true) polygons).
Proof.
  induction polygons as [|w l IH]; [done|]. simpl.
  rewrite filter_cons. destruct (wall.enabled w) eqn:Hw.
  - rewrite decide_True by done. simpl. by rewrite IH.
  - rewrite decide_False by done. done.
Qed.

Lemma rtswall_of_done (walls : list wall) (i : PolygonSpatial) :
  convertible walls i <-> is_done (rtswall_of walls i).
Proof.
  unfold convertible, rtswall_of, is_done.
  destruct (points i) as [|pt0 pts].
  { split; [by intros [? _]|by intros [? ?]]. }
  case_bool_decide as Hpos.
  - destruct (walls !! Z.to_nat (m_parentID i)) as [w|] eqn:Hw.
    + apply lookup_lt_Some in Hw. split; [eauto|]. intros _. split; [done|lia].
    + apply lookup_ge_None in Hw. split; [|by intros [? ?]].
      intros [_ ?]. lia.
  - split; [|by intros [? ?]]. intros [_ ?]. lia.
Qed.

Lemma rtswall_of_parent (walls : list wall) (i : PolygonSpatial) (w : wall) :
  rtswall_of walls i = Done w ->
  wall.parent_id w = m_parentID i /\
  wall.enabled w = true /\
  wall.corners w = map to_fvec3 (points i) /\
  (0 <= m_parentID i < Z.of_nat (length walls))%Z /\
  wall.parent w = Some (Z.to_nat (m_parentID i)) /\
  exists p, walls !! Z.to_nat (m_parentID i) = Some p /\
    wall.parent w = Some (Z.to_nat (m_parentID i)) /\
    wall.n w = wall.n p /\ wall.double_n w = wall.double_n p /\
    wall.d w = wall.d p /\ wall.material w = wall.material p.
Proof.
  unfold rtswall_of. destruct (points i) as [|pt0 pts]; [done|].
  case_bool_decide as Hpos; [|done].
  destruct (walls !! Z.to_nat (m_parentID i)) as [p|] eqn:Hp; [|done].
  intros [= <-]. simpl. apply lookup_lt_Some in Hp.
  repeat split; try done; try lia. by exists p.
Qed.

(** The walls of one conversion sit at the addresses
    [next .. next + polygons.size()), in the order of the polygons. *)
Lemma construct_rtswall_model_spec (walls : list wall)
    (polygons : list PolygonSpatial) (h : heap) (next : ptr)
    (ws : list ptr) (h' : heap) (next' : ptr) :
  construct_rtswall_model walls polygons (h, next) = Done (ws, (h', next')) ->
  ws = seq next (length polygons) /\
  next' = next + length polygons /\
  (forall p, ~ (next <= p < next') -> h' p = h p) /\
  (forall k i, polygons !! k = Some i ->
     rtswall_of walls i = Done (h' (next + k))).
Proof.
  revert h next ws h' next'.
  induction polygons as [|i l IH]; intros h next ws h' next' Hrun; simpl in *.
  { simplify_eq. split; [done|]. split; [lia|]. split; [done|].
    intros k i Hk. by rewrite lookup_nil in Hk. }
  destruct (rtswall_of walls i) as [w| |] eqn:Hw; simpl in Hrun; try done.
  destruct (construct_rtswall_model walls l (<[next:=w]> h, S next))
    as [[ws1 [h1 next1]]| |] eqn:Hrest; simpl in Hrun; try done.
  simplify_eq.
  destruct (IH _ _ _ _ _ Hrest) as (-> & -> & Hframe & Hat).
  split; [done|]. split; [lia|]. split.
  - intros p Hp. rewrite Hframe by lia. apply fn_lookup_insert_ne. lia.
  - intros [|k] j Hj; simpl in Hj.
    + simplify_eq. rewrite Nat.add_0_r, Hframe by lia.
      by rewrite fn_lookup_insert.
    + replace (next + S k) with (S next + k) by lia. by apply Hat.
Qed.

Lemma construct_rtswall_model_done (walls : list wall)
    (polygons : list PolygonSpatial) (st : store) :
  Forall (convertible walls) polygons ->
  is_done (construct_rtswall_model walls polygons st).
Proof.
  revert st. induction polygons as [|i l IH]; intros [h next] Hall; simpl.
  { by eexists. }
  apply Forall_cons in Hall as [[w Hw]%rtswall_of_done Hall].
  rewrite Hw. simpl.
  destruct (IH (<[next:=w]> h, S next) Hall) as [[ws st'] ->]. simpl.
  by eexists.
Qed.
End BuilderFacts.

Section BuilderUnfold.
Context `{Splitter} `{Platform}.

Lemma build_BSP_unfold (fuel : nat) (walls : list wall)
    (polygons : list PolygonSpatial) (st : store) (new_walls : list ptr)
    (threshold : Q) :
  build_BSP (S fuel) walls polygons st new_walls threshold =
    match polygons with
    | [] => Done (None, st, new_walls)
    | _ :: _ =>
        if subspace_convex polygons then
          '(ws, st1) ← construct_rtswall_model walls polygons st;
          Done (Some (Node ws None None true), st1, new_walls ++ ws)
        else
          match select_splitter polygons threshold with
          | None => Fault
          | Some wall_id =>
              match polygons !! wall_id with
              | None => Fault
              | Some partition_wall =>
                  let b := split_others polygons wall_id partition_wall in
                  '(ws, st1) ←
                    construct_rtswall_model walls (partition_wall :: on b) st;
                  '(f, st2, nw2) ←
                    build_BSP fuel walls (above b) st1 new_walls threshold;
                  '(k, st3, nw3) ←
                    build_BSP fuel walls (below b) st2 nw2 threshold;
                  Done (Some (Node ws f k false), st3, nw3 ++ ws)
              end
          end
    end.
Proof. done. Qed.

Lemma tree_walls_node (ws : list ptr) (f k : option BSPNode) (l : bool) :
  tree_walls (Some (Node ws f k l)) = ws ++ tree_walls f ++ tree_walls k.
Proof. done. Qed.
End BuilderUnfold.

(** One step of a run: case on the outcome of [t] inside [Hr]. *)
Tactic Notation "run_step" hyp(Hr) ident(E) ":" constr(t)
    "as" simple_intropattern(pat) :=
  destruct t as pat eqn:E; rewrite ?E in Hr; simpl in Hr; try done.

#[local] Arguments construct_rtswall_model : simpl never.
#[local] Arguments build_BSP : simpl never.

(** Invariants of the construction, for a property [P] of parent ids
    that the kernel's [split] hands down to the fragments. *)
Section Lineage.
Context `{Splitter} `{Platform}.
Variable P : Z -> Prop.
Hypothesis split_keeps : forall p pl b,
  P (m_parentID p) ->
  buckets_all (fun q => P (m_parentID q)) b ->
  buckets_all (fun q => P (m_parentID q)) (split p pl b).

Lemma split_others_keeps (polygons : list PolygonSpatial) (wall_id : nat)
    (partition_wall : PolygonSpatial) :
  Forall (fun q => P (m_parentID q)) polygons ->
  buckets_all (fun q => P (m_parentID q))
    (split_others polygons wall_id partition_wall).
Proof using split_keeps.
  intros Hall. unfold split_others.
  assert (Forall (fun ip => P (m_parentID ip.2)) (indexed polygons)) as Hix.
  { apply Forall_forall. intros [i p] Hip%elem_of_indexed. simpl.
    rewrite Forall_forall in Hall. apply Hall.
    by eapply list_elem_of_lookup_2. }
  assert (buckets_all (fun q => P (m_parentID q)) (mkBuckets [] [] []))
    as Hacc by (by repeat split).
  revert Hix Hacc. generalize (mkBuckets [] [] []).
  induction (indexed polygons) as [|[i p] l IH]; intros acc Hix Hacc; simpl.
  { done. }
  apply Forall_cons in Hix as [Hp Hix]. apply IH; [done|].
  destruct (Nat.eqb i wall_id); [done|]. by apply split_keeps.
Qed.

Lemma construct_fresh (walls : list wall) (polygons : list PolygonSpatial)
    (h : heap) (next : ptr) (ws : list ptr) (h' : heap) (next' : ptr) :
  construct_rtswall_model walls polygons (h, next) = Done (ws, (h', next')) ->
  Forall (fun q => P (m_parentID q)) polygons ->
  forall p, next <= p < next' -> wall_ok P walls (h' p).
Proof.
  intros (-> & -> & _ & Hat)%construct_rtswall_model_spec Hall p Hp.
  destruct (lookup_lt_is_Some_2 polygons (p - next)) as [q Hq]; [lia|].
  specialize (Hat _ _ Hq). replace (next + (p - next)) with p in Hat by lia.
  apply rtswall_of_parent in Hat
    as (Hpar & Hen & _ & Hrange & Hptr & w & Hw & Hinherit).
  unfold wall_ok. rewrite Hpar.
  split; [|split; [done|split; [done|by exists w]]].
  rewrite Forall_forall in Hall. apply Hall.
  by eapply list_elem_of_lookup_2.
Qed.

Lemma build_BSP_built_ok (fuel : nat) (walls : list wall)
    (polygons : list PolygonSpatial) (h : heap) (next : ptr)
    (new_walls : list ptr) (threshold : Q) r :
  build_BSP fuel walls polygons (h, next) new_walls threshold = Done r ->
  Forall (fun q => P (m_parentID q)) polygons ->
  built_ok P walls h next new_walls r.
Proof using split_keeps.
  revert polygons h next new_walls r.
  induction fuel as [|fuel IH]; intros polygons h next new_walls r Hrun Hall;
    [done|].
  rewrite build_BSP_unfold in Hrun.
  destruct polygons as [|q0 qs] eqn:Hpolys.
  { simplify_eq. simpl. split; [done|]. split; [done|]. split.
    - exists []. rewrite app_nil_r. split; [done|]. split; [constructor|].
      intros p. split; [by intros ?%elem_of_nil|lia].
    - split; [intros; lia|]. by intros p ?%elem_of_nil. }
  rewrite <- Hpolys in *. clear Hpolys q0 qs.
  destruct (subspace_convex polygons).
  - destruct (construct_rtswall_model walls polygons (h, next))
      as [[ws [h1 next1]]| |] eqn:Hc; simpl in Hrun; try done.
    simplify_eq. simpl.
    pose proof (construct_fresh _ _ _ _ _ _ _ Hc Hall) as Hfresh.
    apply construct_rtswall_model_spec in Hc as (-> & -> & Hframe & _).
    split; [lia|]. split; [done|]. split; [|split; [done|]].
    + eexists. split; [done|]. split; [apply NoDup_seq|].
      intros p. rewrite elem_of_seq. lia.
    + intros p. rewrite !app_nil_r, elem_of_seq. lia.
  - destruct (select_splitter polygons threshold) as [wall_id|]; [|done].
    destruct (polygons !! wall_id) as [partition_wall|] eqn:Hpw; [|done].
    cbv zeta in Hrun.
    pose proof (split_others_keeps polygons wall_id partition_wall Hall)
      as (Habove & Hon & Hbelow).
    set (b := split_others polygons wall_id partition_wall) in *.
    assert (Forall (fun q => P (m_parentID q)) (partition_wall :: on b))
      as Hon'.
    { constructor; [|done]. rewrite Forall_forall in Hall. apply Hall.
      by eapply list_elem_of_lookup_2. }
    run_step Hrun Hc : (construct_rtswall_model walls (partition_wall :: on b) (h, next))
      as [[ws [h1 next1]]| |].
    run_step Hrun Hf : (build_BSP fuel walls (above b) (h1, next1) new_walls threshold)
      as [[[f [h2 next2]] nw2]| |].
    run_step Hrun Hk : (build_BSP fuel walls (below b) (h2, next2) nw2 threshold)
      as [[[k [h3 next3]] nw3]| |].
    simplify_eq.
    pose proof (construct_fresh _ _ _ _ _ _ _ Hc Hon') as Hfresh.
    apply construct_rtswall_model_spec in Hc as (-> & Hn1 & Hframe1 & _).
    apply IH in Hf as (Hle2 & Hframe2 & (add2 & -> & Hnd2 & Hadd2) & Hok2 & Htw2);
      [|done].
    apply IH in Hk as (Hle3 & Hframe3 & (add3 & -> & Hnd3 & Hadd3) & Hok3 & Htw3);
      [|done].
    hnf. split; [lia|]. split; [|split; [|split]].
    + intros p Hp. rewrite Hframe3, Hframe2, Hframe1 by lia. done.
    + exists (add2 ++ add3 ++ seq next (length (partition_wall :: on b))).
      split; [by rewrite <- !app_assoc|]. split.
      * apply NoDup_app. split; [done|]. split.
        -- intros p Hp2 [Hp3|Hps]%elem_of_app.
           ++ apply Hadd2 in Hp2. apply Hadd3 in Hp3. lia.
           ++ apply Hadd2 in Hp2. apply elem_of_seq in Hps. lia.
        -- apply NoDup_app. split; [done|]. split; [|apply NoDup_seq].
           intros p Hp3 Hps. apply Hadd3 in Hp3. apply elem_of_seq in Hps. lia.
      * intros p. rewrite !elem_of_app, Hadd2, Hadd3, elem_of_seq. lia.
    + intros p Hp.
      destruct (decide (p < next1)) as [Hlt|Hge].
      { rewrite Hframe3, Hframe2 by lia. apply Hfresh. lia. }
      destruct (decide (p < next2)) as [Hlt2|Hge2].
      { rewrite Hframe3 by lia. apply Hok2. lia. }
      apply Hok3. lia.
    + intros p. rewrite tree_walls_node, !elem_of_app, elem_of_seq.
      intros [Hp|[Hp|Hp]].
      * lia.
      * apply Htw2 in Hp. lia.
      * apply Htw3 in Hp. lia.
Qed.
End Lineage.

(** ** IdentityHarmonizer *)

Section HarmonizerFacts.
Context `{Scalar}.

Lemma children_before_ext (h h' : heap) (pw : list ptr) (k : nat) (i : Z) :
  (forall p, wall.parent_id (h' p) = wall.parent_id (h p)) ->
  children_before h' pw k i = children_before h pw k i.
Proof.
  intros Hp. unfold children_before. do 2 f_equal.
  apply list_filter_iff. intros j. by rewrite Hp.
Qed.

Lemma children_before_0 (h : heap) (pw : list ptr) (i : Z) :
  children_before h pw 0 i = 0%Z.
Proof. unfold children_before. by rewrite take_0. Qed.

Lemma children_before_S (h : heap) (j : ptr) (pw : list ptr) (k : nat) (i : Z) :
  children_before h (j :: pw) (S k) i =
    ((if decide (wall.parent_id (h j) = i) then 1 else 0)
     + children_before h pw k i)%Z.
Proof.
  unfold children_before. simpl. rewrite filter_cons.
  destruct (decide (wall.parent_id (h j) = i)); simpl; lia.
Qed.

Lemma children_before_nonneg (h : heap) (pw : list ptr) (k : nat) (i : Z) :
  (0 <= children_before h pw k i)%Z.
Proof. unfold children_before. lia. Qed.

(** A later position has seen every earlier child of the parent. *)
Lemma children_before_lt (h : heap) (pw : list ptr) (k1 k2 : nat) (j1 : ptr) :
  k1 < k2 -> pw !! k1 = Some j1 ->
  (children_before h pw k1 (wall.parent_id (h j1))
   < children_before h pw k2 (wall.parent_id (h j1)))%Z.
Proof.
  revert k1 k2. induction pw as [|j pw IH]; intros k1 k2 Hlt Hk1.
  { by rewrite lookup_nil in Hk1. }
  destruct k2 as [|k2]; [lia|]. rewrite children_before_S.
  destruct k1 as [|k1]; simpl in Hk1.
  - simplify_eq. rewrite children_before_0, decide_True by done.
    pose proof (children_before_nonneg h pw k2 (wall.parent_id (h j1))). lia.
  - rewrite children_before_S.
    assert (k1 < k2) as Hlt' by lia. specialize (IH _ _ Hlt' Hk1). lia.
Qed.

Lemma relabel_children_parent (i : Z) (pw : list ptr) (inc : Z) (h : heap) (p : ptr) :
  wall.parent_id (relabel_children i pw inc h p) = wall.parent_id (h p).
Proof.
  revert inc h. induction pw as [|j pw IH]; intros inc h; simpl; [done|].
  destruct (wall.parent_id (h j) =? i)%Z; [|by rewrite IH].
  rewrite IH. destruct (decide (j = p)) as [->|Hne].
  - by rewrite fn_lookup_insert.
  - by rewrite fn_lookup_insert_ne.
Qed.

(** One pass of the inner loop over pairwise distinct walls. *)
Lemma relabel_children_spec (i : Z) (pw : list ptr) (inc : Z) (h : heap) :
  NoDup pw ->
  (forall p, p ∉ pw -> relabel_children i pw inc h p = h p) /\
  (forall k j, pw !! k = Some j ->
     relabel_children i pw inc h j =
       if decide (wall.parent_id (h j) = i)
       then wall.setID (h j)
              (wall.parent_id (h j) * 1000 + (inc + children_before h pw k i))
       else h j).
Proof.
  revert inc h. induction pw as [|j0 pw IH]; intros inc h Hnd; simpl.
  { split; [done|]. intros k j Hk. by rewrite lookup_nil in Hk. }
  apply NoDup_cons in Hnd as [Hj0 Hnd].
  destruct (Z.eqb_spec (wall.parent_id (h j0)) i) as [Hpar|Hpar].
  - set (h1 := <[j0 := wall.setID (h j0)
                         (wall.parent_id (h j0) * 1000 + inc)]> h).
    destruct (IH (inc + 1)%Z h1 Hnd) as [Hout Hin].
    assert (forall p, wall.parent_id (h1 p) = wall.parent_id (h p)) as Hsame.
    { intros p. unfold h1. destruct (decide (j0 = p)) as [->|Hne].
      - by rewrite fn_lookup_insert.
      - by rewrite fn_lookup_insert_ne. }
    split.
    + intros p [Hne Hp]%not_elem_of_cons. rewrite Hout by done.
      unfold h1. by rewrite fn_lookup_insert_ne.
    + intros [|k] j Hk; simpl in Hk.
      * simplify_eq. rewrite Hout by done. unfold h1.
        rewrite fn_lookup_insert, decide_True by done.
        by rewrite children_before_0, Z.add_0_r.
      * assert (j <> j0) as Hne.
        { intros ->. apply Hj0. by eapply list_elem_of_lookup_2. }
        rewrite (Hin _ _ Hk), Hsame, (children_before_ext h h1) by done.
        rewrite children_before_S, (decide_True _ _ Hpar).
        unfold h1. rewrite fn_lookup_insert_ne by done.
        destruct (decide (wall.parent_id (h j) = i)); [|done].
        f_equal. lia.
  - destruct (IH inc h Hnd) as [Hout Hin].
    split.
    + intros p [Hne Hp]%not_elem_of_cons. by apply Hout.
    + intros [|k] j Hk; simpl in Hk.
      * simplify_eq. rewrite Hout by done. by rewrite decide_False.
      * rewrite (Hin _ _ Hk), children_before_S, (decide_False _ _ Hpar).
        done.
Qed.

(** The outer loop, over any duplicate-free range of wall indices. *)
Lemma harmonise_fold_spec (indices : list nat) (pw : list ptr) (h : heap) :
  NoDup pw -> NoDup indices ->
  forall k j, pw !! k = Some j ->
    ((exists i, i ∈ indices /\ wall.parent_id (h j) = Z.of_nat i) ->
     fold_left (fun h' i => relabel_children (Z.of_nat i) pw 0 h') indices h j =
       wall.setID (h j)
         (wall.parent_id (h j) * 1000
          + children_before h pw k (wall.parent_id (h j)))) /\
    ((forall i, i ∈ indices -> wall.parent_id (h j) <> Z.of_nat i) ->
     fold_left (fun h' i => relabel_children (Z.of_nat i) pw 0 h') indices h j =
       h j).
Proof.
  intros Hpw. revert h.
  induction indices as [|i0 indices IH]; intros h Hix k j Hk; simpl.
  { split; [by intros (i & ?%elem_of_nil & _)|done]. }
  apply NoDup_cons in Hix as [Hi0 Hix].
  set (h1 := relabel_children (Z.of_nat i0) pw 0 h).
  assert (forall p, wall.parent_id (h1 p) = wall.parent_id (h p)) as Hsame.
  { intros p. apply relabel_children_parent. }
  destruct (IH h1 Hix k j Hk) as [IHin IHout].
  rewrite Hsame, (children_before_ext h h1) in IHin by done.
  rewrite Hsame in IHout.
  destruct (relabel_children_spec (Z.of_nat i0) pw 0 h Hpw) as [_ Hin].
  fold h1 in Hin. specialize (Hin _ _ Hk). rewrite Z.add_0_l in Hin.
  destruct (decide (wall.parent_id (h j) = Z.of_nat i0)) as [Hpar|Hpar].
  - split.
    + intros _. rewrite IHout; [by rewrite Hin, Hpar|].
      intros i Hi Hpi. assert (i = i0) as -> by lia. done.
    + intros Hno. destruct (Hno i0); [by left|done].
  - rewrite Hin in IHin, IHout. split.
    + intros (i & [->|Hi]%elem_of_cons & Hpi); [done|]. apply IHin. eauto.
    + intros Hno. apply IHout. intros i Hi. apply Hno. by right.
Qed.
End HarmonizerFacts.

Section AggregatorClaims.
Context `{Scalar}.

(** C7.  The unified set of a plane group does not depend on the order
    in which the member walls, or the entries of their
    directly-reflectable sets, are visited: for permuted members with
    permuted entries the sorted, duplicate-free result is the same
    list. *)
Theorem unified_set_order_independent (h h' : heap) (i i' : list ptr) :
  i ≡ₚ i' ->
  (forall k, k ∈ i ->
     wall.direct_reflectables (h k) ≡ₚ wall.direct_reflectables (h' k)) ->
  sort_unique (direct_reflectables_united h i) =
  sort_unique (direct_reflectables_united h' i').
Proof. intros Hi Hk. by apply sort_unique_perm, united_perm. Qed.

(** C6 (as amended).  On a plane-polygon map whose groups are non-empty
    and pairwise disjoint the aggregation runs to completion, and for
    every group the first member ends up with the union of the
    members' directly-reflectable sets (as they were before the
    aggregation), strictly ascending by address, hence free of
    duplicates; every other member keeps the set it had. *)
Theorem unify_direct_reflectables_first_member
    (m : plane_polygon_map) (h : heap) :
  Forall (fun i => i <> []) m ->
  NoDup (concat m) ->
  exists h',
    unify_direct_reflectables m h = Done h' /\
    forall i, i ∈ m ->
      exists i0 rest,
        i = i0 :: rest /\
        wall.direct_reflectables (h' i0) =
          sort_unique (direct_reflectables_united h i) /\
        StronglySorted lt (wall.direct_reflectables (h' i0)) /\
        (forall x, x ∈ wall.direct_reflectables (h' i0) <->
                   exists k, k ∈ i /\ x ∈ wall.direct_reflectables (h k)) /\
        (forall k, k ∈ rest -> h' k = h k).
Proof.
  revert h. induction m as [|i m IH]; intros h Hne Hnd.
  { exists h. split; [done|]. by intros i ?%elem_of_nil. }
  apply Forall_cons in Hne as [Hi Hne].
  simpl in Hnd. apply NoDup_app in Hnd as (Hnd_i & Hdisj & Hnd_m).
  destruct i as [|i0 rest]; [done|]. clear Hi.
  set (h1 := <[i0 := wall.set_direct_reflectables (h i0)
                 (sort_unique (direct_reflectables_united h (i0 :: rest)))]> h).
  destruct (IH h1 Hne Hnd_m) as (h' & Hrun & Hgroups).
  exists h'. split; [done|].
  assert (forall k, k ∈ i0 :: rest -> h' k = h1 k) as Hkeep.
  { intros k Hk. apply (unify_frame m); [done|]. by apply Hdisj. }
  assert (forall k, k <> i0 -> h1 k = h k) as Hother.
  { intros k Hk. unfold h1. by apply fn_lookup_insert_ne. }
  intros i [->|Hi]%elem_of_cons.
  - exists i0, rest. split; [done|].
    assert (wall.direct_reflectables (h' i0) =
            sort_unique (direct_reflectables_united h (i0 :: rest))) as ->.
    { rewrite Hkeep by (by left). unfold h1.
      by rewrite fn_lookup_insert. }
    split; [done|]. split; [apply sort_unique_sorted|].
    split; [intros x; by rewrite elem_of_sort_unique, elem_of_united|].
    intros k Hk. rewrite Hkeep by (by right). apply Hother.
    intros ->. by apply NoDup_cons in Hnd_i as [? _].
  - destruct (Hgroups i Hi) as (j0 & others & -> & Hset & Hsorted & Hmem & Hrest).
    assert (forall k, k ∈ j0 :: others -> h1 k = h k) as Hsame.
    { intros k Hk. apply Hother. intros ->.
      apply (Hdisj i0); [by left|].
      clear -Hi Hk. induction m as [|g m IHm]; [by apply elem_of_nil in Hi|].
      simpl. apply elem_of_app.
      apply elem_of_cons in Hi as [<-|Hi]; [by left|right; auto]. }
    exists j0, others. split; [done|].
    rewrite <- (united_ext h h1) by done.
    split; [done|]. split; [done|].
    split.
    + intros x. rewrite Hmem. split; intros (k & Hk & Hx); exists k;
        (split; [done|]); [by rewrite <- Hsame|by rewrite Hsame].
    + intros k Hk. rewrite Hrest by done. apply Hsame. by right.
Qed.
End AggregatorClaims.

(** C6, the claim as stated, fails: the second fragment of the group
    keeps its own set [5; 9; 7] instead of holding the union. *)
Lemma unify_direct_reflectables_not_every_member :
  ~ (forall h',
       unify_direct_reflectables [[0; 1]] Fixture.two_fragments = Done h' ->
       forall k, k ∈ [0; 1] ->
         wall.direct_reflectables (h' k) =
         sort_unique (direct_reflectables_united Fixture.two_fragments [0; 1])).
Proof.
  intros Hclaim.
  specialize (Hclaim _ eq_refl 1 ltac:(by right; left)).
  vm_compute in Hclaim. discriminate.
Qed.

Lemma unified_set_order_independent_witness :
  sort_unique (direct_reflectables_united Fixture.two_fragments [0; 1]) =
  sort_unique (direct_reflectables_united Fixture.two_fragments [1; 0]).
Proof.
  apply unified_set_order_independent.
  - apply perm_swap.
  - reflexivity.
Defined.

Lemma unify_direct_reflectables_first_member_witness :
  exists h',
    unify_direct_reflectables [[0; 1]] Fixture.two_fragments = Done h' /\
    forall i, i ∈ [[0; 1]] ->
      exists i0 rest,
        i = i0 :: rest /\
        wall.direct_reflectables (h' i0) =
          sort_unique (direct_reflectables_united Fixture.two_fragments i) /\
        StronglySorted lt (wall.direct_reflectables (h' i0)) /\
        (forall x, x ∈ wall.direct_reflectables (h' i0) <->
                   exists k, k ∈ i /\
                     x ∈ wall.direct_reflectables (Fixture.two_fragments k)) /\
        (forall k, k ∈ rest -> h' k = Fixture.two_fragments k).
Proof.
  apply unify_direct_reflectables_first_member.
  - repeat constructor; discriminate.
  - simpl. apply NoDup_cons. split; [|apply NoDup_singleton].
    intros [E|E]%elem_of_cons; [discriminate|by apply elem_of_nil in E].
Defined.

Section BuilderClaims.
Context `{Splitter} `{Platform}.

(** C2.  On the empty input [build_BSP] returns the empty result and
    leaves the accumulator alone.  On a non-empty input that passes the
    convexity test it converts the whole input with
    [construct_rtswall_model] and returns one node: a leaf without
    front or back child whose walls are the converted input, appended
    to the accumulator.  When every polygon has a ring and a parent
    among [walls], the conversion succeeds: the leaf holds one wall per
    polygon, in input order, at fresh addresses, and the walls that
    existed before are untouched. *)
Theorem build_BSP_convex_leaf (fuel : nat) (walls : list wall)
    (polygons : list PolygonSpatial) (h : heap) (next : ptr)
    (new_walls : list ptr) (threshold : Q) :
  build_BSP (S fuel) walls [] (h, next) new_walls threshold =
    Done (None, (h, next), new_walls) /\
  (polygons <> [] -> subspace_convex polygons = true ->
     build_BSP (S fuel) walls polygons (h, next) new_walls threshold =
       ('(ws, st1) ← construct_rtswall_model walls polygons (h, next);
        Done (Some (Node ws None None true), st1, new_walls ++ ws)) /\
     (Forall (convertible walls) polygons ->
      exists h',
        build_BSP (S fuel) walls polygons (h, next) new_walls threshold =
          Done (Some (Node (seq next (length polygons)) None None true),
                (h', next + length polygons),
                new_walls ++ seq next (length polygons)) /\
        (forall k i, polygons !! k = Some i ->
           rtswall_of walls i = Done (h' (next + k))) /\
        (forall p, p < next -> h' p = h p))).
Proof.
  split; [done|]. intros Hne Hconvex.
  assert (build_BSP (S fuel) walls polygons (h, next) new_walls threshold =
          ('(ws, st1) ← construct_rtswall_model walls polygons (h, next);
           Done (Some (Node ws None None true), st1, new_walls ++ ws)))
    as Heq.
  { rewrite build_BSP_unfold, Hconvex. by destruct polygons. }
  split; [done|]. intros Hall.
  destruct (construct_rtswall_model_done walls polygons (h, next) Hall)
    as [[ws [h' next']] Hc].
  rewrite Heq, Hc. simpl.
  apply construct_rtswall_model_spec in Hc as (-> & -> & Hframe & Hat).
  exists h'. split; [done|]. split; [done|].
  intros p Hp. apply Hframe. lia.
Qed.

(** C3.  After the harmonizer has run over the walls a construction
    produced, the wall at position [k] of the produced-wall list is the
    wall it was with its id replaced by [parent_id * 1000 + s], where
    [s] counts the walls of the same parent at the positions before
    [k]; so [s] is 0 for the first child of a parent and ids grow
    strictly along the list within each parent. *)
Theorem harmonised_ids (fuel : nat) (walls : list wall)
    (polygons : list PolygonSpatial) (h : heap) (next : ptr)
    (threshold : Q) (tree : option BSPNode) (h1 : heap) (next1 : ptr)
    (pwalls_BSP : list ptr) :
  build_BSP fuel walls polygons (h, next) [] threshold =
    Done (tree, (h1, next1), pwalls_BSP) ->
  (forall k j, pwalls_BSP !! k = Some j ->
     harmonise_identifiers (length walls) pwalls_BSP h1 j =
       wall.setID (h1 j)
         (wall.parent_id (h1 j) * 1000
          + children_before h1 pwalls_BSP k (wall.parent_id (h1 j)))) /\
  (forall k1 k2 j1 j2,
     k1 < k2 -> pwalls_BSP !! k1 = Some j1 -> pwalls_BSP !! k2 = Some j2 ->
     wall.parent_id (h1 j1) = wall.parent_id (h1 j2) ->
     (wall.id (harmonise_identifiers (length walls) pwalls_BSP h1 j1)
      < wall.id (harmonise_identifiers (length walls) pwalls_BSP h1 j2))%Z).
Proof.
  intros Hrun.
  apply (build_BSP_built_ok (fun _ => True)) in Hrun
    as (_ & _ & (added & Hadded & Hnd & Hrange) & Hok & _).
  2: { intros p pl b _ _. repeat split; by apply Forall_forall. }
  2: { by apply Forall_forall. }
  simpl in Hadded. subst added.
  assert (forall k j, pwalls_BSP !! k = Some j ->
     harmonise_identifiers (length walls) pwalls_BSP h1 j =
       wall.setID (h1 j)
         (wall.parent_id (h1 j) * 1000
          + children_before h1 pwalls_BSP k (wall.parent_id (h1 j)))) as Hid.
  { intros k j Hk. unfold harmonise_identifiers.
    apply (harmonise_fold_spec _ _ _ Hnd (NoDup_seq _ _) _ _ Hk).
    assert (j ∈ pwalls_BSP) as Hj by (by eapply list_elem_of_lookup_2).
    apply Hrange, Hok in Hj as (_ & Hpar & _).
    exists (Z.to_nat (wall.parent_id (h1 j))).
    rewrite elem_of_seq. lia. }
  split; [done|].
  intros k1 k2 j1 j2 Hlt Hk1 Hk2 Hpar.
  rewrite (Hid _ _ Hk1), (Hid _ _ Hk2). simpl. rewrite <- Hpar.
  pose proof (children_before_lt h1 pwalls_BSP k1 k2 j1 Hlt Hk1). lia.
Qed.

(** C9.  Only the enabled walls are converted to polygons, in the order
    of the input.  With a kernel whose fragments inherit the parent id
    of the polygon they were cut from, every wall of the tree and of
    the produced-wall list stems from an enabled input wall: its parent
    id is the id of one; and when the ids of the input walls are their
    positions, as the indexing [walls[m_parentID]] takes for granted,
    the parent it refers to and takes its plane from is enabled. *)
Theorem disabled_walls_excluded (input : list wall) :
  construct_polygonspatial_model input =
    map wall_polygon (filter (fun w => wall.enabled w = true) input) /\
  (fragments_inherit_parent ->
   forall fuel h next threshold tree h1 next1 pwalls_BSP,
     build_BSP fuel input (construct_polygonspatial_model input) (h, next) []
       threshold = Done (tree, (h1, next1), pwalls_BSP) ->
     forall j, j ∈ pwalls_BSP \/ j ∈ tree_walls tree ->
       (exists w, w ∈ input /\ wall.enabled w = true /\
                  wall.parent_id (h1 j) = wall.id w) /\
       ((forall i w, input !! i = Some w -> wall.id w = Z.of_nat i) ->
        exists i w, wall.parent (h1 j) = Some i /\ input !! i = Some w /\
                    wall.enabled w = true /\
                    wall.n (h1 j) = wall.n w /\ wall.d (h1 j) = wall.d w)).
Proof.
  split; [apply construct_polygonspatial_model_filter|].
  intros Hkernel fuel h next threshold tree h1 next1 pwalls_BSP Hrun j Hj.
  set (P := fun pid : Z =>
         exists w, w ∈ input /\ wall.enabled w = true /\ pid = wall.id w).
  apply (build_BSP_built_ok P) in Hrun
    as (_ & _ & (added & Hadded & _ & Hrange) & Hok & Htree).
  - simpl in Hadded. subst added.
    assert (next <= j < next1) as Hin.
    { destruct Hj as [Hj|Hj]; [by apply Hrange|by apply Htree]. }
    destruct (Hok j Hin)
      as (Hp & Hpar & _ & p & Hlook & Hptr & Hn & _ & Hd & _).
    split; [done|]. intros Hpos.
    destruct Hp as (w & [i Hi]%list_elem_of_lookup_1 & Hen & Hid).
    rewrite (Hpos _ _ Hi) in Hid. rewrite Hid, Nat2Z.id in Hlook, Hptr.
    exists i, w. rewrite Hlook in Hi. by simplify_eq.
  - intros p pl b Hp (Ha & Ho & Hb).
    rewrite Forall_forall in Ha, Ho, Hb.
    assert (forall q,
      q ∈ above (split p pl b) ++ on (split p pl b) ++ below (split p pl b) ->
      P (m_parentID q)) as Hall.
    { intros q [Hq| ->]%Hkernel; [|done].
      rewrite !elem_of_app in Hq. destruct Hq as [?|[?|?]]; auto. }
    repeat split; apply Forall_forall; intros q Hq; apply Hall;
      rewrite !elem_of_app; auto.
  - rewrite construct_polygonspatial_model_filter.
    apply Forall_forall. intros q (w & -> & Hw)%list_elem_of_fmap.
    apply list_elem_of_filter in Hw as [Hen Hw]. by exists w.
Qed.
End BuilderClaims.

Lemma fixture_fragments_inherit_parent : fragments_inherit_parent.
Proof.
  intros p pl b q. simpl.
  destruct (existsb _ (points p)), (existsb _ (points p)); simpl;
    rewrite !elem_of_app, ?list_elem_of_singleton; intros Hq;
    repeat match goal with
           | Hq : _ \/ _ |- _ => destruct Hq as [Hq|Hq]
           end;
    subst; auto 6.
Qed.

Lemma disable_selected_walls_fails_fast_witness :
  (disable_selected_walls [1; 7; 2] Fixture.box_sides).2 = Some out_of_range /\
  (disable_selected_walls [1; 3] Fixture.box_sides).2 = None /\
  wall.enabled <$> (disable_selected_walls [1; 3] Fixture.box_sides).1 !! 3
    = Some false.
Proof.
  split.
  - apply (disable_selected_walls_fails_fast [1; 7; 2] Fixture.box_sides).
    exists 7. split; [by right; left|simpl; lia].
  - assert (forall i, i ∈ [1; 3] -> i < length Fixture.box_sides) as Hin.
    { intros i Hi. simpl.
      apply elem_of_cons in Hi as [->|Hi]; [lia|].
      apply elem_of_cons in Hi as [->|Hi]; [lia|by apply elem_of_nil in Hi]. }
    destruct (disable_selected_walls_fails_fast [1; 3] Fixture.box_sides)
      as (_ & _ & Hok & _).
    destruct (Hok Hin) as [Hnone Hflag].
    split; [done|]. apply Hflag. by right; left.
Defined.

Lemma build_BSP_convex_leaf_witness :
  exists h',
    build_BSP 1 Fixture.box_sides
      (construct_polygonspatial_model Fixture.box_sides)
      (Fixture.empty_heap, 0) [] 1 =
      Done (Some (Node [0; 1; 2] None None true), (h', 3), [0; 1; 2]) /\
    (forall k i,
       construct_polygonspatial_model Fixture.box_sides !! k = Some i ->
       rtswall_of Fixture.box_sides i = Done (h' (0 + k))) /\
    (forall p, p < 0 -> h' p = Fixture.empty_heap p).
Proof.
  destruct (build_BSP_convex_leaf 0 Fixture.box_sides
              (construct_polygonspatial_model Fixture.box_sides)
              Fixture.empty_heap 0 [] 1) as [_ Hleaf].
  destruct Hleaf as [_ Hdone]; [discriminate|reflexivity|].
  apply Hdone. repeat constructor; simpl; (discriminate || lia).
Defined.

Lemma harmonised_ids_witness :
  exists tree h1 next1 pwalls_BSP,
    build_BSP 3 Fixture.crossing3
      (construct_polygonspatial_model Fixture.crossing3)
      (Fixture.empty_heap, 0) [] 1 = Done (tree, (h1, next1), pwalls_BSP) /\
    (forall k j, pwalls_BSP !! k = Some j ->
       harmonise_identifiers (length Fixture.crossing3) pwalls_BSP h1 j =
         wall.setID (h1 j)
           (wall.parent_id (h1 j) * 1000
            + children_before h1 pwalls_BSP k (wall.parent_id (h1 j)))).
Proof.
  destruct (build_BSP 3 Fixture.crossing3
              (construct_polygonspatial_model Fixture.crossing3)
              (Fixture.empty_heap, 0) [] 1)
    as [[[tree [h1 next1]] pwalls_BSP]| |] eqn:Hrun.
  - exists tree, h1, next1, pwalls_BSP. split; [done|].
    apply (harmonised_ids _ _ _ _ _ _ _ _ _ _ Hrun).
  - vm_compute in Hrun. discriminate.
  - vm_compute in Hrun. discriminate.
Defined.

Lemma disabled_walls_excluded_witness :
  exists tree h1 next1 pwalls_BSP,
    build_BSP 3 Fixture.crossing3_and_disabled
      (construct_polygonspatial_model Fixture.crossing3_and_disabled)
      (Fixture.empty_heap, 0) [] 1 = Done (tree, (h1, next1), pwalls_BSP) /\
    forall j, j ∈ pwalls_BSP \/ j ∈ tree_walls tree ->
      exists w, w ∈ Fixture.crossing3_and_disabled /\ wall.enabled w = true /\
                wall.parent_id (h1 j) = wall.id w.
Proof.
  destruct (build_BSP 3 Fixture.crossing3_and_disabled
              (construct_polygonspatial_model Fixture.crossing3_and_disabled)
              (Fixture.empty_heap, 0) [] 1)
    as [[[tree [h1 next1]] pwalls_BSP]| |] eqn:Hrun.
  - exists tree, h1, next1, pwalls_BSP. split; [done|].
    destruct (disabled_walls_excluded Fixture.crossing3_and_disabled)
      as [_ Hlineage].
    intros j Hj.
    apply (Hlineage fixture_fragments_inherit_parent _ _ _ _ _ _ _ _ Hrun j Hj).
  - vm_compute in Hrun. discriminate.
  - vm_compute in Hrun. discriminate.
Defined.

(** The run behind the two witnesses above: seven walls are produced;
    after relabelling, the two halves of wall 1 are 1000 and 1001 and the
    four quarters of wall 2 are 2000 to 2003, in production order. *)
Example crossing3_relabelled :
  match build_BSP 3 Fixture.crossing3
          (construct_polygonspatial_model Fixture.crossing3)
          (Fixture.empty_heap, 0) [] 1 with
  | Done (_, (h1, _), pwalls_BSP) =>
      map (fun j => wall.id (harmonise_identifiers 3 pwalls_BSP h1 j))
          pwalls_BSP = [2000; 2001; 1000; 2002; 2003; 1001; 0]%Z
  | _ => False
  end.
Proof. vm_compute. reflexivity. Qed.

(** ** PlanePolygonMapper *)

Section MapperFacts.
Context `{Scalar}.

(** The round after a group was pushed finds the wall itself at the
    head of the new group, moves on, and leaves the loop. *)
Lemma place_wall_after_push (fuel : nat) (one_wall : ptr) (i : nat)
    (m : plane_polygon_map) (h : heap) (members : list ptr) :
  m !! i = Some (one_wall :: members) ->
  S i = length m ->
  2 <= fuel ->
  place_wall fuel one_wall i m h = Done (m, h).
Proof.
  intros Hi Hlen Hfuel.
  destruct fuel as [|[|fuel]]; [lia..|]. simpl.
  rewrite Hi, Z.eqb_refl.
  by rewrite (lookup_ge_None_2 m (S i)) by lia.
Qed.

(** The loop over the groups ends within [size() - i + 2] rounds, and
    it never meets an empty group if there was none to begin with. *)
Lemma place_wall_done (fuel : nat) (one_wall : ptr) (i : nat)
    (m : plane_polygon_map) (h : heap) :
  Forall (fun g => g <> []) m ->
  length m - i + 2 <= fuel ->
  exists m' h',
    place_wall fuel one_wall i m h = Done (m', h') /\
    Forall (fun g => g <> []) m'.
Proof.
  revert i m h. induction fuel as [|fuel IH]; intros i m h Hne Hfuel; [lia|].
  simpl. destruct (m !! i) as [g|] eqn:Hi; [|by eauto].
  pose proof (lookup_lt_Some _ _ _ Hi) as Hlt.
  destruct g as [|rep members].
  { rewrite Forall_forall in Hne. exfalso.
    by apply (Hne []); [eapply list_elem_of_lookup_2|]. }
  destruct (wall.id (h one_wall) =? wall.id (h rep))%Z.
  { apply IH; [done|lia]. }
  destruct (same_normal (h one_wall) (h rep)).
  { do 2 eexists. split; [done|]. by apply Forall_insert. }
  destruct (Nat.eqb_spec i (length m - 1)) as [Hlast|Hmid].
  - rewrite (place_wall_after_push _ _ _ _ _ []).
    + do 2 eexists. split; [done|].
      apply Forall_app. split; [done|]. by repeat constructor.
    + rewrite lookup_app_r by lia.
      by replace (S i - length m) with 0 by lia.
    + rewrite length_app. simpl. lia.
    + lia.
  - apply IH; [done|lia].
Qed.

Lemma scan_walls_done (walls_to_check : list ptr) (m : plane_polygon_map)
    (h : heap) :
  Forall (fun g => g <> []) m ->
  exists m' h',
    scan_walls walls_to_check m h = Done (m', h') /\
    Forall (fun g => g <> []) m'.
Proof.
  revert m h. induction walls_to_check as [|w l IH]; intros m h Hne; simpl.
  { by eauto. }
  destruct (negb (wall.enabled (h w))); [by apply IH|].
  destruct (place_wall_done (length m + 2) w 0 m h Hne) as (m1 & h1 & -> & Hne1);
    [lia|].
  simpl. by apply IH.
Qed.

Lemma sort_by_id_sorted (h : heap) (l : list ptr) :
  NoDup (map (fun p => wall.id (h p)) l) ->
  StronglySorted (fun a b => (wall.id (h a) < wall.id (h b))%Z)
    (sort_by_id h l).
Proof.
  intros Hnd.
  assert (StronglySorted
            (ranked (fun a b => (wall.id (h a) <? wall.id (h b))%Z)
                    (fun a b => wall.id (h a) <> wall.id (h b)))
            (sort_by_id h l)) as Hs.
  { apply std_sort_ranked.
    - intros a b c ?%Z.ltb_lt ?%Z.ltb_lt. apply Z.ltb_lt. lia.
    - intros a b c ?%Z.ltb_ge ?%Z.ltb_ge. apply Z.ltb_ge. lia.
    - induction l as [|a l IH]; [constructor|].
      simpl in Hnd. apply NoDup_cons in Hnd as [Ha Hnd].
      constructor; [by apply IH|].
      apply Forall_forall. intros b Hb Heq. apply Ha. rewrite Heq.
      apply list_elem_of_fmap. by exists b. }
  eapply StronglySorted_mono; [|done].
  intros a b [?%Z.ltb_lt|[?%Z.ltb_ge ?]]; lia.
Qed.

(** With pairwise distinct ids the scan order is fixed by the ids. *)
Lemma sort_by_id_perm (h : heap) (l l' : list ptr) :
  l ≡ₚ l' ->
  NoDup (map (fun p => wall.id (h p)) l) ->
  sort_by_id h l = sort_by_id h l'.
Proof.
  intros Hperm Hnd.
  apply (StronglySorted_unique_strong
           (fun a b => (wall.id (h a) < wall.id (h b))%Z)).
  - intros; lia.
  - by apply sort_by_id_sorted.
  - apply sort_by_id_sorted. by rewrite <- Hperm.
  - unfold sort_by_id. by rewrite !std_sort_perm.
Qed.

(** C10.  [create_plane_polygon_map] reads [walls_to_check[0]] before
    anything else: on the empty vector that access is out of bounds; on
    a non-empty vector it is in bounds and the whole call runs to
    completion, provided the map it appends to holds no empty group (as
    the empty map of a fresh room model, or any map a previous call
    left). *)
Theorem create_plane_polygon_map_needs_a_wall
    (walls_to_check : list ptr) (m : plane_polygon_map) (h : heap) :
  create_plane_polygon_map [] m h = Fault /\
  (walls_to_check <> [] ->
   Forall (fun g => g <> []) m ->
   exists first_wall rest m' h',
     sort_by_id h walls_to_check = first_wall :: rest /\
     create_plane_polygon_map walls_to_check m h = Done (m', h') /\
     Forall (fun g => g <> []) m').
Proof.
  split; [done|]. intros Hwalls Hne.
  unfold create_plane_polygon_map.
  destruct (sort_by_id h walls_to_check) as [|first_wall rest] eqn:Hsort.
  { apply (f_equal length) in Hsort. unfold sort_by_id in Hsort.
    rewrite std_sort_length in Hsort. by destruct walls_to_check. }
  exists first_wall, rest.
  assert (Forall (fun g => g <> []) (m ++ [[first_wall]])) as Hne1.
  { apply Forall_app. split; [done|]. by repeat constructor. }
  destruct (m ++ [[first_wall]]) as [|[|rep members] m1] eqn:Hm1.
  - by destruct m.
  - by apply Forall_cons in Hne1 as [? _].
  - destruct (scan_walls_done (first_wall :: rest) ((rep :: members) :: m1)
                (assign_group h rep 0) Hne1) as (m' & h' & Hrun & Hne').
    exists m', h'. split; [done|]. by split.
Qed.

(** C5 (as amended).  From one and the same map and store, the result
    of [create_plane_polygon_map] - groups, their order, and the group
    id of every wall - does not depend on the order in which the walls
    are handed over, as long as their ids are pairwise distinct. *)
Theorem create_plane_polygon_map_order_independent
    (walls_to_check walls_to_check' : list ptr) (m : plane_polygon_map)
    (h : heap) :
  walls_to_check ≡ₚ walls_to_check' ->
  NoDup (map (fun p => wall.id (h p)) walls_to_check) ->
  create_plane_polygon_map walls_to_check m h =
  create_plane_polygon_map walls_to_check' m h.
Proof.
  intros Hperm Hnd. unfold create_plane_polygon_map.
  by rewrite (sort_by_id_perm h _ _ Hperm Hnd).
Qed.
End MapperFacts.

(** C5, the claim as stated, fails: a second run on the map the first run
    left does not reproduce it.  The first run groups the two walls as
    [[0]; [1]]; the second appends to that map, which becomes
    [[0]; [1]; [0]; [1]], and moves wall 1 from group 1 to group 3. *)
Lemma create_plane_polygon_map_not_idempotent :
  ~ (forall m1 h1 m2 h2,
       create_plane_polygon_map [0; 1] [] Fixture.two_planes = Done (m1, h1) ->
       create_plane_polygon_map [0; 1] m1 h1 = Done (m2, h2) ->
       m2 = m1 /\
       wall.plane_polygon_map_id (h2 1) = wall.plane_polygon_map_id (h1 1)).
Proof.
  intros Hclaim.
  destruct (create_plane_polygon_map [0; 1] [] Fixture.two_planes)
    as [[m1 h1]| |] eqn:Hfirst; [|by vm_compute in Hfirst..].
  destruct (create_plane_polygon_map [0; 1] m1 h1)
    as [[m2 h2]| |] eqn:Hsecond.
  - destruct (Hclaim _ _ _ _ eq_refl Hsecond) as [Hmap _].
    vm_compute in Hfirst. injection Hfirst as <- <-.
    vm_compute in Hsecond. injection Hsecond as <- _.
    discriminate.
  - vm_compute in Hfirst. injection Hfirst as <- <-.
    vm_compute in Hsecond. discriminate.
  - vm_compute in Hfirst. injection Hfirst as <- <-.
    vm_compute in Hsecond. discriminate.
Qed.

(** C4, at the failing input: the wall with the lowest id is disabled,
    yet it seeds group 0, receives group id 0, and the enabled wall 1 is
    grouped with it. *)
Theorem create_plane_polygon_map_seeds_disabled_wall :
  exists h',
    create_plane_polygon_map [0; 1; 2] [] Fixture.first_disabled =
      Done ([[0; 1]; [2]], h') /\
    wall.enabled (h' 0) = false /\
    wall.plane_polygon_map_id (h' 0) = 0%Z.
Proof. eexists. split; [vm_compute; reflexivity|]. by vm_compute. Qed.

Lemma create_plane_polygon_map_needs_a_wall_witness :
  exists first_wall rest m' h',
    sort_by_id Fixture.first_disabled [2; 0; 1] = first_wall :: rest /\
    create_plane_polygon_map [2; 0; 1] [] Fixture.first_disabled = Done (m', h') /\
    Forall (fun g => g <> []) m'.
Proof.
  apply (create_plane_polygon_map_needs_a_wall [2; 0; 1] [] Fixture.first_disabled).
  - discriminate.
  - constructor.
Defined.

Lemma create_plane_polygon_map_order_independent_witness :
  create_plane_polygon_map [0; 1; 2] [] Fixture.first_disabled =
  create_plane_polygon_map [2; 0; 1] [] Fixture.first_disabled.
Proof.
  apply create_plane_polygon_map_order_independent.
  - symmetry. apply (Permutation_cons_append [0; 1] 2).
  - apply (bool_decide_unpack _). by vm_compute.
Defined.

(** What the mapper does get right: started on the empty map with walls
    of pairwise distinct ids, it puts the wall with the lowest id and
    every other enabled wall into exactly one group, once, and no other
    wall into any. *)
Section MapperGroups.
Context `{Scalar}.

Lemma concat_insert_app (m : plane_polygon_map) (i : nat) (g l : list ptr) :
  m !! i = Some g ->
  concat (<[i := g ++ l]> m) ≡ₚ l ++ concat m.
Proof.
  revert i. induction m as [|g0 m IH]; intros [|i] Hi; simpl in *; try done.
  - simplify_eq. rewrite (Permutation_app_comm g l). by rewrite <- app_assoc.
  - rewrite (IH _ Hi). by rewrite !app_assoc, (Permutation_app_comm g0 l).
Qed.

Lemma same_keys_assign (h : heap) (w : ptr) (g : nat) :
  same_keys h (assign_group h w g).
Proof.
  intros p. unfold assign_group. destruct (decide (w = p)) as [->|Hne].
  - by rewrite fn_lookup_insert.
  - by rewrite fn_lookup_insert_ne.
Qed.

Lemma place_wall_joins (fuel : nat) (one_wall : ptr) (i : nat)
    (m : plane_polygon_map) (h : heap) :
  Forall (fun g => g <> []) m ->
  (forall p, p ∈ concat m -> wall.id (h p) <> wall.id (h one_wall)) ->
  i < length m ->
  length m - i + 2 <= fuel ->
  exists m' h',
    place_wall fuel one_wall i m h = Done (m', h') /\
    concat m' ≡ₚ one_wall :: concat m /\
    Forall (fun g => g <> []) m' /\
    same_keys h h'.
Proof.
  revert i. induction fuel as [|fuel IH]; intros i Hne Hids Hi Hfuel; [lia|].
  simpl. destruct (lookup_lt_is_Some_2 m i Hi) as [g Hg]. rewrite Hg.
  assert (g ∈ m) as Hgm by (by eapply list_elem_of_lookup_2).
  destruct g as [|rep members].
  { rewrite Forall_forall in Hne. by destruct (Hne [] Hgm). }
  assert (rep ∈ concat m) as Hrep.
  { apply list_elem_of_In, in_concat. exists (rep :: members).
    split; [by apply list_elem_of_In|by left]. }
  destruct (Z.eqb_spec (wall.id (h one_wall)) (wall.id (h rep))) as [Heq|_].
  { by destruct (Hids rep Hrep). }
  destruct (same_normal (h one_wall) (h rep)).
  { do 2 eexists. split; [done|]. split; [|split].
    - by rewrite (concat_insert_app m i (rep :: members) [one_wall] Hg).
    - by apply Forall_insert.
    - apply same_keys_assign. }
  destruct (Nat.eqb_spec i (length m - 1)) as [Hlast|Hmid].
  - rewrite (place_wall_after_push _ _ _ _ _ []).
    + do 2 eexists. split; [done|]. split; [|split].
      * rewrite concat_app. simpl. by rewrite Permutation_app_comm.
      * apply Forall_app. split; [done|]. by repeat constructor.
      * apply same_keys_assign.
    + rewrite lookup_app_r by lia.
      by replace (S i - length m) with 0 by lia.
    + rewrite length_app. simpl. lia.
    + lia.
  - apply IH; [done|done|lia|lia].
Qed.

Lemma scan_walls_groups (walls_to_check : list ptr) (m : plane_polygon_map)
    (h : heap) :
  Forall (fun g => g <> []) m ->
  m <> [] ->
  NoDup (map (fun p => wall.id (h p)) (concat m ++ walls_to_check)) ->
  exists m' h',
    scan_walls walls_to_check m h = Done (m', h') /\
    concat m' ≡ₚ
      concat m ++ filter (fun p => wall.enabled (h p) = true) walls_to_check /\
    Forall (fun g => g <> []) m'.
Proof.
  revert m h. induction walls_to_check as [|w l IH]; intros m h Hne Hm Hnd.
  { exists m, h. split; [done|]. split; [|done].
    by rewrite filter_nil, app_nil_r. }
  simpl.
  assert (NoDup (map (fun p => wall.id (h p)) (concat m ++ l))) as Hnd'.
  { revert Hnd. rewrite !map_app. simpl. rewrite !NoDup_app.
    intros (? & Hdisj & [_ ?]%NoDup_cons). split; [done|]. split; [|done].
    intros x Hx Hxl. apply (Hdisj x Hx). by right. }
  destruct (wall.enabled (h w)) eqn:Hen; simpl.
  - destruct (place_wall_joins (length m + 2) w 0 m h Hne)
      as (m1 & h1 & -> & Hperm & Hne1 & Hkeys).
    + intros p Hp Heq. revert Hnd. rewrite map_app. simpl.
      rewrite NoDup_app. intros (_ & Hdisj & _).
      apply (Hdisj (wall.id (h p))).
      * apply list_elem_of_fmap. by exists p.
      * rewrite Heq. by left.
    + destruct m; [done|]. simpl. lia.
    + lia.
    + simpl.
      destruct (IH m1 h1 Hne1) as (m' & h' & Hrun & Hperm' & Hne').
      * intros ->. by apply Permutation_nil_cons in Hperm.
      * rewrite (map_ext (fun p => wall.id (h1 p)) (fun p => wall.id (h p)))
          by (intros p; apply Hkeys).
        rewrite Hperm. simpl. revert Hnd. rewrite !map_app. simpl.
        by rewrite <- Permutation_middle.
      * exists m', h'. split; [done|]. split; [|done].
        assert (filter (fun p => wall.enabled (h1 p) = true) l =
                filter (fun p => wall.enabled (h p) = true) l) as Hfilter.
        { apply list_filter_iff. intros p. by destruct (Hkeys p) as [_ ->]. }
        rewrite Hperm', Hperm, Hfilter, filter_cons_True by done. simpl.
        by rewrite <- Permutation_middle.
  - rewrite filter_cons_False by (by rewrite Hen). by apply IH.
Qed.

Lemma create_plane_polygon_map_groups (walls_to_check : list ptr) (h : heap) :
  walls_to_check <> [] ->
  NoDup (map (fun p => wall.id (h p)) walls_to_check) ->
  exists first_wall rest m' h',
    sort_by_id h walls_to_check = first_wall :: rest /\
    create_plane_polygon_map walls_to_check [] h = Done (m', h') /\
    concat m' ≡ₚ
      first_wall :: filter (fun p => wall.enabled (h p) = true) rest /\
    Forall (fun g => g <> []) m'.
Proof.
  intros Hwalls Hnd. unfold create_plane_polygon_map.
  assert (sort_by_id h walls_to_check ≡ₚ walls_to_check) as Hperm.
  { apply std_sort_perm. }
  destruct (sort_by_id h walls_to_check) as [|first_wall rest] eqn:Hsort.
  { apply Permutation_nil in Hperm. done. }
  exists first_wall, rest. cbv zeta. rewrite app_nil_l. cbv beta iota.
  set (h0 := assign_group h first_wall 0).
  pose proof (same_keys_assign h first_wall 0) as Hkeys. fold h0 in Hkeys.
  assert (NoDup (map (fun p => wall.id (h0 p)) (first_wall :: rest))) as Hnd0.
  { rewrite (map_ext (fun p => wall.id (h0 p)) (fun p => wall.id (h p)))
      by (intros p; apply Hkeys).
    by rewrite Hperm. }
  assert (scan_walls (first_wall :: rest) [[first_wall]] h0 =
          scan_walls rest [[first_wall]] h0) as ->.
  { simpl. destruct (wall.enabled (h0 first_wall)); simpl; [|done].
    by rewrite Z.eqb_refl. }
  destruct (scan_walls_groups rest [[first_wall]] h0)
    as (m' & h' & Hrun & Hgroups & Hne').
  - by repeat constructor.
  - done.
  - done.
  - exists m', h'. split; [done|]. split; [done|]. split; [|done].
    rewrite Hgroups. simpl. f_equiv.
    assert (filter (fun p => wall.enabled (h0 p) = true) rest =
            filter (fun p => wall.enabled (h p) = true) rest) as ->; [|done].
    apply list_filter_iff. intros p. by destruct (Hkeys p) as [_ ->].
Qed.
End MapperGroups.

(** ** Splitting-plane selection *)

Lemma Qltb_lt (x y : Q) : Qltb x y = true <-> (x < y)%Q.
Proof.
  unfold Qltb. rewrite negb_true_iff, <- not_true_iff_false, Qle_bool_iff.
  split; [apply Qnot_le_lt|apply Qlt_not_le].
Qed.

Lemma Qltb_ge (x y : Q) : Qltb x y = false <-> (y <= x)%Q.
Proof. unfold Qltb. by rewrite negb_false_iff, Qle_bool_iff. Qed.

Lemma cross_ltb_trans (a b c : rp_row) :
  Nat.ltb (rp_cross a) (rp_cross b) = true ->
  Nat.ltb (rp_cross b) (rp_cross c) = true ->
  Nat.ltb (rp_cross a) (rp_cross c) = true.
Proof. rewrite !Nat.ltb_lt. lia. Qed.

Lemma cross_ltb_negtrans (a b c : rp_row) :
  Nat.ltb (rp_cross a) (rp_cross b) = false ->
  Nat.ltb (rp_cross b) (rp_cross c) = false ->
  Nat.ltb (rp_cross a) (rp_cross c) = false.
Proof. rewrite !Nat.ltb_ge. lia. Qed.

Lemma score_ltb_trans (a b c : rp_row) :
  Qltb (rp_score a) (rp_score b) = true ->
  Qltb (rp_score b) (rp_score c) = true ->
  Qltb (rp_score a) (rp_score c) = true.
Proof. rewrite !Qltb_lt. apply Qlt_trans. Qed.

Lemma score_ltb_negtrans (a b c : rp_row) :
  Qltb (rp_score a) (rp_score b) = false ->
  Qltb (rp_score b) (rp_score c) = false ->
  Qltb (rp_score a) (rp_score c) = false.
Proof. rewrite !Qltb_ge. intros ? ?. by eapply Qle_trans. Qed.

Lemma cross_ltb_order :
  strict_weak_order (fun x y : rp_row => Nat.ltb (rp_cross x) (rp_cross y)).
Proof.
  split; [|split].
  - intros a. apply Nat.ltb_irrefl.
  - apply cross_ltb_trans.
  - apply cross_ltb_negtrans.
Qed.

Lemma score_ltb_order :
  strict_weak_order (fun x y : rp_row => Qltb (rp_score x) (rp_score y)).
Proof.
  split; [|split].
  - intros a. apply Qltb_ge. apply Qle_refl.
  - apply score_ltb_trans.
  - apply score_ltb_negtrans.
Qed.

Section SelectionFacts.
Context `{Platform}.

Lemma elem_of_sort_r_p (lt : rp_row -> rp_row -> bool) (l : list rp_row)
    (r : rp_row) :
  r ∈ sort_r_p lt l <-> r ∈ l.
Proof. by rewrite sort_r_p_perm. Qed.

(** The selection on a non-empty table [r_p]: the row it picks, and how
    that row compares with every other.  Which of several rows that tie
    is picked is up to the sort. *)
Lemma select_wall_id_spec (r_p : list rp_row) (threshold : Q) :
  r_p <> [] ->
  exists row,
    select_wall_id r_p threshold = Some (rp_id row) /\ row ∈ r_p /\
    ((Qle_bool threshold (rp_score row) = true /\
      forall r, r ∈ r_p -> Qle_bool threshold (rp_score r) = true ->
        rp_cross row <= rp_cross r)
     \/
     ((forall r, r ∈ r_p -> Qle_bool threshold (rp_score r) = false) /\
      forall r, r ∈ r_p ->
        (deviation threshold row <= deviation threshold r)%Q)).
Proof.
  intros Hne. unfold select_wall_id.
  set (r_p1 := sort_r_p (fun x y => Nat.ltb (rp_cross x) (rp_cross y)) r_p).
  assert (StronglySorted (fun x y => rp_cross x <= rp_cross y) r_p1) as Hs1.
  { eapply StronglySorted_mono; [|apply sort_r_p_sorted, cross_ltb_order].
    intros x y Hxy. by apply Nat.ltb_ge in Hxy. }
  assert (forall r, r ∈ r_p1 <-> r ∈ r_p) as Hmem1.
  { intros r. apply elem_of_sort_r_p. }
  destruct (find _ r_p1) as [x|] eqn:Hfind.
  - apply (find_sorted _ _ _ _ Hs1) in Hfind as (Hq & Hx & Hmin).
    exists x. split; [done|]. split; [by apply Hmem1|]. left.
    split; [done|]. intros r Hr Hqr.
    destruct (Hmin r) as [->|Hle]; [by apply Hmem1|done|lia|done].
  - pose proof (find_none_all _ _ Hfind) as Hnone.
    set (r_p2 := map (deviation_row threshold) r_p1).
    set (r_p3 := sort_r_p (fun x y => Qltb (rp_score x) (rp_score y)) r_p2).
    assert (StronglySorted (fun x y => (rp_score x <= rp_score y)%Q) r_p3)
      as Hs3.
    { eapply StronglySorted_mono; [|apply sort_r_p_sorted, score_ltb_order].
      intros x y Hxy. by apply Qltb_ge in Hxy. }
    assert (forall y, y ∈ r_p3 <->
              exists r, y = deviation_row threshold r /\ r ∈ r_p) as Hmem3.
    { intros y. unfold r_p3. rewrite elem_of_sort_r_p. unfold r_p2.
      rewrite list_elem_of_fmap. by setoid_rewrite Hmem1. }
    destruct r_p3 as [|x3 rest3] eqn:Hr3.
    { destruct r_p as [|r0 r_p']; [done|].
      assert (deviation_row threshold r0 ∈ @nil rp_row) as Hin.
      { apply Hmem3. exists r0. split; [done|by left]. }
      by apply elem_of_nil in Hin. }
    destruct (proj1 (Hmem3 x3) ltac:(by left)) as (row & -> & Hrow).
    exists row. split; [done|]. split; [done|]. right.
    split; [intros r Hr; by apply Hnone, Hmem1|].
    intros r Hr.
    assert (deviation_row threshold r ∈ deviation_row threshold row :: rest3)
      as Hin by (apply Hmem3; eauto).
    apply StronglySorted_cons in Hs3 as [Hhead _].
    apply elem_of_cons in Hin as [Heq|Hin].
    { apply (f_equal rp_score) in Heq. simpl in Heq.
      unfold rp_score in Heq. simpl in Heq. rewrite Heq. apply Qle_refl. }
    rewrite Forall_forall in Hhead. exact (Hhead _ Hin).
Qed.
End SelectionFacts.

Lemma lookup_map {A B} (f : A -> B) (l : list A) (i : nat) :
  map f l !! i = f <$> l !! i.
Proof. exact (list_lookup_fmap f l i). Qed.

Section SelectionClaims.
Context `{Splitter} `{Platform}.

Lemma count_polygon_id (i j : PolygonSpatial) (row : measure) :
  (count_polygon i j row).1.1.1 = row.1.1.1.
Proof.
  destruct row as [[[tid nb] nf] nc]. unfold count_polygon.
  by destruct (some_vertex BELOW (plane i) j),
              (some_vertex ABOVE (plane i) j).
Qed.

Lemma measure_row_id (polygons : list PolygonSpatial) (temp_id : nat)
    (i : PolygonSpatial) :
  (measure_row polygons temp_id i).1.1.1 = temp_id.
Proof.
  unfold measure_row.
  assert (forall l row,
    (fold_left (fun row '(b, j) =>
                  if Nat.eqb temp_id b then row else count_polygon i j row)
       l row).1.1.1 = row.1.1.1) as Hfold.
  { induction l as [|[b j] l IH]; intros row; simpl; [done|].
    rewrite IH. destruct (Nat.eqb temp_id b); [done|].
    apply count_polygon_id. }
  by rewrite Hfold.
Qed.

Lemma r_p_table_lookup (polygons : list PolygonSpatial) (i : nat) (r : rp_row) :
  r_p_table (measures polygons) !! i = Some r ->
  rp_id r = i /\ i < length polygons.
Proof.
  unfold r_p_table, measures, indexed.
  rewrite !lookup_map, list_lookup_imap.
  destruct (polygons !! i) as [p|] eqn:Hp; [|done]. simpl.
  intros [= <-]. split; [|by eapply lookup_lt_Some].
  pose proof (measure_row_id polygons i p) as Hid.
  by destruct (measure_row polygons i p) as [[[tid nb] nf] nc].
Qed.

Lemma r_p_table_length (polygons : list PolygonSpatial) :
  length (r_p_table (measures polygons)) = length polygons.
Proof.
  unfold r_p_table, measures, indexed.
  by rewrite !length_map, length_imap.
Qed.

(** C1 (as amended).  For a non-empty polygon list the selection
    returns a candidate [w].  Either [w] reaches the threshold, and no
    candidate that reaches it has fewer crossings.  Or no candidate
    reaches the threshold, and no candidate lies nearer to it than [w],
    the distance taken as the code computes it.  Which of several
    candidates that tie is returned is left to [std::sort]. *)
Theorem select_splitter_rule (polygons : list PolygonSpatial) (threshold : Q) :
  polygons <> [] ->
  exists w row,
    select_splitter polygons threshold = Some w /\
    r_p_table (measures polygons) !! w = Some row /\
    w < length polygons /\
    (((threshold <= rp_score row)%Q /\
      forall c r, r_p_table (measures polygons) !! c = Some r ->
        (threshold <= rp_score r)%Q ->
        rp_cross row <= rp_cross r)
     \/
     ((forall c r, r_p_table (measures polygons) !! c = Some r ->
         (rp_score r < threshold)%Q) /\
      forall c r, r_p_table (measures polygons) !! c = Some r ->
        (deviation threshold row <= deviation threshold r)%Q)).
Proof.
  intros Hne. unfold select_splitter.
  set (r_p := r_p_table (measures polygons)).
  assert (forall i r, r_p !! i = Some r -> rp_id r = i) as Hid.
  { intros i r Hi. by apply r_p_table_lookup in Hi as [? _]. }
  assert (r_p <> []) as Hrows.
  { intros Hnil. apply (f_equal length) in Hnil. unfold r_p in Hnil.
    rewrite r_p_table_length in Hnil. by destruct polygons. }
  destruct (select_wall_id_spec r_p threshold Hrows)
    as (row & Hsel & [w Hw]%list_elem_of_lookup_1 & Hrule).
  pose proof (Hid _ _ Hw) as Hidw. rewrite Hidw in Hsel.
  exists w, row. split; [done|]. split; [done|].
  split; [by apply r_p_table_lookup in Hw as [_ ?]|].
  destruct Hrule as [[Hq Hmin]|[Hnone Hmin]]; [left|right].
  - split; [by apply Qle_bool_iff|].
    intros c r Hc Hqr. apply Hmin.
    + by eapply list_elem_of_lookup_2.
    + by apply Qle_bool_iff.
  - split.
    + intros c r Hc. apply Qnot_le_lt. rewrite <- Qle_bool_iff.
      rewrite Hnone; [done|]. by eapply list_elem_of_lookup_2.
    + intros c r Hc. apply Hmin. by eapply list_elem_of_lookup_2.
Qed.
End SelectionClaims.

(** C1, the claim as stated, fails in the fallback.  For the floor and
    the fin no candidate reaches the threshold 1 and both lie equally
    far from it (balance 0).  The table is sorted by crossings when it
    is sorted again by distance, so with a sort that keeps rows that
    tie in their order (the insertion sort of the library on a range
    this short) the fin, second in the input but without a crossing
    against the floor's one, is chosen. *)
Lemma fallback_tie_not_by_input_order :
  ~ (forall w c row r,
       subspace_convex (construct_polygonspatial_model Fixture.floor_and_fin)
         = false ->
       select_splitter (construct_polygonspatial_model Fixture.floor_and_fin) 1
         = Some w ->
       r_p_table (measures (construct_polygonspatial_model Fixture.floor_and_fin))
         !! w = Some row ->
       r_p_table (measures (construct_polygonspatial_model Fixture.floor_and_fin))
         !! c = Some r ->
       (rp_score r < 1)%Q ->
       deviation 1 r == deviation 1 row ->
       w <= c).
Proof.
  intros Hclaim.
  specialize (Hclaim 1 0 (1, 0%Q, 0) (0, 0%Q, 1)
                eq_refl eq_refl eq_refl eq_refl).
  assert (1 <= 0) as Habs by (by apply Hclaim). lia.
Qed.

Lemma select_splitter_rule_witness :
  exists w row,
    select_splitter (construct_polygonspatial_model Fixture.crossing3) 1
      = Some w /\
    r_p_table (measures (construct_polygonspatial_model Fixture.crossing3))
      !! w = Some row /\
    w < length (construct_polygonspatial_model Fixture.crossing3) /\
    (((1 <= rp_score row)%Q /\
      forall c r,
        r_p_table (measures (construct_polygonspatial_model Fixture.crossing3))
          !! c = Some r ->
        (1 <= rp_score r)%Q ->
        rp_cross row <= rp_cross r)
     \/
     ((forall c r,
         r_p_table (measures (construct_polygonspatial_model Fixture.crossing3))
           !! c = Some r ->
         (rp_score r < 1)%Q) /\
      forall c r,
        r_p_table (measures (construct_polygonspatial_model Fixture.crossing3))
          !! c = Some r ->
        (deviation 1 row <= deviation 1 r)%Q)).
Proof.
  apply (select_splitter_rule
           (construct_polygonspatial_model Fixture.crossing3) 1).
  discriminate.
Defined.

(** The golden fixture: three squares that cut one another, threshold 1.
    No candidate reaches the threshold, all are equally far from it with
    two crossings each.  On a platform whose sort keeps rows that tie
    in their order the first one is taken; with the integer kernel the
    tree then has the first square at the root and the halves of the
    second square over the quarters of the third on either side. *)
Example crossing3_golden :
  measures (construct_polygonspatial_model Fixture.crossing3)
    = [(0, 0, 0, 2); (1, 0, 0, 2); (2, 0, 0, 2)] /\
  select_splitter (construct_polygonspatial_model Fixture.crossing3) 1 = Some 0 /\
  match build_BSP 3 Fixture.crossing3
          (construct_polygonspatial_model Fixture.crossing3)
          (Fixture.empty_heap, 0) [] 1 with
  | Done (tree, _, pwalls_BSP) =>
      tree = Some (Node [0]
               (Some (Node [1] (Some (Node [2] None None true))
                               (Some (Node [3] None None true)) false))
               (Some (Node [4] (Some (Node [5] None None true))
                               (Some (Node [6] None None true)) false))
               false) /\
      pwalls_BSP = [2; 3; 1; 5; 6; 4; 0] /\
      traverseTree tree = 3%Z
  | _ => False
  end.
Proof. vm_compute. repeat split; reflexivity. Qed.

(** All three candidates of the golden fixture tie, so which of them is
    returned is the sort's choice: a sort that leaves rows that tie in
    another order returns another candidate, as good as the first. *)
Example crossing3_tie_left_to_sort :
  select_splitter (construct_polygonspatial_model Fixture.crossing3) 1
    = Some 0 /\
  @select_splitter _ _ Fixture.ties_rotated
    (construct_polygonspatial_model Fixture.crossing3) 1 = Some 2.
Proof. split; vm_compute; reflexivity. Qed.

(** ** More about the construction *)

Section BuilderRule.
Context `{Splitter} `{Platform}.

(** Reasoning along a finished run of [build_BSP]: the three ways a call
    returns. *)
Lemma build_BSP_rule
    (Φ : list PolygonSpatial -> store -> list ptr ->
         option BSPNode * store * list ptr -> Prop)
    (walls : list wall) (threshold : Q) :
  (forall st nw, Φ [] st nw (None, st, nw)) ->
  (forall polygons st nw ws st1,
     polygons <> [] -> subspace_convex polygons = true ->
     construct_rtswall_model walls polygons st = Done (ws, st1) ->
     Φ polygons st nw (Some (Node ws None None true), st1, nw ++ ws)) ->
  (forall polygons st nw wall_id partition_wall ws st1 f st2 nw2 k st3 nw3,
     polygons <> [] -> subspace_convex polygons = false ->
     select_splitter polygons threshold = Some wall_id ->
     polygons !! wall_id = Some partition_wall ->
     construct_rtswall_model walls
       (partition_wall :: on (split_others polygons wall_id partition_wall)) st
       = Done (ws, st1) ->
     Φ (above (split_others polygons wall_id partition_wall)) st1 nw
       (f, st2, nw2) ->
     Φ (below (split_others polygons wall_id partition_wall)) st2 nw2
       (k, st3, nw3) ->
     Φ polygons st nw (Some (Node ws f k false), st3, nw3 ++ ws)) ->
  forall fuel polygons st nw r,
    build_BSP fuel walls polygons st nw threshold = Done r ->
    Φ polygons st nw r.
Proof.
  intros Hempty Hleaf Hnode.
  induction fuel as [|fuel IH]; intros polygons st nw r Hrun; [done|].
  rewrite build_BSP_unfold in Hrun.
  destruct polygons as [|q0 qs] eqn:Hpolys; [by simplify_eq|].
  assert (polygons <> []) as Hne by (by rewrite Hpolys).
  rewrite <- Hpolys in *. clear Hpolys q0 qs.
  destruct (subspace_convex polygons) eqn:Hconvex.
  - run_step Hrun Hc : (construct_rtswall_model walls polygons st)
      as [[ws st1]| |].
    simplify_eq. by apply Hleaf.
  - destruct (select_splitter polygons threshold) as [wall_id|] eqn:Hsel;
      [|done].
    destruct (polygons !! wall_id) as [partition_wall|] eqn:Hpw; [|done].
    cbv zeta in Hrun.
    run_step Hrun Hc : (construct_rtswall_model walls
        (partition_wall :: on (split_others polygons wall_id partition_wall)) st)
      as [[ws st1]| |].
    run_step Hrun Hf : (build_BSP fuel walls
        (above (split_others polygons wall_id partition_wall)) st1 nw threshold)
      as [[[f st2] nw2]| |].
    run_step Hrun Hk : (build_BSP fuel walls
        (below (split_others polygons wall_id partition_wall)) st2 nw2 threshold)
      as [[[k st3] nw3]| |].
    simplify_eq. eapply Hnode; eauto.
Qed.

Lemma construct_rtswall_model_nonempty (walls : list wall)
    (polygons : list PolygonSpatial) (st : store) ws st1 :
  polygons <> [] ->
  construct_rtswall_model walls polygons st = Done (ws, st1) ->
  ws <> [].
Proof.
  destruct st as [h next], st1 as [h1 next1].
  intros Hne (-> & _)%construct_rtswall_model_spec.
  by destruct polygons.
Qed.

Lemma tree_nodes_node (ws : list ptr) (f k : option BSPNode) (l : bool) :
  tree_nodes (Some (Node ws f k l)) =
    Node ws f k l :: tree_nodes f ++ tree_nodes k.
Proof. done. Qed.

Lemma traverseTree_node (ws : list ptr) (f k : option BSPNode) (l : bool) :
  traverseTree (Some (Node ws f k l)) =
    (Z.max (traverseTree f) (traverseTree k) + 1)%Z.
Proof.
  unfold traverseTree at 1. simpl. fold (traverseTree f) (traverseTree k).
  destruct (Z.leb_spec (traverseTree k) (traverseTree f)); lia.
Qed.

(** X1.  The walls a tree refers to are exactly the walls its
    construction pushed onto the accumulator: every one of them sits in
    one node and once in the list, behind the entries the list already
    had; they are the freshly allocated addresses, and no wall that
    existed before is written. *)
Theorem build_BSP_tree_and_accumulator (fuel : nat) (walls : list wall)
    (polygons : list PolygonSpatial) (h : heap) (next : ptr)
    (new_walls : list ptr) (threshold : Q) tree h1 next1 new_walls1 :
  build_BSP fuel walls polygons (h, next) new_walls threshold =
    Done (tree, (h1, next1), new_walls1) ->
  exists added,
    new_walls1 = new_walls ++ added /\
    added ≡ₚ tree_walls tree /\
    NoDup added /\
    (forall p, p ∈ added <-> next <= p < next1) /\
    (forall p, ~ (next <= p < next1) -> h1 p = h p).
Proof.
  intros Hrun.
  pose proof (build_BSP_built_ok (fun _ => True)) as Hok.
  specialize (Hok ltac:(intros p pl b _ _; repeat split; by apply Forall_forall)).
  apply Hok in Hrun as Hbuilt; [|by apply Forall_forall].
  destruct Hbuilt as (_ & Hframe & (added & -> & Hnd & Hrange) & _ & _).
  exists added. split; [done|]. split; [|done].
  clear Hok Hframe Hnd Hrange.
  revert Hrun. generalize (h, next) as st. generalize (h1, next1) as st'.
  intros st' st Hrun.
  assert (exists added', new_walls ++ added = new_walls ++ added' /\
                         added' ≡ₚ tree_walls tree) as (added' & Heq & Hperm).
  { apply (build_BSP_rule
             (fun _ _ nw r => exists added', r.2 = nw ++ added' /\
                                added' ≡ₚ tree_walls r.1.1)
             walls threshold) in Hrun; [done|..].
    - intros st0 nw. exists []. by rewrite app_nil_r.
    - intros ps st0 nw ws st1 _ _ _. exists ws. simpl.
      by rewrite !app_nil_r.
    - intros ps st0 nw wall_id pw ws st1 f st2 nw2 k st3 nw3 _ _ _ _ _
        (a2 & Hnw2 & Hp2) (a3 & Hnw3 & Hp3). cbn [fst snd] in *. subst nw2 nw3.
      exists (a2 ++ a3 ++ ws). split; [by rewrite <- !app_assoc|].
      rewrite tree_walls_node, Hp2, Hp3.
      rewrite (Permutation_app_comm ws). by rewrite <- app_assoc. }
  apply app_inv_head in Heq. by subst.
Qed.

(** X2.  Shape of the trees [build_BSP] returns: the result is empty
    exactly for the empty input; every node holds at least one wall; a
    node flagged as leaf has neither a front nor a back child. *)
Theorem build_BSP_node_shape (fuel : nat) (walls : list wall)
    (polygons : list PolygonSpatial) (st : store) (new_walls : list ptr)
    (threshold : Q) tree st1 new_walls1 :
  build_BSP fuel walls polygons st new_walls threshold =
    Done (tree, st1, new_walls1) ->
  (tree = None <-> polygons = []) /\
  forall x, x ∈ tree_nodes tree ->
    node_walls x <> [] /\
    (leaf_node x = true -> front x = None /\ back x = None).
Proof.
  intros Hrun.
  apply (build_BSP_rule
           (fun ps _ _ r =>
              (r.1.1 = None <-> ps = []) /\
              forall x, x ∈ tree_nodes r.1.1 ->
                node_walls x <> [] /\
                (leaf_node x = true -> front x = None /\ back x = None))
           walls threshold) in Hrun; [done|..].
  - intros st0 nw. split; [done|]. by intros x ?%elem_of_nil.
  - intros ps st0 nw ws st2 Hne _ Hc. simpl. split; [done|].
    intros x [->|Hx]%elem_of_cons; [|by apply elem_of_nil in Hx].
    simpl. split; [|done]. by eapply construct_rtswall_model_nonempty.
  - intros ps st0 nw wall_id pw ws st2 f st3 nw2 k st4 nw3 Hne _ _ _ Hc
      [_ Hf] [_ Hk]. cbn [fst] in Hf, Hk. split; [done|].
    cbn [fst]. rewrite tree_nodes_node.
    intros x [->|[Hx|Hx]%elem_of_app]%elem_of_cons; [|by apply Hf|by apply Hk].
    simpl. split; [|done].
    eapply construct_rtswall_model_nonempty; [|exact Hc]. done.
Qed.

(** X3.  The height [traverseTree] reports for a tree [build_BSP]
    returned is 0 exactly for the empty input and never more than the
    number of walls the tree holds. *)
Theorem traverseTree_bounds (fuel : nat) (walls : list wall)
    (polygons : list PolygonSpatial) (st : store) (new_walls : list ptr)
    (threshold : Q) tree st1 new_walls1 :
  build_BSP fuel walls polygons st new_walls threshold =
    Done (tree, st1, new_walls1) ->
  (traverseTree tree = 0%Z <-> polygons = []) /\
  (0 <= traverseTree tree <= Z.of_nat (length (tree_walls tree)))%Z.
Proof.
  intros Hrun.
  apply (build_BSP_rule
             (fun ps _ _ r =>
                (traverseTree r.1.1 = 0%Z <-> ps = []) /\
                (0 <= traverseTree r.1.1
                 <= Z.of_nat (length (tree_walls r.1.1)))%Z)
             walls threshold) in Hrun; [done|..].
    - intros st0 nw. simpl. split; [done|lia].
    - intros ps st0 nw ws st2 Hne _ Hc. cbn [fst].
      rewrite traverseTree_node, tree_walls_node. simpl.
      apply (construct_rtswall_model_nonempty _ _ _ _ _ Hne) in Hc.
      split; [split; [lia|done]|]. rewrite length_app.
      destruct ws; [done|]. simpl. lia.
    - intros ps st0 nw wall_id pw ws st2 f st3 nw2 k st4 nw3 Hne _ _ _ Hc
        [_ Hf] [_ Hk]. cbn [fst] in *.
      rewrite traverseTree_node, tree_walls_node, !length_app.
      apply construct_rtswall_model_nonempty in Hc; [|done].
      split; [split; [lia|done]|].
      destruct ws; [done|]. simpl. lia.
Qed.
End BuilderRule.

(** ** More about the splitting rule *)

Lemma inject_nat_pos (k : nat) : k <> 0 -> (0 < inject_Z (Z.of_nat k))%Q.
Proof. intros Hk. unfold Qlt. simpl. lia. Qed.

Lemma inject_nat_le (a b : nat) :
  a <= b -> (inject_Z (Z.of_nat a) <= inject_Z (Z.of_nat b))%Q.
Proof. intros Hab. rewrite <- Zle_Qle. lia. Qed.

Section BalanceFacts.
Context `{Platform}.

Lemma rnd_proper (x y : Q) : x == y -> rnd x == rnd y.
Proof.
  intros Hxy. apply Qle_antisym; apply rnd_mono; rewrite Hxy; apply Qle_refl.
Qed.

Lemma rnd_nonneg (x : Q) : (0 <= x)%Q -> (0 <= rnd x)%Q.
Proof. intros Hx. rewrite <- rnd_0. by apply rnd_mono. Qed.

Lemma rnd_nonpos (x : Q) : (x <= 0)%Q -> (rnd x <= 0)%Q.
Proof. intros Hx. rewrite <- rnd_0. by apply rnd_mono. Qed.

Lemma rnd_le_1 (x : Q) : (x <= 1)%Q -> (rnd x <= 1)%Q.
Proof. intros Hx. rewrite <- rnd_1. by apply rnd_mono. Qed.

Lemma balance_range (behind in_front : nat) :
  (0 <= balance behind in_front <= 1)%Q.
Proof.
  unfold balance.
  destruct (Nat.eqb_spec behind 0) as [_|Hb]; [done|].
  destruct (Nat.eqb_spec in_front 0) as [_|Hf]; [done|].
  pose proof (inject_nat_pos behind ltac:(done)) as Hb'.
  pose proof (inject_nat_pos in_front ltac:(done)) as Hf'.
  split.
  - apply Q.min_glb; apply rnd_nonneg; apply Qle_shift_div_l; try done;
      rewrite Qmult_0_l; by apply Qlt_le_weak.
  - destruct (Nat.le_ge_cases behind in_front) as [Hle|Hle].
    + eapply Qle_trans; [apply Q.le_min_l|]. apply rnd_le_1.
      apply Qle_shift_div_r; [done|].
      rewrite Qmult_1_l. by apply inject_nat_le.
    + eapply Qle_trans; [apply Q.le_min_r|]. apply rnd_le_1.
      apply Qle_shift_div_r; [done|].
      rewrite Qmult_1_l. by apply inject_nat_le.
Qed.

Lemma balance_pos (behind in_front : nat) :
  behind <> 0 -> in_front <> 0 -> (0 < balance behind in_front)%Q.
Proof.
  intros Hb Hf. unfold balance.
  destruct (Nat.eqb_spec behind 0); [done|].
  destruct (Nat.eqb_spec in_front 0); [done|].
  apply Q.min_glb_lt; by apply rnd_pos.
Qed.

(** X4.  The balance score lies between 0 and 1; it is 0 exactly when
    nothing lies behind or nothing lies in front (the guarded zero
    denominators), and 1 when as many polygons lie behind as in front. *)
Theorem balance_score_range (behind in_front : nat) :
  (0 <= balance behind in_front <= 1)%Q /\
  (balance behind in_front == 0 <-> behind = 0 \/ in_front = 0) /\
  (behind = in_front -> behind <> 0 -> balance behind in_front == 1).
Proof.
  split; [apply balance_range|]. split.
  - split.
    + intros Hzero.
      destruct (decide (behind = 0)) as [?|Hb]; [by left|].
      destruct (decide (in_front = 0)) as [?|Hf]; [by right|].
      pose proof (balance_pos behind in_front Hb Hf) as Hpos.
      rewrite Hzero in Hpos. by apply Qlt_irrefl in Hpos.
    + unfold balance. intros [->| ->]; [done|].
      by destruct (Nat.eqb behind 0).
  - intros <- Hb. unfold balance.
    destruct (Nat.eqb_spec behind 0); [done|].
    rewrite Q.min_id. rewrite <- rnd_1. apply rnd_proper.
    apply Qmult_inv_r.
    intros Heq. pose proof (inject_nat_pos behind ltac:(done)) as Hpos.
    rewrite Heq in Hpos. by apply Qlt_irrefl in Hpos.
Qed.

(** The computed distance to a threshold no score reaches falls as the
    score grows, or stays where the rounding takes two differences to
    one double. *)
Lemma deviation_antitone (threshold : Q) (a b : rp_row) :
  (rp_score a <= rp_score b)%Q -> (rp_score b <= threshold)%Q ->
  (deviation threshold b <= deviation threshold a)%Q.
Proof.
  intros Hab Hb. unfold deviation.
  assert (rnd (rp_score a - threshold) <= rnd (rp_score b - threshold))%Q
    as Hle.
  { apply rnd_mono. apply Qplus_le_l. done. }
  assert (rnd (rp_score b - threshold) <= 0)%Q as Hneg.
  { apply rnd_nonpos. apply (Qplus_le_l _ _ threshold).
    by ring_simplify. }
  rewrite !Qabs_neg by (done || by eapply Qle_trans).
  by apply Qopp_le_compat.
Qed.
End BalanceFacts.

Lemma forallb_false {A} (f : A -> bool) (l : list A) :
  forallb f l = false <-> exists x, x ∈ l /\ f x = false.
Proof.
  induction l as [|a l IH]; simpl.
  - split; [done|]. by intros (x & ?%elem_of_nil & _).
  - rewrite andb_false_iff, IH. split.
    + intros [Ha|(x & Hx & Hfx)]; [exists a|exists x]; split; try done;
        [by left|by right].
    + intros (x & [->|Hx]%elem_of_cons & Hfx); [by left|right; eauto].
Qed.

Section SelectionMore.
Context `{Splitter} `{Platform}.

Lemma count_polygon_sum (i j : PolygonSpatial) (row : measure) :
  (count_polygon i j row).1.1.2 + (count_polygon i j row).1.2
    + (count_polygon i j row).2
  = S (row.1.1.2 + row.1.2 + row.2).
Proof.
  destruct row as [[[tid nb] nf] nc]. unfold count_polygon.
  destruct (some_vertex BELOW (plane i) j),
           (some_vertex ABOVE (plane i) j); simpl; lia.
Qed.

Lemma measure_fold_sum (i : PolygonSpatial) (temp_id : nat)
    (l : list (nat * PolygonSpatial)) (row : measure) :
  let r := fold_left (fun row '(b, j) =>
                        if Nat.eqb temp_id b then row
                        else count_polygon i j row) l row in
  r.1.1.2 + r.1.2 + r.2
  = row.1.1.2 + row.1.2 + row.2
    + length (filter (fun bj => bj.1 <> temp_id) l).
Proof.
  revert row. induction l as [|[b j] l IH]; intros row; simpl; [lia|].
  rewrite filter_cons. simpl in IH. rewrite IH. simpl.
  destruct (Nat.eqb_spec temp_id b) as [->|Hne].
  - rewrite decide_False by (intros ?; done). lia.
  - rewrite decide_True by (intros ?; done).
    pose proof (count_polygon_sum i j row). simpl. lia.
Qed.

Lemma indexed_others {A} (l : list A) (a : nat) :
  length (filter (fun bj => bj.1 <> a) (indexed l))
    + (if decide (a < length l) then 1 else 0) = length l.
Proof.
  unfold indexed. induction l as [|x l IH] using rev_ind; [done|].
  rewrite imap_app, filter_app, !length_app. simpl.
  rewrite filter_cons, filter_nil. simpl. rewrite Nat.add_0_r.
  repeat case_decide; simpl in *; lia.
Qed.

(** X5.  The table of measures has one row per polygon, in input order;
    row [i] carries the id [i], and its three counters (behind, in
    front, crossing) add up to the number of other polygons: every
    other polygon is counted once, under exactly one heading. *)
Theorem measures_rows (polygons : list PolygonSpatial) :
  length (measures polygons) = length polygons /\
  forall i tid nb nf nc,
    measures polygons !! i = Some (tid, nb, nf, nc) ->
    tid = i /\ nb + nf + nc = length polygons - 1.
Proof.
  split.
  { unfold measures, indexed. by rewrite length_map, length_imap. }
  intros i tid nb nf nc. unfold measures, indexed.
  rewrite lookup_map, list_lookup_imap.
  destruct (polygons !! i) as [p|] eqn:Hp; [|done]. simpl.
  intros [= Hrow]. pose proof (measure_row_id polygons i p) as Hid.
  pose proof (measure_fold_sum p i (indexed polygons) (i, 0, 0, 0)) as Hsum.
  pose proof (indexed_others polygons i) as Hothers.
  cbv zeta in Hsum. fold (measure_row polygons i p) in Hsum.
  fold (indexed polygons) in Hrow.
  rewrite Hrow in Hsum, Hid. simpl in Hsum, Hid.
  apply lookup_lt_Some in Hp.
  rewrite decide_True in Hothers by lia. split; [done|lia].
Qed.

Lemma r_p_table_row (polygons : list PolygonSpatial) (i : nat) (r : rp_row) :
  r_p_table (measures polygons) !! i = Some r ->
  exists nb nf, rp_score r = balance nb nf.
Proof.
  unfold r_p_table. rewrite lookup_map.
  destruct (measures polygons !! i) as [[[[tid nb] nf] nc]|]; [|done].
  intros [= <-]. by exists nb, nf.
Qed.

Lemma select_splitter_row (polygons : list PolygonSpatial) (threshold : Q) :
  polygons <> [] ->
  exists row,
    select_splitter polygons threshold = Some (rp_id row) /\
    r_p_table (measures polygons) !! rp_id row = Some row /\
    rp_id row < length polygons /\
    ((Qle_bool threshold (rp_score row) = true /\
      forall r, r ∈ r_p_table (measures polygons) ->
        Qle_bool threshold (rp_score r) = true ->
        rp_cross row <= rp_cross r)
     \/
     ((forall r, r ∈ r_p_table (measures polygons) ->
         Qle_bool threshold (rp_score r) = false) /\
      forall r, r ∈ r_p_table (measures polygons) ->
        (deviation threshold row <= deviation threshold r)%Q)).
Proof.
  intros Hne. unfold select_splitter.
  set (r_p := r_p_table (measures polygons)).
  assert (forall i r, r_p !! i = Some r -> rp_id r = i) as Hid.
  { intros i r Hi. by apply r_p_table_lookup in Hi as [? _]. }
  assert (r_p <> []) as Hrows.
  { intros Hnil. apply (f_equal length) in Hnil. unfold r_p in Hnil.
    rewrite r_p_table_length in Hnil. by destruct polygons. }
  destruct (select_wall_id_spec r_p threshold Hrows)
    as (row & Hsel & [w Hw]%list_elem_of_lookup_1 & Hrule).
  pose proof (Hid _ _ Hw) as Hidw.
  exists row. split; [done|]. rewrite Hidw. split; [done|].
  split; [by apply r_p_table_lookup in Hw as [_ ?]|done].
Qed.

(** X6.  The selection always names a polygon of the list: for a
    non-empty list the chosen id is a valid index, so
    [polygons[wall_id]] is in bounds; for the empty list there is no
    front row to take. *)
Theorem select_splitter_in_bounds (polygons : list PolygonSpatial)
    (threshold : Q) :
  (polygons = [] -> select_splitter polygons threshold = None) /\
  (polygons <> [] ->
   exists wall_id partition_wall,
     select_splitter polygons threshold = Some wall_id /\
     polygons !! wall_id = Some partition_wall).
Proof.
  split.
  { intros ->. unfold select_splitter, select_wall_id. simpl.
    pose proof (sort_r_p_perm
      (fun x y => Nat.ltb (rp_cross x) (rp_cross y)) []) as Hp1.
    apply Permutation_nil_r in Hp1. rewrite Hp1. simpl.
    pose proof (sort_r_p_perm
      (fun x y => Qltb (rp_score x) (rp_score y)) []) as Hp2.
    apply Permutation_nil_r in Hp2. by rewrite Hp2. }
  intros Hne.
  destruct (select_splitter_row polygons threshold Hne)
    as (row & Hsel & _ & Hlt & _).
  destruct (lookup_lt_is_Some_2 polygons (rp_id row) Hlt) as [pw Hpw].
  by exists (rp_id row), pw.
Qed.

(** X7.  With a threshold of 0 or less every candidate reaches it, the
    fallback is never taken, and no candidate has fewer crossings than
    the chosen one. *)
Theorem select_splitter_threshold_zero (polygons : list PolygonSpatial)
    (threshold : Q) :
  polygons <> [] -> (threshold <= 0)%Q ->
  exists w row,
    select_splitter polygons threshold = Some w /\
    r_p_table (measures polygons) !! w = Some row /\
    forall c r, r_p_table (measures polygons) !! c = Some r ->
      (threshold <= rp_score r)%Q /\ rp_cross row <= rp_cross r.
Proof.
  intros Hne Hthr.
  destruct (select_splitter_row polygons threshold Hne)
    as (row & Hsel & Hrow & _ & Hrule).
  assert (forall c r, r_p_table (measures polygons) !! c = Some r ->
            (threshold <= rp_score r)%Q) as Hall.
  { intros c r (nb & nf & ->)%r_p_table_row.
    eapply Qle_trans; [done|]. apply balance_range. }
  exists (rp_id row), row. split; [done|]. split; [done|].
  intros c r Hc. split; [by eapply Hall|].
  destruct Hrule as [[_ Hmin]|[Hnone _]].
  - apply Hmin; [by eapply list_elem_of_lookup_2|].
    apply Qle_bool_iff. by eapply Hall.
  - pose proof (Hall _ _ Hrow) as Hq. apply Qle_bool_iff in Hq.
    rewrite Hnone in Hq; [done|]. by eapply list_elem_of_lookup_2.
Qed.

(** X8.  With a threshold above 1 no candidate reaches it, and the
    fallback takes a candidate whose distance to the threshold, as the
    code computes it, is smallest.  A candidate with a greater balance
    score than the chosen one can exist only where the rounded
    subtraction gives both the same distance. *)
Theorem select_splitter_threshold_above_one (polygons : list PolygonSpatial)
    (threshold : Q) :
  polygons <> [] -> (1 < threshold)%Q ->
  exists w row,
    select_splitter polygons threshold = Some w /\
    r_p_table (measures polygons) !! w = Some row /\
    forall c r, r_p_table (measures polygons) !! c = Some r ->
      (rp_score r < threshold)%Q /\
      (deviation threshold row <= deviation threshold r)%Q /\
      ((rp_score row < rp_score r)%Q ->
       deviation threshold r == deviation threshold row).
Proof.
  intros Hne Hthr.
  destruct (select_splitter_row polygons threshold Hne)
    as (row & Hsel & Hrow & _ & Hrule).
  assert (forall c r, r_p_table (measures polygons) !! c = Some r ->
            (rp_score r < threshold)%Q) as Hbelow.
  { intros c r (nb & nf & ->)%r_p_table_row.
    eapply Qle_lt_trans; [apply balance_range|done]. }
  exists (rp_id row), row. split; [done|]. split; [done|].
  intros c r Hc. split; [by eapply Hbelow|].
  destruct Hrule as [[Hq _]|[_ Hmin]].
  { apply Qle_bool_iff in Hq. specialize (Hbelow _ _ Hrow).
    exfalso. by apply (Qlt_not_le _ _ Hbelow). }
  assert (deviation threshold row <= deviation threshold r)%Q as Hle.
  { apply Hmin. by eapply list_elem_of_lookup_2. }
  split; [done|]. intros Hgreater.
  apply Qle_antisym; [|done].
  apply deviation_antitone; [by apply Qlt_le_weak|].
  apply Qlt_le_weak. by eapply Hbelow.
Qed.

(** The convexity test fails exactly when some polygon of the list
    has a vertex below the plane of another one; vertices above or on a
    plane never count against convexity, and a list of fewer than two
    polygons always passes. *)
Theorem subspace_convex_false_iff (polygons : list PolygonSpatial) :
  (subspace_convex polygons = false <->
   exists a b i j,
     a <> b /\ polygons !! a = Some i /\ polygons !! b = Some j /\
     exists pt, pt ∈ points j /\ whichSide (plane i) pt = BELOW) /\
  (length polygons < 2 -> subspace_convex polygons = true).
Proof.
  assert (subspace_convex polygons = false <->
   exists a b i j,
     a <> b /\ polygons !! a = Some i /\ polygons !! b = Some j /\
     exists pt, pt ∈ points j /\ whichSide (plane i) pt = BELOW) as Hiff.
  { unfold subspace_convex. rewrite forallb_false. split.
    - intros ([a i] & Hai%elem_of_indexed & Hrow).
      apply forallb_false in Hrow as ([b j] & Hbj%elem_of_indexed & Hpair).
      apply orb_false_iff in Hpair as [Hab%Nat.eqb_neq Hbelow].
      apply negb_false_iff in Hbelow.
      apply existsb_exists in Hbelow as (pt & Hpt%list_elem_of_In & Hside).
      exists a, b, i, j. repeat split; try done.
      exists pt. split; [done|]. by destruct (whichSide (plane i) pt).
    - intros (a & b & i & j & Hab & Ha & Hb & pt & Hpt & Hside).
      exists (a, i). split; [by apply elem_of_indexed|].
      apply forallb_false. exists (b, j). split; [by apply elem_of_indexed|].
      apply orb_false_iff. split; [by apply Nat.eqb_neq|].
      apply negb_false_iff, existsb_exists.
      exists pt. split; [by apply list_elem_of_In|]. by rewrite Hside. }
  split; [done|]. intros Hlen.
  apply not_false_iff_true. intros (a & b & i & j & Hab & Ha & Hb & _)%Hiff.
  apply lookup_lt_Some in Ha, Hb. lia.
Qed.
End SelectionMore.

Section BuilderSafety.
Context `{Splitter} `{Platform}.

Lemma split_others_convertible (walls : list wall)
    (polygons : list PolygonSpatial) (wall_id : nat)
    (partition_wall : PolygonSpatial) :
  fragments_stay_convertible walls ->
  Forall (convertible walls) polygons ->
  buckets_all (convertible walls)
    (split_others polygons wall_id partition_wall).
Proof.
  intros Hkernel Hall. unfold split_others.
  assert (Forall (fun ip => convertible walls ip.2) (indexed polygons)) as Hix.
  { apply Forall_forall. intros [i p] Hip%elem_of_indexed. simpl.
    rewrite Forall_forall in Hall. apply Hall.
    by eapply list_elem_of_lookup_2. }
  assert (buckets_all (convertible walls) (mkBuckets [] [] []))
    as Hacc by (by repeat split).
  revert Hix Hacc. generalize (mkBuckets [] [] []).
  induction (indexed polygons) as [|[i p] l IH]; intros acc Hix Hacc; simpl.
  { done. }
  apply Forall_cons in Hix as [Hp Hix]. apply IH; [done|].
  destruct (Nat.eqb i wall_id); [done|]. by apply Hkernel.
Qed.

(** X9.  No undefined behaviour in the construction: when every input
    polygon has a ring and a parent among [walls], and the kernel's
    fragments keep both, a call of [build_BSP] never indexes a vector
    out of bounds, however deep it recurses. *)
Theorem build_BSP_no_fault (fuel : nat) (walls : list wall)
    (polygons : list PolygonSpatial) (st : store) (new_walls : list ptr)
    (threshold : Q) :
  fragments_stay_convertible walls ->
  Forall (convertible walls) polygons ->
  build_BSP fuel walls polygons st new_walls threshold <> Fault.
Proof.
  intros Hkernel. revert polygons st new_walls.
  induction fuel as [|fuel IH]; intros polygons st nw Hall; [done|].
  rewrite build_BSP_unfold.
  destruct polygons as [|q0 qs] eqn:Hpolys; [done|].
  assert (polygons <> []) as Hne by (by rewrite Hpolys).
  rewrite <- Hpolys in *. clear Hpolys q0 qs.
  destruct (subspace_convex polygons).
  - destruct (construct_rtswall_model_done walls polygons st Hall)
      as [[ws st1] ->]. done.
  - destruct (select_splitter_row polygons threshold Hne)
      as (row & -> & _ & Hlt & _).
    destruct (lookup_lt_is_Some_2 polygons (rp_id row) Hlt) as [pw Hpw].
    rewrite Hpw. cbv zeta.
    pose proof (split_others_convertible walls polygons (rp_id row) pw
                  Hkernel Hall) as (Habove & Hon & Hbelow).
    set (b := split_others polygons (rp_id row) pw) in *.
    assert (Forall (convertible walls) (pw :: on b)) as Hon'.
    { constructor; [|done]. rewrite Forall_forall in Hall. apply Hall.
      by eapply list_elem_of_lookup_2. }
    destruct (construct_rtswall_model_done walls (pw :: on b) st Hon')
      as [[ws st1] ->]. simpl.
    pose proof (IH (above b) st1 nw Habove) as Hf.
    destruct (build_BSP fuel walls (above b) st1 nw threshold)
      as [[[f st2] nw2]| |]; simpl; [|done..].
    pose proof (IH (below b) st2 nw2 Hbelow) as Hk.
    by destruct (build_BSP fuel walls (below b) st2 nw2 threshold)
      as [[[k st3] nw3]| |].
Qed.

(** X10.  Round trip through the adapter: an input wall whose id is its
    position and whose ring is not empty, turned into a polygon and back
    into a wall, keeps its ring, plane and material; the new wall names
    it as parent, is enabled and force-loaded, and has the id
    [10000 * parent id] as an [unsigned int] holds it: reduced modulo
    2^32, which leaves it as it is for parents below 429497. *)
Theorem wall_polygon_round_trip (walls : list wall) (i : nat) (w : wall) :
  walls !! i = Some w ->
  wall.id w = Z.of_nat i ->
  wall.corners w <> [] ->
  exists w',
    rtswall_of walls (wall_polygon w) = Done w' /\
    wall.corners w' = wall.corners w /\
    wall.n w' = wall.n w /\ wall.double_n w' = wall.double_n w /\
    wall.d w' = wall.d w /\ wall.material w' = wall.material w /\
    wall.parent_id w' = wall.id w /\ wall.parent w' = Some i /\
    wall.enabled w' = true /\ wall.force_loaded w' = true /\
    wall.id w' = ((wall.id w * 10000) mod 2 ^ 32)%Z /\
    ((wall.id w < 429497)%Z -> wall.id w' = (wall.id w * 10000)%Z).
Proof.
  intros Hw Hid Hring. unfold rtswall_of, wall_polygon. simpl.
  destruct (wall.corners w) as [|c cs] eqn:Hcs; [done|]. simpl.
  rewrite Hid, bool_decide_true by lia. rewrite Nat2Z.id, Hw.
  eexists. split; [done|]. cbn [wall.corners wall.n wall.double_n wall.d
    wall.material wall.parent_id wall.parent wall.enabled wall.force_loaded
    wall.id].
  unfold to_unsigned_int. rewrite Z.add_0_r.
  split_and!; try done.
  - rewrite map_map. simpl.
    assert (forall v : fvec3, to_fvec3 (to_point v) = v) as Hrt
      by (by intros []).
    rewrite Hrt. f_equal. rewrite <- (map_id cs) at 2.
    by apply map_ext.
  - intros Hi. apply Z.mod_small.
    change (2 ^ 32)%Z with 4294967296%Z. lia.
Qed.

(** Whatever holds of every wall [construct_rtswall_model] makes holds
    of every wall a run of [build_BSP] has allocated. *)
Lemma build_BSP_fresh_walls (Good : wall -> Prop) (fuel : nat)
    (walls : list wall) (polygons : list PolygonSpatial) (h : heap)
    (next : ptr) (new_walls : list ptr) (threshold : Q) tree h1 next1 nw1 :
  (forall i w, rtswall_of walls i = Done w -> Good w) ->
  build_BSP fuel walls polygons (h, next) new_walls threshold =
    Done (tree, (h1, next1), nw1) ->
  forall p, next <= p < next1 -> Good (h1 p).
Proof.
  intros HQ Hrun.
  apply (build_BSP_rule
           (fun _ st _ r =>
              st.2 <= r.1.2.2 /\
              (forall p, ~ (st.2 <= p < r.1.2.2) -> r.1.2.1 p = st.1 p) /\
              forall p, st.2 <= p < r.1.2.2 -> Good (r.1.2.1 p))
           walls threshold) in Hrun; [by destruct Hrun as (_ & _ & ?)|..].
  - intros st nw. simpl. split; [done|]. split; [done|]. intros; lia.
  - intros ps [h0 n0] nw ws [h2 n2] _ _
      (-> & -> & Hframe & Hat)%construct_rtswall_model_spec. simpl.
    split; [lia|]. split; [done|]. intros p Hp.
    destruct (lookup_lt_is_Some_2 ps (p - n0)) as [q Hq]; [lia|].
    specialize (Hat _ _ Hq). replace (n0 + (p - n0)) with p in Hat by lia.
    by eapply HQ.
  - intros ps [h0 n0] nw wall_id pw ws [h2 n2] f [h3 n3] nw2 k [h4 n4] nw3
      _ _ _ _ (-> & Hn2 & Hframe & Hat)%construct_rtswall_model_spec
      (Hle3 & Hframe3 & HQ3) (Hle4 & Hframe4 & HQ4). simpl in *.
    split; [lia|]. split.
    + intros p Hp. rewrite Hframe4, Hframe3, Hframe by lia. done.
    + intros p Hp.
      destruct (decide (p < n2)) as [Hlt|Hge].
      { rewrite Hframe4, Hframe3 by lia.
        destruct (lookup_lt_is_Some_2
                    (pw :: on (split_others ps wall_id pw)) (p - n0))
          as [q Hq]; [simpl in *; lia|].
        specialize (Hat _ _ Hq).
        replace (n0 + (p - n0)) with p in Hat by lia. by eapply HQ. }
      destruct (decide (p < n3)) as [Hlt3|Hge3].
      { rewrite Hframe4 by lia. apply HQ3. lia. }
      apply HQ4. lia.
Qed.

(** X11.  Before the harmonizer runs, every wall a construction has
    produced carries the id [10000 * parent id], reduced modulo 2^32 as
    the [unsigned int] it is computed in: the counter that was meant to
    tell the fragments of one parent apart is never advanced, so the
    fragments of one parent all share one id. *)
Theorem build_BSP_ids_before_harmonising (fuel : nat) (walls : list wall)
    (polygons : list PolygonSpatial) (h : heap) (next : ptr)
    (threshold : Q) tree h1 next1 pwalls_BSP :
  build_BSP fuel walls polygons (h, next) [] threshold =
    Done (tree, (h1, next1), pwalls_BSP) ->
  (forall j, j ∈ pwalls_BSP ->
     wall.id (h1 j) = ((wall.parent_id (h1 j) * 10000) mod 2 ^ 32)%Z /\
     ((wall.parent_id (h1 j) < 429497)%Z ->
      wall.id (h1 j) = (wall.parent_id (h1 j) * 10000)%Z)) /\
  (forall j1 j2, j1 ∈ pwalls_BSP -> j2 ∈ pwalls_BSP ->
     wall.parent_id (h1 j1) = wall.parent_id (h1 j2) ->
     wall.id (h1 j1) = wall.id (h1 j2)).
Proof.
  intros Hrun.
  assert (forall j, j ∈ pwalls_BSP ->
            (0 <= wall.parent_id (h1 j))%Z /\
            wall.id (h1 j) = ((wall.parent_id (h1 j) * 10000) mod 2 ^ 32)%Z)
    as Hid.
  { intros j Hj.
    pose proof (build_BSP_built_ok (fun _ => True)) as Hok.
    specialize (Hok ltac:(intros p pl b _ _; repeat split; by apply Forall_forall)).
    apply Hok in Hrun as Hbuilt; [|by apply Forall_forall].
    destruct Hbuilt as (_ & _ & (added & Hadded & _ & Hrange) & _ & _).
    simpl in Hadded. subst added. apply Hrange in Hj.
    eapply (build_BSP_fresh_walls
              (fun w => (0 <= wall.parent_id w)%Z /\
                 wall.id w = ((wall.parent_id w * 10000) mod 2 ^ 32)%Z));
      [|exact Hrun|done].
    intros i w Hw. unfold rtswall_of in Hw.
    destruct (points i); [done|]. case_bool_decide; [|done].
    destruct (walls !! Z.to_nat (m_parentID i)); [|done].
    simplify_eq. cbn [wall.id wall.parent_id]. split; [done|].
    unfold to_unsigned_int. by rewrite Z.add_0_r. }
  split.
  - intros j Hj. destruct (Hid _ Hj) as [Hpos Hmod]. split; [done|].
    intros Hsmall. rewrite Hmod. apply Z.mod_small.
    change (2 ^ 32)%Z with 4294967296%Z. lia.
  - intros j1 j2 Hj1 Hj2 Hpar.
    destruct (Hid _ Hj1) as [_ ->]. destruct (Hid _ Hj2) as [_ ->].
    by rewrite Hpar.
Qed.
End BuilderSafety.

(** ** More about the harmonizer *)

Section HarmonizerMore.
Context `{Scalar}.

Lemma relabel_children_only_id (i : Z) (pw : list ptr) (inc : Z) (h : heap)
    (p : ptr) :
  wall.setID (relabel_children i pw inc h p) 0 = wall.setID (h p) 0.
Proof.
  revert inc h. induction pw as [|j pw IH]; intros inc h; simpl; [done|].
  destruct (wall.parent_id (h j) =? i)%Z; [|by rewrite IH].
  rewrite IH. destruct (decide (j = p)) as [->|Hne].
  - by rewrite fn_lookup_insert.
  - by rewrite fn_lookup_insert_ne.
Qed.

Lemma relabel_children_other (i : Z) (pw : list ptr) (inc : Z) (h : heap)
    (p : ptr) :
  p ∉ pw \/ wall.parent_id (h p) <> i ->
  relabel_children i pw inc h p = h p.
Proof.
  revert inc h. induction pw as [|j pw IH]; intros inc h Hp; simpl; [done|].
  assert (j <> p \/ wall.parent_id (h j) <> i) as Hj.
  { destruct Hp as [Hp|Hp]; [left|].
    - intros ->. apply Hp. by left.
    - destruct (decide (j = p)) as [->|?]; [by right|by left]. }
  assert (p ∉ pw \/ wall.parent_id (h p) <> i) as Hp'.
  { destruct Hp as [Hp|Hp]; [left|by right].
    intros Hin. apply Hp. by right. }
  destruct (Z.eqb_spec (wall.parent_id (h j)) i) as [Heq|Hne].
  - destruct Hj as [Hj|Hj]; [|done].
    rewrite IH.
    + by rewrite fn_lookup_insert_ne.
    + by rewrite fn_lookup_insert_ne.
  - by apply IH.
Qed.

Lemma harmonise_fold_only_id (indices : list nat) (pw : list ptr) (h : heap)
    (p : ptr) :
  wall.setID
    (fold_left (fun h' i => relabel_children (Z.of_nat i) pw 0 h') indices h p)
    0 = wall.setID (h p) 0.
Proof.
  revert h. induction indices as [|i l IH]; intros h; simpl; [done|].
  by rewrite IH, relabel_children_only_id.
Qed.

Lemma harmonise_fold_other (indices : list nat) (pw : list ptr) (h : heap)
    (p : ptr) :
  p ∉ pw \/ (forall i, i ∈ indices -> wall.parent_id (h p) <> Z.of_nat i) ->
  fold_left (fun h' i => relabel_children (Z.of_nat i) pw 0 h') indices h p
    = h p.
Proof.
  revert h. induction indices as [|i l IH]; intros h Hp; simpl; [done|].
  rewrite IH.
  - apply relabel_children_other. destruct Hp as [?|Hp]; [by left|right].
    apply Hp. by left.
  - destruct Hp as [?|Hp]; [by left|right]. intros i' Hi'.
    rewrite relabel_children_parent. apply Hp. by right.
Qed.

Lemma harmonise_parent (n : nat) (pw : list ptr) (h : heap) (p : ptr) :
  wall.parent_id (harmonise_identifiers n pw h p) = wall.parent_id (h p).
Proof.
  pose proof (harmonise_fold_only_id (seq 0 n) pw h p) as Hid.
  by apply (f_equal wall.parent_id) in Hid.
Qed.

Lemma children_before_mono (h : heap) (pw : list ptr) (k1 k2 : nat) (i : Z) :
  k1 <= k2 -> (children_before h pw k1 i <= children_before h pw k2 i)%Z.
Proof.
  revert k1 k2. induction pw as [|j pw IH]; intros k1 k2 Hle.
  { unfold children_before. by rewrite !take_nil. }
  destruct k1 as [|k1].
  { rewrite children_before_0. apply children_before_nonneg. }
  destruct k2 as [|k2]; [lia|]. rewrite !children_before_S.
  assert (k1 <= k2) as Hle' by lia. specialize (IH _ _ Hle'). lia.
Qed.

Lemma children_before_all (h : heap) (pw : list ptr) (k : nat) (i : Z) :
  (children_before h pw k i <= children_before h pw (length pw) i)%Z.
Proof.
  destruct (decide (k <= length pw)) as [Hle|Hgt].
  - by apply children_before_mono.
  - unfold children_before. rewrite !take_ge by lia. done.
Qed.

(** The relabelled ids of a list of distinct walls with parents in
    range and fewer than 1000 walls per parent are pairwise distinct. *)
Lemma harmonised_ids_distinct (n : nat) (pw : list ptr) (h : heap) :
  NoDup pw ->
  (forall j, j ∈ pw -> (0 <= wall.parent_id (h j) < Z.of_nat n)%Z) ->
  (forall i, (children_before h pw (length pw) i < 1000)%Z) ->
  NoDup (map (fun p => wall.id (harmonise_identifiers n pw h p)) pw).
Proof.
  intros Hnd Hrange Hlimit.
  assert (forall k j, pw !! k = Some j ->
            wall.id (harmonise_identifiers n pw h j) =
            (wall.parent_id (h j) * 1000
             + children_before h pw k (wall.parent_id (h j)))%Z) as Hid.
  { intros k j Hk. unfold harmonise_identifiers.
    destruct (harmonise_fold_spec (seq 0 n) pw h Hnd (NoDup_seq _ _) k j Hk)
      as [Hin _].
    rewrite Hin; [done|].
    assert (j ∈ pw) as Hj by (by eapply list_elem_of_lookup_2).
    apply Hrange in Hj. exists (Z.to_nat (wall.parent_id (h j))).
    rewrite elem_of_seq. lia. }
  apply NoDup_alt. intros k1 k2 x.
  rewrite !lookup_map.
  destruct (pw !! k1) as [j1|] eqn:Hk1; [|done].
  destruct (pw !! k2) as [j2|] eqn:Hk2; [|done]. simpl.
  intros [= <-] [= Heq]. rewrite (Hid _ _ Hk1), (Hid _ _ Hk2) in Heq.
  pose proof (children_before_nonneg h pw k1 (wall.parent_id (h j1))).
  pose proof (children_before_nonneg h pw k2 (wall.parent_id (h j2))).
  pose proof (children_before_all h pw k1 (wall.parent_id (h j1))).
  pose proof (children_before_all h pw k2 (wall.parent_id (h j2))).
  pose proof (Hlimit (wall.parent_id (h j1))).
  pose proof (Hlimit (wall.parent_id (h j2))).
  assert (wall.parent_id (h j1) = wall.parent_id (h j2)) as Hpar by lia.
  destruct (Nat.lt_trichotomy k1 k2) as [Hlt|[?|Hlt]]; [|done|].
  - pose proof (children_before_lt h pw k1 k2 j1 Hlt Hk1).
    rewrite Hpar in *. lia.
  - pose proof (children_before_lt h pw k2 k1 j2 Hlt Hk2).
    rewrite Hpar in *. lia.
Qed.

(** X12.  The harmonizer writes ids and nothing else: every other field
    of every wall is as before; walls that are not in the produced-wall
    list, and walls whose parent id is not a wall index, keep their id
    as well. *)
Theorem harmonise_identifiers_writes_ids_only (walls_size : nat)
    (pwalls_BSP : list ptr) (h : heap) (p : ptr) :
  wall.setID (harmonise_identifiers walls_size pwalls_BSP h p) 0 =
    wall.setID (h p) 0 /\
  (p ∉ pwalls_BSP -> harmonise_identifiers walls_size pwalls_BSP h p = h p) /\
  (~ (0 <= wall.parent_id (h p) < Z.of_nat walls_size)%Z ->
   harmonise_identifiers walls_size pwalls_BSP h p = h p).
Proof.
  split; [apply harmonise_fold_only_id|]. split.
  - intros Hp. apply harmonise_fold_other. by left.
  - intros Hp. apply harmonise_fold_other. right.
    intros i Hi%elem_of_seq. lia.
Qed.

(** X13.  Running the harmonizer a second time over the same list of
    distinct walls changes nothing: the ids depend on the parent ids and
    the order of the list only, and neither is touched. *)
Theorem harmonise_identifiers_idempotent (walls_size : nat)
    (pwalls_BSP : list ptr) (h : heap) :
  NoDup pwalls_BSP ->
  forall p,
    harmonise_identifiers walls_size pwalls_BSP
      (harmonise_identifiers walls_size pwalls_BSP h) p =
    harmonise_identifiers walls_size pwalls_BSP h p.
Proof.
  intros Hnd p.
  set (h1 := harmonise_identifiers walls_size pwalls_BSP h).
  destruct (decide (p ∈ pwalls_BSP)) as [[k Hk]%list_elem_of_lookup_1|Hp].
  2: { apply harmonise_fold_other. by left. }
  assert (forall q, wall.parent_id (h1 q) = wall.parent_id (h q)) as Hpar.
  { intros q. apply harmonise_parent. }
  destruct (decide (0 <= wall.parent_id (h p) < Z.of_nat walls_size)%Z)
    as [Hin|Hout].
  - assert (forall g, (forall q, wall.parent_id (g q) = wall.parent_id (h q)) ->
      harmonise_identifiers walls_size pwalls_BSP g p =
      wall.setID (g p)
        (wall.parent_id (h p) * 1000
         + children_before h pwalls_BSP k (wall.parent_id (h p)))) as Hset.
    { intros g Hg. unfold harmonise_identifiers.
      destruct (harmonise_fold_spec (seq 0 walls_size) pwalls_BSP g Hnd
                  (NoDup_seq _ _) k p Hk) as [Hrel _].
      rewrite Hrel.
      - by rewrite Hg, (children_before_ext h g).
      - exists (Z.to_nat (wall.parent_id (h p))).
        rewrite elem_of_seq, Hg. lia. }
    rewrite (Hset h1 Hpar). unfold h1. by rewrite (Hset h) by done.
  - apply harmonise_fold_other. right.
    intros i Hi%elem_of_seq. fold h1. rewrite Hpar. lia.
Qed.

(** X14.  The documented limit: as long as no parent has 1000 walls or
    more in the list, the relabelled ids of distinct walls with parents
    in range are pairwise distinct. *)
Theorem harmonise_identifiers_distinct (walls_size : nat)
    (pwalls_BSP : list ptr) (h : heap) :
  NoDup pwalls_BSP ->
  (forall j, j ∈ pwalls_BSP ->
     (0 <= wall.parent_id (h j) < Z.of_nat walls_size)%Z) ->
  (forall i,
     (children_before h pwalls_BSP (length pwalls_BSP) i < 1000)%Z) ->
  forall k1 k2 j1 j2,
    pwalls_BSP !! k1 = Some j1 -> pwalls_BSP !! k2 = Some j2 ->
    wall.id (harmonise_identifiers walls_size pwalls_BSP h j1) =
    wall.id (harmonise_identifiers walls_size pwalls_BSP h j2) ->
    k1 = k2.
Proof.
  intros Hnd Hrange Hlimit k1 k2 j1 j2 Hk1 Hk2 Heq.
  pose proof (harmonised_ids_distinct walls_size pwalls_BSP h
                Hnd Hrange Hlimit) as Hids.
  apply (proj1 (NoDup_alt _) Hids k1 k2
           (wall.id (harmonise_identifiers walls_size pwalls_BSP h j1))).
  - by rewrite lookup_map, Hk1.
  - by rewrite lookup_map, Hk2, Heq.
Qed.
End HarmonizerMore.

(** ** More about the plane-polygon map *)

Section MapperMoreFacts.
Context `{Scalar}.

Lemma insert_snoc_alter (m : plane_polygon_map) (i : nat) (g l : list ptr) :
  m !! i = Some g ->
  <[i := g ++ l]> m = alter (fun g => g ++ l) i m.
Proof.
  revert i. induction m as [|g0 m IH]; intros [|i] Hi; simpl in *; try done.
  - by simplify_eq.
  - f_equal. by apply IH.
Qed.

Lemma same_but_group_refl (h : heap) : same_but_group h h.
Proof. by intros p. Qed.

Lemma same_but_group_trans (h1 h2 h3 : heap) :
  same_but_group h1 h2 -> same_but_group h2 h3 -> same_but_group h1 h3.
Proof. intros H12 H23 p. by rewrite H23, H12. Qed.

Lemma same_but_group_assign (h : heap) (w : ptr) (g : nat) :
  same_but_group h (assign_group h w g).
Proof.
  intros p. unfold assign_group. destruct (decide (w = p)) as [->|Hne].
  - by rewrite fn_lookup_insert.
  - by rewrite fn_lookup_insert_ne.
Qed.

Lemma same_but_group_normal (h h' : heap) (a b : ptr) :
  same_but_group h h' ->
  same_normal (h' a) (h' b) = same_normal (h a) (h b).
Proof.
  intros Hs. pose proof (Hs a) as Ha. pose proof (Hs b) as Hb.
  unfold same_normal.
  by rewrite (f_equal wall.n Ha : wall.n (h' a) = wall.n (h a)),
             (f_equal wall.n Hb : wall.n (h' b) = wall.n (h b)),
             (f_equal wall.d Ha : wall.d (h' a) = wall.d (h a)),
             (f_equal wall.d Hb : wall.d (h' b) = wall.d (h b)).
Qed.

Lemma same_but_group_keys (h h' : heap) :
  same_but_group h h' -> same_keys h h'.
Proof.
  intros Hs p. pose proof (Hs p) as Hp. split.
  - exact (f_equal wall.id Hp).
  - exact (f_equal wall.enabled Hp).
Qed.

(** The loop over the groups, for a wall whose id differs from the ids
    of all walls in the map: from group [i] on it looks for the first
    group whose first wall it matches. *)
Lemma place_wall_from (fuel : nat) (one_wall : ptr) (i : nat)
    (m : plane_polygon_map) (h : heap) :
  Forall (fun g => g <> []) m ->
  (forall p, p ∈ concat m -> wall.id (h p) <> wall.id (h one_wall)) ->
  i < length m ->
  length m - i + 2 <= fuel ->
  place_wall fuel one_wall i m h =
    Done (match first_match_from h one_wall i (drop i m) with
          | Some j => (alter (fun g => g ++ [one_wall]) j m,
                       assign_group h one_wall j)
          | None => (m ++ [[one_wall]], assign_group h one_wall (length m))
          end).
Proof.
  revert i. induction fuel as [|fuel IH]; intros i Hne Hids Hi Hfuel; [lia|].
  simpl. destruct (lookup_lt_is_Some_2 m i Hi) as [g Hg]. rewrite Hg.
  rewrite (drop_S _ _ _ Hg).
  assert (g ∈ m) as Hgm by (by eapply list_elem_of_lookup_2).
  destruct g as [|rep members].
  { rewrite Forall_forall in Hne. by destruct (Hne [] Hgm). }
  assert (rep ∈ concat m) as Hrep.
  { apply list_elem_of_In, in_concat. exists (rep :: members).
    split; [by apply list_elem_of_In|by left]. }
  destruct (Z.eqb_spec (wall.id (h one_wall)) (wall.id (h rep))) as [Heq|_].
  { by destruct (Hids rep Hrep). }
  simpl. destruct (same_normal (h one_wall) (h rep)).
  { by rewrite <- (insert_snoc_alter _ _ (rep :: members) [one_wall] Hg). }
  destruct (Nat.eqb_spec i (length m - 1)) as [Hlast|Hmid].
  - rewrite (place_wall_after_push _ _ _ _ _ []).
    + rewrite drop_ge by lia. simpl. do 3 f_equal. lia.
    + rewrite lookup_app_r by lia.
      by replace (S i - length m) with 0 by lia.
    + rewrite length_app. simpl. lia.
    + lia.
  - apply IH; [done|done|lia|lia].
Qed.

Lemma place_wall_from_start (one_wall : ptr) (m : plane_polygon_map)
    (h : heap) :
  Forall (fun g => g <> []) m ->
  m <> [] ->
  (forall p, p ∈ concat m -> wall.id (h p) <> wall.id (h one_wall)) ->
  place_wall (length m + 2) one_wall 0 m h =
    Done (match first_match_from h one_wall 0 m with
          | Some j => (alter (fun g => g ++ [one_wall]) j m,
                       assign_group h one_wall j)
          | None => (m ++ [[one_wall]], assign_group h one_wall (length m))
          end).
Proof.
  intros Hne Hm Hids.
  rewrite (place_wall_from _ _ 0 m h Hne Hids); [done| |lia].
  destruct m; [done|]. simpl. lia.
Qed.

(** X15.  What the loop over the groups does for a wall whose id occurs
    nowhere in the map: the wall is appended to the first group whose
    first wall has the same normal and offset, and gets that group's
    index; if no group matches, a new group holding just this wall is
    appended and the wall gets its index.  Nothing else changes. *)
Theorem place_wall_first_match (one_wall : ptr) (m : plane_polygon_map)
    (h : heap) :
  Forall (fun g => g <> []) m ->
  m <> [] ->
  (forall p, p ∈ concat m -> wall.id (h p) <> wall.id (h one_wall)) ->
  place_wall (length m + 2) one_wall 0 m h =
    Done (match first_match_from h one_wall 0 m with
          | Some j => (alter (fun g => g ++ [one_wall]) j m,
                       assign_group h one_wall j)
          | None => (m ++ [[one_wall]], assign_group h one_wall (length m))
          end).
Proof. apply place_wall_from_start. Qed.

Lemma first_match_from_Some (h : heap) (w : ptr) (i : nat)
    (m : plane_polygon_map) (j : nat) :
  first_match_from h w i m = Some j ->
  i <= j /\
  (exists g, m !! (j - i) = Some g /\ matches h w g = true) /\
  forall k g, k < j - i -> m !! k = Some g -> matches h w g = false.
Proof.
  revert i. induction m as [|g0 m IH]; intros i Hf; simpl in Hf; [done|].
  destruct (matches h w g0) eqn:Hg0.
  - simplify_eq. split; [done|]. rewrite Nat.sub_diag. split; [by exists g0|].
    intros; lia.
  - destruct (IH _ Hf) as (Hle & (g & Hg & Hmatch) & Hbefore).
    split; [lia|]. replace (j - i) with (S (j - S i)) by lia. split.
    + by exists g.
    + intros [|k] g' Hk Hg'; simpl in Hg'; [by simplify_eq|].
      apply (Hbefore k); [lia|done].
Qed.

Lemma first_match_from_None (h : heap) (w : ptr) (i : nat)
    (m : plane_polygon_map) :
  first_match_from h w i m = None ->
  forall g, g ∈ m -> matches h w g = false.
Proof.
  revert i. induction m as [|g0 m IH]; intros i Hf g Hg; simpl in Hf.
  { by apply elem_of_nil in Hg. }
  destruct (matches h w g0) eqn:Hg0; [done|].
  apply elem_of_cons in Hg as [->|Hg]; [done|]. by eapply IH.
Qed.

End MapperMoreFacts.

Section MapperInvariant.
Context `{Scalar}.

Lemma elem_of_concat_lookup (m : plane_polygon_map) (i : nat)
    (g : list ptr) (x : ptr) :
  m !! i = Some g -> x ∈ g -> x ∈ concat m.
Proof.
  intros Hg Hx. apply list_elem_of_In, in_concat. exists g.
  split; apply list_elem_of_In; [by eapply list_elem_of_lookup_2|done].
Qed.

Lemma assign_group_other (h : heap) (w x : ptr) (g : nat) :
  x <> w -> assign_group h w g x = h x.
Proof. intros Hne. unfold assign_group. by apply fn_lookup_insert_ne. Qed.

Lemma assign_group_id (h : heap) (w : ptr) (g : nat) :
  wall.plane_polygon_map_id (assign_group h w g w) = Z.of_nat g.
Proof. unfold assign_group. by rewrite fn_lookup_insert. Qed.

Lemma grouped_join (h0 : heap) (m : plane_polygon_map) (h : heap)
    (w : ptr) (j : nat) :
  grouped h0 m h ->
  w ∉ concat m ->
  first_match_from h w 0 m = Some j ->
  grouped h0 (alter (fun g => g ++ [w]) j m) (assign_group h w j).
Proof.
  intros (Hne & Hsame & Hids & Hmem & Hreps) Hw Hfirst.
  apply first_match_from_Some in Hfirst as (_ & (g & Hg & Hmatch) & _).
  rewrite Nat.sub_0_r in Hg.
  rewrite <- (insert_snoc_alter m j g [w] Hg).
  assert (forall i g', <[j := g ++ [w]]> m !! i = Some g' ->
            (i = j /\ g' = g ++ [w]) \/ (i <> j /\ m !! i = Some g')) as Hlook.
  { intros i g' Hi. destruct (decide (i = j)) as [->|Hij].
    - left. rewrite list_lookup_insert_eq in Hi by (by eapply lookup_lt_Some).
      by simplify_eq.
    - right. by rewrite list_lookup_insert_ne in Hi. }
  repeat split.
  - by apply Forall_insert; [|destruct g].
  - eapply same_but_group_trans; [done|apply same_but_group_assign].
  - intros i g' x Hi Hx.
    destruct (Hlook _ _ Hi) as [[-> ->]|[Hij Hi']].
    + apply elem_of_app in Hx as [Hx|Hx%list_elem_of_singleton]; [|subst x].
      * rewrite assign_group_other; [by eapply Hids|].
        intros ->. apply Hw. by eapply elem_of_concat_lookup.
      * apply assign_group_id.
    + rewrite assign_group_other; [by eapply Hids|].
      intros ->. apply Hw. by eapply elem_of_concat_lookup.
  - intros rep members x [i Hi]%list_elem_of_lookup_1 Hx.
    destruct (Hlook _ _ Hi) as [[-> Heq]|[Hij Hi']].
    + destruct g as [|rep0 members0]; [done|]. simpl in Heq. simplify_eq.
      apply elem_of_app in Hx as [Hx|Hx%list_elem_of_singleton]; [|subst x].
      * eapply Hmem; [by eapply list_elem_of_lookup_2|done].
      * simpl in Hmatch. by rewrite <- (same_but_group_normal h0 h).
    + eapply Hmem; [by eapply list_elem_of_lookup_2|done].
  - intros i1 i2 r1 g1 r2 g2 Hlt H1 H2.
    assert (forall i r g', <[j := g ++ [w]]> m !! i = Some (r :: g') ->
              exists g'', m !! i = Some (r :: g'')) as Hhead.
    { intros i r g' Hi. destruct (Hlook _ _ Hi) as [[-> Heq]|[_ Hi']]; [|eauto].
      destruct g as [|r0 g0]; [done|]. simpl in Heq. simplify_eq. eauto. }
    destruct (Hhead _ _ _ H1) as [g1' H1'].
    destruct (Hhead _ _ _ H2) as [g2' H2'].
    by eapply Hreps.
Qed.

Lemma grouped_push (h0 : heap) (m : plane_polygon_map) (h : heap) (w : ptr) :
  grouped h0 m h ->
  w ∉ concat m ->
  first_match_from h w 0 m = None ->
  grouped h0 (m ++ [[w]]) (assign_group h w (length m)).
Proof.
  intros (Hne & Hsame & Hids & Hmem & Hreps) Hw Hfirst.
  pose proof (first_match_from_None _ _ _ _ Hfirst) as Hnone.
  assert (forall i g', (m ++ [[w]]) !! i = Some g' ->
            (i = length m /\ g' = [w]) \/ (i < length m /\ m !! i = Some g'))
    as Hlook.
  { intros i g' Hi. apply lookup_app_Some in Hi as [Hi|[Hge Hi]].
    - right. split; [by eapply lookup_lt_Some|done].
    - left. destruct (i - length m) as [|k] eqn:Hk; simpl in Hi; [|done].
      split; [lia|by simplify_eq]. }
  repeat split.
  - apply Forall_app. split; [done|]. by repeat constructor.
  - eapply same_but_group_trans; [done|apply same_but_group_assign].
  - intros i g' x Hi Hx.
    destruct (Hlook _ _ Hi) as [[-> ->]|[Hlt Hi']].
    + apply list_elem_of_singleton in Hx as ->. apply assign_group_id.
    + rewrite assign_group_other; [by eapply Hids|].
      intros ->. apply Hw. by eapply elem_of_concat_lookup.
  - intros rep members x [i Hi]%list_elem_of_lookup_1 Hx.
    destruct (Hlook _ _ Hi) as [[-> Heq]|[Hlt Hi']].
    + simplify_eq. by apply elem_of_nil in Hx.
    + eapply Hmem; [by eapply list_elem_of_lookup_2|done].
  - intros i1 i2 r1 g1 r2 g2 Hlt H1 H2.
    destruct (Hlook _ _ H1) as [[-> Heq1]|[Hlt1 H1']].
    { apply lookup_lt_Some in H2. rewrite length_app in H2. simpl in H2. lia. }
    destruct (Hlook _ _ H2) as [[-> Heq2]|[Hlt2 H2']].
    + simplify_eq. rewrite <- (same_but_group_normal h0 h) by done.
      apply (Hnone (r1 :: g1)). by eapply list_elem_of_lookup_2.
    + exact (Hreps _ _ _ _ _ _ Hlt H1' H2').
Qed.

Lemma scan_walls_grouped (h0 : heap) (walls_to_check : list ptr)
    (m : plane_polygon_map) (h : heap) :
  grouped h0 m h ->
  m <> [] ->
  NoDup (map (fun p => wall.id (h0 p)) (concat m ++ walls_to_check)) ->
  exists m' h',
    scan_walls walls_to_check m h = Done (m', h') /\ grouped h0 m' h'.
Proof.
  revert m h. induction walls_to_check as [|w l IH]; intros m h Hg Hm Hnd.
  { by exists m, h. }
  simpl.
  assert (same_keys h0 h) as Hkeys.
  { apply same_but_group_keys. by destruct Hg as (_ & ? & _). }
  assert (forall p, p ∈ concat m -> wall.id (h p) <> wall.id (h w)) as Hids.
  { intros p Hp Heq. revert Hnd. rewrite map_app. simpl.
    rewrite NoDup_app. intros (_ & Hdisj & _).
    apply (Hdisj (wall.id (h0 p))).
    - apply list_elem_of_fmap. by exists p.
    - destruct (Hkeys p) as [<- _]. rewrite Heq.
      destruct (Hkeys w) as [-> _]. by left. }
  assert (w ∉ concat m) as Hw.
  { intros Hin. by apply (Hids w Hin). }
  assert (NoDup (map (fun p => wall.id (h0 p)) (concat m ++ l))) as Hnd'.
  { revert Hnd. rewrite !map_app. simpl. rewrite !NoDup_app.
    intros (? & Hdisj & [_ ?]%NoDup_cons). split; [done|]. split; [|done].
    intros x Hx Hxl. apply (Hdisj x Hx). by right. }
  destruct (negb (wall.enabled (h w))); [by apply IH|].
  rewrite place_wall_from_start; [|by destruct Hg|done|done].
  pose proof (place_wall_joins (length m + 2) w 0 m h) as Hjoin.
  destruct Hjoin as (m1 & h1 & Hrun & Hperm & _ & _);
    [by destruct Hg|done|destruct m; [done|simpl; lia]|lia|].
  rewrite place_wall_from_start in Hrun; [|by destruct Hg|done|done].
  destruct (first_match_from h w 0 m) as [j|] eqn:Hfirst; simpl.
  - simplify_eq. apply IH.
    + by apply grouped_join.
    + intros Hnil. rewrite Hnil in Hperm. by apply Permutation_nil_cons in Hperm.
    + rewrite Hperm. simpl. revert Hnd. rewrite !map_app. simpl.
      by rewrite <- Permutation_middle.
  - simplify_eq. apply IH.
    + by apply grouped_push.
    + by destruct m.
    + rewrite Hperm. simpl. revert Hnd. rewrite !map_app. simpl.
      by rewrite <- Permutation_middle.
Qed.

Lemma create_plane_polygon_map_grouped (walls_to_check : list ptr)
    (h : heap) (m' : plane_polygon_map) (h' : heap) :
  NoDup (map (fun p => wall.id (h p)) walls_to_check) ->
  create_plane_polygon_map walls_to_check [] h = Done (m', h') ->
  grouped h m' h'.
Proof.
  intros Hnd. unfold create_plane_polygon_map.
  assert (sort_by_id h walls_to_check ≡ₚ walls_to_check) as Hperm.
  { apply std_sort_perm. }
  destruct (sort_by_id h walls_to_check) as [|first_wall rest] eqn:Hsort;
    [done|].
  cbv zeta. rewrite app_nil_l. cbv beta iota.
  set (h0 := assign_group h first_wall 0).
  assert (scan_walls (first_wall :: rest) [[first_wall]] h0 =
          scan_walls rest [[first_wall]] h0) as ->.
  { simpl. destruct (wall.enabled (h0 first_wall)); simpl; [|done].
    by rewrite Z.eqb_refl. }
  destruct (scan_walls_grouped h rest [[first_wall]] h0)
    as (m1 & h1 & Hrun & Hgrouped).
  - repeat split.
    + by repeat constructor.
    + apply same_but_group_assign.
    + intros [|i] g w Hi Hw; simpl in Hi; [|done]. simplify_eq.
      apply list_elem_of_singleton in Hw as ->. apply assign_group_id.
    + intros rep members w Hg%list_elem_of_singleton Hw. simplify_eq.
      by apply elem_of_nil in Hw.
    + intros [|i] [|j] ri gi rj gj Hlt Hi Hj; simpl in *; try done; lia.
  - done.
  - change (NoDup (map (fun p => wall.id (h p)) (first_wall :: rest))).
    by rewrite Hperm.
  - rewrite Hrun. by intros [= <- <-].
Qed.

(** X16.  After a run on the empty map over walls with pairwise distinct
    ids, the group id stored in a wall is the index of the group that
    holds it. *)
Theorem create_plane_polygon_map_group_ids (walls_to_check : list ptr)
    (h : heap) (m' : plane_polygon_map) (h' : heap) :
  NoDup (map (fun p => wall.id (h p)) walls_to_check) ->
  create_plane_polygon_map walls_to_check [] h = Done (m', h') ->
  forall i g w, m' !! i = Some g -> w ∈ g ->
    wall.plane_polygon_map_id (h' w) = Z.of_nat i.
Proof.
  intros Hnd Hrun.
  by destruct (create_plane_polygon_map_grouped _ _ _ _ Hnd Hrun)
    as (_ & _ & Hids & _).
Qed.

(** X17.  After such a run every member of a group has the normal and
    the offset of the group's first wall, as [same_normal] compares
    them, and the first wall of a later group does not match the first
    wall of any earlier group: walls are grouped by the first first-wall
    they match. *)
Theorem create_plane_polygon_map_coplanar (walls_to_check : list ptr)
    (h : heap) (m' : plane_polygon_map) (h' : heap) :
  NoDup (map (fun p => wall.id (h p)) walls_to_check) ->
  create_plane_polygon_map walls_to_check [] h = Done (m', h') ->
  (forall rep members w, (rep :: members) ∈ m' -> w ∈ members ->
     same_normal (h w) (h rep) = true) /\
  (forall i j ri gi rj gj, i < j ->
     m' !! i = Some (ri :: gi) -> m' !! j = Some (rj :: gj) ->
     same_normal (h rj) (h ri) = false).
Proof.
  intros Hnd Hrun.
  by destruct (create_plane_polygon_map_grouped _ _ _ _ Hnd Hrun)
    as (_ & _ & _ & Hmem & Hreps).
Qed.
End MapperInvariant.

Section MapperAnyState.
Context `{Scalar}.

Lemma map_extends_refl (m : plane_polygon_map) : map_extends m m.
Proof.
  split; [done|]. intros i g Hg. exists []. by rewrite app_nil_r.
Qed.

Lemma map_extends_trans (m1 m2 m3 : plane_polygon_map) :
  map_extends m1 m2 -> map_extends m2 m3 -> map_extends m1 m3.
Proof.
  intros [Hl12 H12] [Hl23 H23]. split; [lia|].
  intros i g Hg. destruct (H12 _ _ Hg) as [g' Hg'].
  destruct (H23 _ _ Hg') as [g'' Hg'']. exists (g' ++ g'').
  by rewrite app_assoc.
Qed.

Lemma map_extends_snoc (m : plane_polygon_map) (g : list ptr) :
  map_extends m (m ++ [g]).
Proof.
  split; [rewrite length_app; lia|].
  intros i g0 Hg0. exists []. rewrite app_nil_r. by apply lookup_app_l_Some.
Qed.

Lemma map_extends_insert (m : plane_polygon_map) (i : nat) (g l : list ptr) :
  m !! i = Some g -> map_extends m (<[i := g ++ l]> m).
Proof.
  intros Hg. split; [by rewrite length_insert|].
  intros j g0 Hg0. destruct (decide (i = j)) as [->|Hne].
  - exists l. rewrite list_lookup_insert_eq by (by eapply lookup_lt_Some).
    by simplify_eq.
  - exists []. by rewrite app_nil_r, list_lookup_insert_ne.
Qed.

Lemma place_wall_extends (fuel : nat) (one_wall : ptr) (i : nat)
    (m : plane_polygon_map) (h : heap) m' h' :
  place_wall fuel one_wall i m h = Done (m', h') ->
  map_extends m m' /\ same_but_group h h' /\
  forall p, p <> one_wall -> h' p = h p.
Proof.
  revert i m h. induction fuel as [|fuel IH]; intros i m h Hrun; [done|].
  simpl in Hrun. destruct (m !! i) as [[|rep members]|] eqn:Hi.
  - done.
  - destruct (wall.id (h one_wall) =? wall.id (h rep))%Z; [by eapply IH|].
    destruct (same_normal (h one_wall) (h rep)).
    { simplify_eq. split; [|split].
      - by apply (map_extends_insert m i (rep :: members) [one_wall]).
      - apply same_but_group_assign.
      - intros p Hp. by apply assign_group_other. }
    destruct (Nat.eqb i (length m - 1)); [|by eapply IH].
    apply IH in Hrun as (Hext & Hsame & Hframe). split; [|split].
    + eapply map_extends_trans; [apply map_extends_snoc|done].
    + eapply same_but_group_trans; [apply same_but_group_assign|done].
    + intros p Hp. rewrite Hframe by done. by apply assign_group_other.
  - simplify_eq. split; [apply map_extends_refl|].
    split; [apply same_but_group_refl|done].
Qed.

Lemma scan_walls_extends (walls_to_check : list ptr)
    (m : plane_polygon_map) (h : heap) m' h' :
  scan_walls walls_to_check m h = Done (m', h') ->
  map_extends m m' /\ same_but_group h h' /\
  forall p, p ∉ walls_to_check -> h' p = h p.
Proof.
  revert m h. induction walls_to_check as [|w l IH]; intros m h Hrun;
    simpl in Hrun.
  { simplify_eq. split; [apply map_extends_refl|].
    split; [apply same_but_group_refl|done]. }
  destruct (negb (wall.enabled (h w))).
  - apply IH in Hrun as (Hext & Hsame & Hframe).
    split; [done|]. split; [done|].
    intros p [_ Hp]%not_elem_of_cons. by apply Hframe.
  - destruct (place_wall (length m + 2) w 0 m h) as [[m1 h1]| |] eqn:Hplace;
      simpl in Hrun; try done.
    apply place_wall_extends in Hplace as (Hext1 & Hsame1 & Hframe1).
    apply IH in Hrun as (Hext & Hsame & Hframe).
    split; [by eapply map_extends_trans|].
    split; [by eapply same_but_group_trans|].
    intros p [Hne Hp]%not_elem_of_cons. rewrite Hframe by done.
    by apply Hframe1.
Qed.

(** X18.  The plane-polygon map only grows: every call appends at least
    one group, and every group the map held before is still there, at
    the same index, with its members in the same order in front of any
    new ones.  So a call never reproduces the map it was given. *)
Theorem create_plane_polygon_map_grows (walls_to_check : list ptr)
    (m : plane_polygon_map) (h : heap) m' h' :
  create_plane_polygon_map walls_to_check m h = Done (m', h') ->
  length m < length m' /\ map_extends m m'.
Proof.
  unfold create_plane_polygon_map.
  destruct (sort_by_id h walls_to_check) as [|first_wall rest]; [done|].
  cbv zeta.
  destruct (m ++ [[first_wall]]) as [|[|rep members] m1] eqn:Hm1; try done.
  intros (Hext & _)%scan_walls_extends. rewrite <- Hm1 in Hext.
  split.
  - destruct Hext as [Hlen _]. rewrite length_app in Hlen. simpl in Hlen. lia.
  - eapply map_extends_trans; [apply map_extends_snoc|done].
Qed.

(** X19.  The mapper writes group ids and nothing else: every other
    field of every wall is as before, and a wall that is neither in the
    vector handed over nor in the map keeps its group id too. *)
Theorem create_plane_polygon_map_writes_group_ids_only
    (walls_to_check : list ptr) (m : plane_polygon_map) (h : heap) m' h' :
  create_plane_polygon_map walls_to_check m h = Done (m', h') ->
  same_but_group h h' /\
  forall p, p ∉ walls_to_check -> p ∉ concat m -> h' p = h p.
Proof.
  unfold create_plane_polygon_map.
  assert (sort_by_id h walls_to_check ≡ₚ walls_to_check) as Hperm.
  { apply std_sort_perm. }
  destruct (sort_by_id h walls_to_check) as [|first_wall rest]; [done|].
  cbv zeta.
  destruct (m ++ [[first_wall]]) as [|[|rep members] m1] eqn:Hm1; try done.
  intros (_ & Hsame & Hframe)%scan_walls_extends. split.
  - eapply same_but_group_trans; [apply same_but_group_assign|done].
  - intros p Hp Hpm. rewrite Hframe by (by rewrite Hperm).
    apply assign_group_other. intros ->.
    assert (rep ∈ concat (m ++ [[first_wall]])) as Hrep.
    { rewrite Hm1. simpl. by left. }
    rewrite concat_app in Hrep. simpl in Hrep.
    apply elem_of_app in Hrep as [?|Hrep]; [done|].
    apply Hp. rewrite <- Hperm.
    apply elem_of_cons in Hrep as [->|Hrep]; [by left|].
    by apply elem_of_nil in Hrep.
Qed.
End MapperAnyState.

(** ** More about the aggregator *)

Lemma StronglySorted_lt_NoDup (l : list nat) : StronglySorted lt l -> NoDup l.
Proof.
  induction 1 as [|x l _ IH Hx]; constructor; [|done].
  intros Hin. rewrite Forall_forall in Hx. specialize (Hx x Hin). lia.
Qed.

Section AggregatorMore.
Context `{Scalar}.

Lemma sort_unique_set (l l' : list ptr) :
  (forall x, x ∈ l <-> x ∈ l') -> sort_unique l = sort_unique l'.
Proof.
  intros Hset.
  apply (StronglySorted_unique_strong lt); [intros; lia|..].
  - apply sort_unique_sorted.
  - apply sort_unique_sorted.
  - apply NoDup_Permutation.
    + apply StronglySorted_lt_NoDup, sort_unique_sorted.
    + apply StronglySorted_lt_NoDup, sort_unique_sorted.
    + intros x. by rewrite !elem_of_sort_unique.
Qed.

(** The store the aggregation leaves, wall by wall. *)
Lemma unify_direct_reflectables_result (m : plane_polygon_map) (h : heap) :
  Forall (fun i => i <> []) m ->
  NoDup (concat m) ->
  exists h',
    unify_direct_reflectables m h = Done h' /\
    (forall i0 rest, (i0 :: rest) ∈ m ->
       h' i0 = wall.set_direct_reflectables (h i0)
                 (sort_unique (direct_reflectables_united h (i0 :: rest)))) /\
    (forall p, (forall rest, (p :: rest) ∉ m) -> h' p = h p).
Proof.
  revert h. induction m as [|i m IH]; intros h Hne Hnd.
  { exists h. split; [done|]. split; [|done]. by intros ? ? ?%elem_of_nil. }
  apply Forall_cons in Hne as [Hi Hne].
  simpl in Hnd. apply NoDup_app in Hnd as (Hnd_i & Hdisj & Hnd_m).
  destruct i as [|i0 rest]; [done|]. clear Hi.
  set (h1 := <[i0 := wall.set_direct_reflectables (h i0)
                 (sort_unique (direct_reflectables_united h (i0 :: rest)))]> h).
  destruct (IH h1 Hne Hnd_m) as (h' & Hrun & Hheads & Hothers).
  exists h'. split; [done|].
  assert (forall k, k ∈ i0 :: rest -> h' k = h1 k) as Hkeep.
  { intros k Hk. apply (unify_frame m); [done|]. by apply Hdisj. }
  assert (forall g x, g ∈ m -> x ∈ g -> x ∈ concat m) as Hconcat.
  { intros g x Hg Hx. apply list_elem_of_In, in_concat. exists g.
    split; by apply list_elem_of_In. }
  split.
  - intros j0 others [Heq|Hin]%elem_of_cons.
    + simplify_eq. rewrite Hkeep by (by left). unfold h1.
      by rewrite fn_lookup_insert.
    + rewrite (Hheads _ _ Hin).
      assert (forall k, k ∈ j0 :: others -> h1 k = h k) as Hsame.
      { intros k Hk. unfold h1. apply fn_lookup_insert_ne. intros <-.
        apply (Hdisj i0); [by left|]. by eapply Hconcat. }
      by rewrite (united_ext h h1), Hsame by (done || by left).
  - intros p Hp. rewrite Hothers.
    + unfold h1. apply fn_lookup_insert_ne. intros <-.
      apply (Hp rest). by left.
    + intros others Hin. apply (Hp others). by right.
Qed.

(** X20.  The aggregation faults exactly when the map holds an empty
    group (it reads the first member of every group); otherwise it runs
    to completion. *)
Theorem unify_direct_reflectables_fault (m : plane_polygon_map) (h : heap) :
  (Exists (fun i => i = []) m <-> unify_direct_reflectables m h = Fault) /\
  (Forall (fun i => i <> []) m <->
   exists h', unify_direct_reflectables m h = Done h').
Proof.
  revert h. induction m as [|i m IH]; intros h; simpl.
  { split; [split; [by intros ?%Exists_nil|done]|].
    split; [by eauto|constructor]. }
  destruct i as [|i0 rest]; simpl.
  - split; [split; [done|by left]|].
    split; [by intros [? _]%Forall_cons|by intros [? ?]].
  - destruct (IH (<[i0 := wall.set_direct_reflectables (h i0)
                 (sort_unique (direct_reflectables_united h (i0 :: rest)))]> h))
      as [Hfault Hdone].
    split.
    + rewrite <- Hfault. split; [by intros [?|?]%Exists_cons|by right].
    + rewrite <- Hdone. split; [by intros [_ ?]%Forall_cons|by constructor].
Qed.

(** X21.  Aggregating twice is the same as aggregating once: on a map
    of non-empty, pairwise disjoint groups a second run leaves every
    wall as the first run left it. *)
Theorem unify_direct_reflectables_idempotent (m : plane_polygon_map)
    (h h1 : heap) :
  Forall (fun i => i <> []) m ->
  NoDup (concat m) ->
  unify_direct_reflectables m h = Done h1 ->
  exists h2,
    unify_direct_reflectables m h1 = Done h2 /\ forall p, h2 p = h1 p.
Proof.
  intros Hne Hnd Hrun.
  destruct (unify_direct_reflectables_result m h Hne Hnd)
    as (h1' & Hrun1 & Hheads1 & Hothers1).
  rewrite Hrun in Hrun1. simplify_eq.
  destruct (unify_direct_reflectables_result m h1' Hne Hnd)
    as (h2 & Hrun2 & Hheads2 & Hothers2).
  exists h2. split; [done|]. intros p.
  destruct (decide (Exists (fun g => head g = Some p) m)) as [Hhead|Hno].
  - apply Exists_exists in Hhead as (g & Hg & Hp).
    destruct g as [|p' rest]; [done|]. simpl in Hp. simplify_eq.
    rewrite (Hheads2 _ _ Hg), (Hheads1 _ _ Hg).
    assert (sort_unique (direct_reflectables_united h1' (p :: rest)) =
            sort_unique (direct_reflectables_united h (p :: rest))) as ->; [|done].
    apply sort_unique_set. intros x. rewrite !elem_of_united.
    assert (forall k, k ∈ rest -> h1' k = h k) as Hrest.
    { intros k Hk. apply Hothers1. intros others Hin.
      destruct (list_elem_of_lookup_1 _ _ Hg) as [a Ha].
      destruct (list_elem_of_lookup_1 _ _ Hin) as [b Hb].
      destruct (decide (a = b)) as [->|Hab].
      - rewrite Ha in Hb. simplify_eq.
        simpl in Hnd. clear -Hnd Hg Hk.
        induction m as [|g0 m IHm]; [by apply elem_of_nil in Hg|].
        simpl in Hnd. apply NoDup_app in Hnd as (Hnd0 & _ & Hndm).
        apply elem_of_cons in Hg as [<-|Hg]; [|by apply IHm].
        apply NoDup_cons in Hnd0 as [Hk' _]. done.
      - revert Hnd Ha Hb Hab Hk. clear. revert a b.
        induction m as [|g0 m IHm]; intros a b Hnd Ha Hb Hab Hk; [done|].
        simpl in Hnd. apply NoDup_app in Hnd as (Hnd0 & Hdisj & Hndm).
        destruct a as [|a], b as [|b]; simpl in Ha, Hb; simplify_eq.
        + apply (Hdisj k); [by right|].
          apply list_elem_of_In, in_concat. exists (k :: others).
          split; apply list_elem_of_In;
            [by eapply list_elem_of_lookup_2|by left].
        + apply (Hdisj k); [by left|].
          apply list_elem_of_In, in_concat. exists (p :: rest).
          split; apply list_elem_of_In;
            [by eapply list_elem_of_lookup_2|by right].
        + eapply (IHm a b); eauto. }
    split.
    + intros (k & [->|Hk]%elem_of_cons & Hx).
      * rewrite (Hheads1 _ _ Hg) in Hx. simpl in Hx.
        by apply elem_of_sort_unique, elem_of_united in Hx.
      * exists k. split; [by right|]. by rewrite <- Hrest.
    + intros (k & Hk & Hx). apply elem_of_cons in Hk as [->|Hk].
      * exists p. split; [by left|]. rewrite (Hheads1 _ _ Hg). simpl.
        apply elem_of_sort_unique, elem_of_united. exists p.
        split; [by left|done].
      * exists k. split; [by right|]. by rewrite Hrest.
  - apply Hothers2. intros rest Hin. apply Hno.
    apply Exists_exists. by exists (p :: rest).
Qed.
End AggregatorMore.

(** ** More about disabling walls *)

Section DisableMore.
Context `{Splitter}.

Lemma disable_lookup (walls_to_disable : list nat) (walls : list wall)
    (j : nat) :
  Forall (fun i => i < length walls) walls_to_disable ->
  (disable_selected_walls walls_to_disable walls).1 !! j =
    (fun w => if bool_decide (j ∈ walls_to_disable)
              then wall.set_enabled w false else w) <$> walls !! j.
Proof.
  revert walls. induction walls_to_disable as [|a l IH]; intros walls Hr; simpl.
  { by destruct (walls !! j). }
  apply Forall_cons in Hr as [Ha Hr].
  destruct (lookup_lt_is_Some_2 walls a Ha) as [w Hw]. rewrite Hw.
  rewrite IH by (by rewrite length_insert).
  destruct (decide (a = j)) as [->|Hne].
  - rewrite list_lookup_insert_eq, Hw by done. simpl.
    rewrite (bool_decide_true (j ∈ j :: l)) by (by left).
    by destruct (bool_decide (j ∈ l)).
  - rewrite list_lookup_insert_ne by done.
    destruct (walls !! j) as [w'|]; simpl; [|done]. f_equal.
    destruct (decide (j ∈ l)) as [Hin|Hout].
    + rewrite !bool_decide_true; [done|by right|done].
    + rewrite !bool_decide_false; [done| |done].
      intros [?|?]%elem_of_cons; done.
Qed.

(** X22.  With every index in range, [disable_selected_walls] returns
    the walls it was given with exactly the listed ones disabled:
    position [j] holds the old wall, with [enabled] cleared if [j] is
    listed and untouched otherwise.  Order and repetitions in the list
    of indices make no difference. *)
Theorem disable_selected_walls_in_range (walls_to_disable : list nat)
    (walls : list wall) :
  Forall (fun i => i < length walls) walls_to_disable ->
  (disable_selected_walls walls_to_disable walls).2 = None /\
  (forall j,
     (disable_selected_walls walls_to_disable walls).1 !! j =
       (fun w => if bool_decide (j ∈ walls_to_disable)
                 then wall.set_enabled w false else w) <$> walls !! j) /\
  (forall other,
     (forall i, i ∈ walls_to_disable <-> i ∈ other) ->
     disable_selected_walls other walls =
     disable_selected_walls walls_to_disable walls).
Proof.
  intros Hr. split; [by apply disable_in_range|].
  split; [intros j; by apply disable_lookup|].
  intros other Hset.
  assert (Forall (fun i => i < length walls) other) as Hr'.
  { rewrite Forall_forall in Hr |- *. intros i Hi. by apply Hr, Hset. }
  apply injective_projections.
  - apply list_eq. intros j. rewrite !disable_lookup by done.
    destruct (walls !! j); simpl; [|done]. f_equal.
    by rewrite (bool_decide_ext _ _ (Hset j)).
  - by rewrite !disable_in_range.
Qed.

(** X23.  Disabling and converting compose as expected: after the
    listed walls (all indices in range) have been disabled, the polygons
    handed to the construction are those of the walls that were enabled
    and are not listed. *)
Theorem disabled_walls_give_no_polygon (walls_to_disable : list nat)
    (walls : list wall) (q : PolygonSpatial) :
  Forall (fun i => i < length walls) walls_to_disable ->
  (q ∈ construct_polygonspatial_model
         (disable_selected_walls walls_to_disable walls).1) <->
  exists j w, walls !! j = Some w /\ wall.enabled w = true /\
              (j ∉ walls_to_disable) /\ q = wall_polygon w.
Proof.
  intros Hr. rewrite construct_polygonspatial_model_filter. split.
  - intros (w' & -> & Hw')%list_elem_of_fmap.
    apply list_elem_of_filter in Hw' as [Hen [j Hj]%list_elem_of_lookup_1].
    rewrite disable_lookup in Hj by done.
    destruct (walls !! j) as [w|] eqn:Hw; [|done]. simpl in Hj.
    case_bool_decide as Hin; simplify_eq.
    by exists j, w'.
  - intros (j & w & Hw & Hen & Hout & ->).
    apply list_elem_of_fmap. exists w. split; [done|].
    apply list_elem_of_filter. split; [done|].
    apply (list_elem_of_lookup_2 _ j).
    by rewrite disable_lookup, Hw, bool_decide_false.
Qed.
End DisableMore.

(** ** The first part of set_up_room_model as a whole *)

Lemma filter_all {A} (P : A -> Prop) `{!forall x, Decision (P x)}
    (l : list A) :
  (forall x, x ∈ l -> P x) -> filter P l = l.
Proof.
  induction l as [|a l IH]; intros Hall; [done|].
  rewrite filter_cons_True by (apply Hall; by left).
  f_equal. apply IH. intros x Hx. apply Hall. by right.
Qed.

Section Pipeline.
Context `{Splitter} `{Platform}.

Lemma build_BSP_accumulator_grows (fuel : nat) (walls : list wall)
    (polygons : list PolygonSpatial) (st : store) (nw : list ptr)
    (threshold : Q) r :
  build_BSP fuel walls polygons st nw threshold = Done r ->
  length nw <= length r.2 /\ (polygons <> [] -> length nw < length r.2).
Proof.
  apply (build_BSP_rule
           (fun ps _ nw r => length nw <= length r.2 /\
                             (ps <> [] -> length nw < length r.2))).
  - intros st0 nw0. simpl. split; [lia|done].
  - intros ps st0 nw0 ws st1 Hne _ Hc. simpl. rewrite length_app.
    apply construct_rtswall_model_nonempty in Hc; [|done].
    destruct ws; [done|]. simpl. lia.
  - intros ps st0 nw0 wall_id pw ws st1 f st2 nw2 k st3 nw3 _ _ _ _ Hc
      [Hf _] [Hk _]. cbn [fst snd] in *. rewrite length_app.
    apply construct_rtswall_model_nonempty in Hc; [|done].
    destruct ws; [done|]. simpl. lia.
Qed.

Lemma unify_direct_reflectables_done (m : plane_polygon_map) (h : heap) :
  Forall (fun g => g <> []) m ->
  exists h', unify_direct_reflectables m h = Done h'.
Proof.
  revert h. induction m as [|[|i0 rest] m IH]; intros h Hne.
  - by eauto.
  - by apply Forall_cons in Hne as [? _].
  - apply Forall_cons in Hne as [_ Hne]. simpl. by apply IH.
Qed.

(** X24.  A room whose walls are all disabled cannot be set up: the
    tree comes out empty, no wall is produced, and the plane-polygon
    map then reads the first element of an empty vector. *)
Theorem set_up_room_model_prefix_needs_enabled_wall (fuel : nat)
    (polygons : list wall) (h : heap) (threshold : Q) :
  Forall (fun w => wall.enabled w = false) polygons ->
  set_up_room_model_prefix (S fuel) polygons h threshold = Fault.
Proof.
  intros Hoff. unfold set_up_room_model_prefix.
  assert (construct_polygonspatial_model polygons = []) as ->; [|done].
  rewrite construct_polygonspatial_model_filter.
  assert (filter (fun w => wall.enabled w = true) polygons = []) as ->;
    [|done].
  induction Hoff as [|w l Hw _ IH]; [done|].
  rewrite filter_cons_False; [done|]. by rewrite Hw.
Qed.

(** X25.  With at least one enabled wall and fewer than 1000 produced
    walls per original wall, the steps compose: once the construction
    returns, the relabelling and the plane-polygon map run to
    completion, the groups of the map partition the produced walls
    (none is left out, none sits in two groups, no group is empty),
    every produced wall stores the index of its group, and the
    aggregation over this map cannot fault. *)
Theorem set_up_room_model_prefix_groups (fuel : nat) (polygons : list wall)
    (h : heap) (threshold : Q) tree h1 next1 pwalls_BSP :
  (exists w, w ∈ polygons /\ wall.enabled w = true) ->
  build_BSP fuel polygons (construct_polygonspatial_model polygons)
    (h, 0) [] threshold = Done (tree, (h1, next1), pwalls_BSP) ->
  (forall i,
     (children_before h1 pwalls_BSP (length pwalls_BSP) i < 1000)%Z) ->
  exists m h2,
    set_up_room_model_prefix fuel polygons h threshold =
      Done (tree, h2, pwalls_BSP, m) /\
    concat m ≡ₚ pwalls_BSP /\
    NoDup (concat m) /\
    Forall (fun g => g <> []) m /\
    (forall i g w, m !! i = Some g -> w ∈ g ->
       wall.plane_polygon_map_id (h2 w) = Z.of_nat i) /\
    (forall h', exists h'', unify_direct_reflectables m h' = Done h'').
Proof.
  intros (w0 & Hw0 & Hen0) Hrun Hlimit.
  pose proof (build_BSP_built_ok (fun _ => True)) as Hok.
  specialize (Hok ltac:(intros p pl b _ _; repeat split; by apply Forall_forall)).
  apply Hok in Hrun as Hbuilt; [|by apply Forall_forall]. clear Hok.
  destruct Hbuilt as (_ & _ & (added & Hadded & Hnd & Hrange) & Hwalls & _).
  simpl in Hadded. subst added.
  assert (pwalls_BSP <> []) as Hne.
  { apply build_BSP_accumulator_grows in Hrun as [_ Hgrow]. simpl in Hgrow.
    intros ->. simpl in Hgrow. enough (0 < 0) by lia. apply Hgrow.
    rewrite construct_polygonspatial_model_filter. intros Hnil.
    apply fmap_nil_inv in Hnil.
    assert (w0 ∈ filter (fun w => wall.enabled w = true) polygons) as Hin
      by (by apply list_elem_of_filter).
    rewrite Hnil in Hin. by apply elem_of_nil in Hin. }
  set (h1' := harmonise_identifiers (length polygons) pwalls_BSP h1).
  assert (NoDup (map (fun p => wall.id (h1' p)) pwalls_BSP)) as Hids.
  { apply harmonised_ids_distinct; [done| |done].
    intros j Hj. apply Hrange in Hj. by destruct (Hwalls j Hj) as (_ & ? & _). }
  destruct (create_plane_polygon_map_groups pwalls_BSP h1' Hne Hids)
    as (first_wall & rest & m & h2 & Hsort & Hmap & Hconcat & Hnonempty).
  exists m, h2.
  assert (concat m ≡ₚ pwalls_BSP) as Hperm.
  { rewrite Hconcat.
    assert (sort_by_id h1' pwalls_BSP ≡ₚ pwalls_BSP) as Hs
      by apply std_sort_perm.
    rewrite Hsort in Hs. rewrite <- Hs. f_equiv.
    rewrite filter_all; [done|]. intros p Hp.
    assert (p ∈ pwalls_BSP) as Hin by (rewrite <- Hs; by right).
    apply Hrange in Hin. destruct (Hwalls p Hin) as (_ & _ & Hen & _).
    pose proof (harmonise_fold_only_id (seq 0 (length polygons))
                  pwalls_BSP h1 p) as Hid.
    apply (f_equal wall.enabled) in Hid. simpl in Hid.
    unfold h1', harmonise_identifiers. by rewrite Hid. }
  split.
  { unfold set_up_room_model_prefix. rewrite Hrun. simpl.
    fold h1'. rewrite Hmap. done. }
  split; [done|]. split; [by rewrite Hperm|]. split; [done|].
  split.
  - by destruct (create_plane_polygon_map_grouped _ _ _ _ Hids Hmap)
      as (_ & _ & Hgid & _).
  - intros h'. by apply unify_direct_reflectables_done.
Qed.
End Pipeline.

(** * Trait generation *)

Import traits.

Section GenerateTraitsFacts.
Variable split : string -> list string.
Variable rng : Type.
Variable get_random_int : rng -> Z -> Z -> Z * rng.
Variable possible_traits : list config.
Variable max_traits : Z.
Variable can_recruit : bool.

Local Abbreviation is_candidate := (is_candidate split can_recruit).
Local Abbreviation candidate_traits :=
  (candidate_traits split possible_traits can_recruit).
Local Abbreviation fill_traits :=
  (fill_traits split rng get_random_int possible_traits can_recruit).
Local Abbreviation generate_traits :=
  (generate_traits split rng get_random_int possible_traits max_traits
     can_recruit).
Local Abbreviation added_in_turn :=
  (added_in_turn split possible_traits can_recruit).
Local Abbreviation trait_id := (fun t : config => t "id"%string).

Lemma has_trait_true (current_traits : list config) (s : string) :
  has_trait current_traits s = true <->
  exists m, m ∈ current_traits /\ m "id"%string = s.
Proof.
  unfold has_trait. rewrite existsb_exists. split.
  - intros (m & Hm%list_elem_of_In & Heq%String.eqb_eq). by exists m.
  - intros (m & Hm%list_elem_of_In & Heq%String.eqb_eq). by exists m.
Qed.

Lemma has_trait_false (current_traits : list config) (s : string) :
  has_trait current_traits s = false <->
  forall m, m ∈ current_traits -> m "id"%string <> s.
Proof.
  rewrite <- not_true_iff_false, has_trait_true. split.
  - intros Hno m Hm Heq. apply Hno. by exists m.
  - intros Hall (m & Hm & Heq). by apply (Hall m).
Qed.

Lemma elem_of_candidate_traits (must_have_only : bool)
    (current_traits : list config) (t : config) :
  t ∈ candidate_traits must_have_only current_traits <->
  t ∈ possible_traits /\
  has_trait current_traits (t "id"%string) = false /\
  trait_req_met split current_traits t = true /\
  trait_exc_met split current_traits t = true /\
  must_have_only = false /\
  (can_recruit = true -> t "availability"%string = "any"%string).
Proof.
  unfold traits.candidate_traits. rewrite list_elem_of_filter.
  unfold traits.is_candidate. rewrite !andb_true_iff, !negb_true_iff.
  rewrite orb_true_iff, negb_true_iff, String.eqb_eq.
  destruct can_recruit; intuition congruence.
Qed.

(** What a finished run of the loop has done. *)
Lemma fill_traits_added (must_have_only : bool) (n : nat)
    (modifications : list config) (g : rng) modifications' g' :
  fill_traits must_have_only n modifications g = Done (modifications', g') ->
  exists added,
    modifications' = modifications ++ added /\
    length added <= n /\
    added_in_turn must_have_only modifications added /\
    (length added < n -> candidate_traits must_have_only modifications' = []).
Proof.
  revert modifications g.
  induction n as [|n IH]; intros modifications g Hrun; simpl in Hrun.
  { simplify_eq. exists []. rewrite app_nil_r. simpl.
    repeat split; [lia|lia]. }
  destruct (candidate_traits must_have_only modifications)
    as [|c0 cs] eqn:Hcand.
  { simplify_eq. exists []. rewrite app_nil_r. simpl.
    repeat split; [lia|done]. }
  rewrite <- Hcand in Hrun.
  destruct (get_random_int g 0
              (Z.of_nat (length (candidate_traits must_have_only modifications))
               - 1)) as [num g1].
  destruct (0 <=? num)%Z; [|done].
  destruct (candidate_traits must_have_only modifications !! Z.to_nat num)
    as [t|] eqn:Ht; [|done].
  apply IH in Hrun as (added & -> & Hlen & Hturn & Hstop).
  exists (t :: added). rewrite <- app_assoc. simpl.
  repeat split; [lia| |done|].
  - by eapply list_elem_of_lookup_2.
  - intros Hlt. rewrite <- app_assoc in Hstop. apply Hstop. lia.
Qed.

Lemma added_in_turn_at (must_have_only : bool) (current_traits : list config)
    (pre : list config) (t : config) (post : list config) :
  added_in_turn must_have_only current_traits (pre ++ t :: post) ->
  t ∈ candidate_traits must_have_only (current_traits ++ pre).
Proof.
  revert current_traits.
  induction pre as [|a pre IH]; intros current_traits; simpl.
  - intros [Ht _]. by rewrite app_nil_r.
  - intros [_ Hrest]. apply IH in Hrest. by rewrite <- app_assoc in Hrest.
Qed.

Lemma generate_traits_done (must_have_only : bool) (nb_traits : Z)
    (modifications : list config) (g : rng) u g' :
  generate_traits must_have_only nb_traits modifications g = Done (u, g') ->
  random_traits_ u = false /\
  fill_traits must_have_only (Z.to_nat (max_traits - nb_traits))
    modifications g = Done (modifications_traits u, g').
Proof.
  unfold traits.generate_traits.
  destruct (fill_traits must_have_only (Z.to_nat (max_traits - nb_traits))
              modifications g) as [[m1 g1]| |]; simpl; [|done..].
  by intros [= <- <-].
Qed.

(** The traits a run added, seen from the final list. *)
Lemma generate_traits_added_at (must_have_only : bool) (nb_traits : Z)
    (modifications : list config) (g : rng) u g' pre t post :
  generate_traits must_have_only nb_traits modifications g = Done (u, g') ->
  modifications_traits u = pre ++ t :: post ->
  length modifications <= length pre ->
  t ∈ candidate_traits must_have_only pre.
Proof.
  intros [_ Hrun]%generate_traits_done Hsplit Hlen.
  apply fill_traits_added in Hrun as (added & Hmods & _ & Hturn & _).
  rewrite Hsplit in Hmods.
  assert (pre = modifications ++ drop (length modifications) pre /\
          added = drop (length modifications) pre ++ t :: post) as [Hpre ->].
  { assert (take (length modifications) (pre ++ t :: post) = modifications)
      as Htake by (by rewrite Hmods, take_app_length).
    rewrite take_app_le in Htake by done.
    assert (pre = modifications ++ drop (length modifications) pre) as Hpre.
    { by rewrite <- Htake at 1; rewrite take_drop. }
    split; [done|]. rewrite Hpre, <- app_assoc in Hmods at 1.
    by apply app_inv_head in Hmods. }
  apply added_in_turn_at in Hturn. by rewrite <- Hpre in Hturn.
Qed.

(** X26.  A finished run keeps the traits the unit had and appends to
    them: at most [max_traits - nb_traits] traits, each one of the
    possible traits of the unit type; it clears [random_traits_].  With
    [must_have_only] nothing is appended, and a unit that can recruit
    only receives traits of availability [any]. *)
Theorem generate_traits_appends (must_have_only : bool) (nb_traits : Z)
    (modifications : list config) (g : rng) u g' :
  generate_traits must_have_only nb_traits modifications g = Done (u, g') ->
  random_traits_ u = false /\
  exists added,
    modifications_traits u = modifications ++ added /\
    (Z.of_nat (length added) <= Z.max 0 (max_traits - nb_traits))%Z /\
    Forall (fun t => t ∈ possible_traits) added /\
    (must_have_only = true -> added = []) /\
    (can_recruit = true ->
     Forall (fun t => t "availability"%string = "any"%string) added).
Proof.
  intros [Hflag Hrun]%generate_traits_done. split; [done|].
  apply fill_traits_added in Hrun as (added & Hmods & Hlen & Hturn & _).
  exists added. split; [done|]. split; [lia|].
  clear Hmods Hlen. revert modifications Hturn.
  induction added as [|t added IH]; intros modifications Hturn.
  { by repeat split. }
  destruct Hturn as [Ht Hturn].
  apply elem_of_candidate_traits in Ht as (Hposs & _ & _ & _ & Hmho & Havl).
  destruct (IH _ Hturn) as (Hall & _ & Hany).
  split; [by constructor|]. split; [by rewrite Hmho|].
  intros Hrec. constructor; [by apply Havl|by apply Hany].
Qed.

(** X27.  The loop only stops short of the requested number of traits
    when no possible trait qualifies any more for the unit as it then
    is. *)
Theorem generate_traits_stops_when_exhausted (must_have_only : bool)
    (nb_traits : Z) (modifications : list config) (g : rng) u g' :
  generate_traits must_have_only nb_traits modifications g = Done (u, g') ->
  (Z.of_nat (length (modifications_traits u))
     < Z.of_nat (length modifications) + (max_traits - nb_traits))%Z ->
  candidate_traits must_have_only (modifications_traits u) = [].
Proof.
  intros [_ Hrun]%generate_traits_done Hshort.
  apply fill_traits_added in Hrun as (added & Hmods & _ & _ & Hstop).
  apply Hstop. rewrite Hmods, length_app in Hshort. lia.
Qed.

(** X28.  No trait is given twice: if the ids of the traits the unit
    had are pairwise distinct, so are the ids of the traits it has
    afterwards. *)
Theorem generate_traits_no_duplicate_ids (must_have_only : bool)
    (nb_traits : Z) (modifications : list config) (g : rng) u g' :
  generate_traits must_have_only nb_traits modifications g = Done (u, g') ->
  NoDup (map trait_id modifications) ->
  NoDup (map trait_id (modifications_traits u)).
Proof.
  intros [_ Hrun]%generate_traits_done.
  apply fill_traits_added in Hrun as (added & -> & _ & Hturn & _).
  revert modifications Hturn.
  induction added as [|t added IH]; intros modifications Hturn Hnd.
  { by rewrite app_nil_r. }
  destruct Hturn as [Ht Hturn].
  apply elem_of_candidate_traits in Ht as (_ & Hnew & _).
  rewrite (cons_middle t), app_assoc. apply IH; [done|].
  rewrite map_app. apply NoDup_app. split; [done|]. split.
  - intros s (m & -> & Hm)%list_elem_of_fmap Hs.
    apply list_elem_of_singleton in Hs.
    rewrite has_trait_false in Hnew. by apply (Hnew m).
  - apply NoDup_singleton.
Qed.

(** X29.  Prerequisites and exclusions hold for every trait the run
    added, against the traits in front of it in the final list: every
    id the trait requires is the id of one of them; none of them has an
    id the trait excludes, and the trait does not exclude itself; and
    none of them excludes the trait. *)
Theorem generate_traits_respects_requirements (must_have_only : bool)
    (nb_traits : Z) (modifications : list config) (g : rng) u g' pre t post :
  generate_traits must_have_only nb_traits modifications g = Done (u, g') ->
  modifications_traits u = pre ++ t :: post ->
  length modifications <= length pre ->
  (forall s, s ∈ split (t "require_traits"%string) ->
     exists m, m ∈ pre /\ m "id"%string = s) /\
  (forall s, s ∈ split (t "exclude_traits"%string) ->
     s <> t "id"%string /\ forall m, m ∈ pre -> m "id"%string <> s) /\
  (forall m, m ∈ pre ->
     m "exclude_traits"%string <> String.EmptyString ->
     t "id"%string ∉ split (m "exclude_traits"%string)).
Proof.
  intros Hrun Hsplit Hlen.
  pose proof (generate_traits_added_at _ _ _ _ _ _ _ _ _ Hrun Hsplit Hlen)
    as Ht.
  apply elem_of_candidate_traits in Ht as (_ & _ & Hreq & Hexc & _).
  unfold trait_req_met in Hreq. unfold trait_exc_met in Hexc.
  rewrite forallb_forall in Hreq, Hexc.
  assert (forall s, s ∈ temp_exclude_traits split pre t ->
            s <> t "id"%string /\ forall m, m ∈ pre -> m "id"%string <> s)
    as Hexc'.
  { intros s Hs%list_elem_of_In. specialize (Hexc s Hs).
    apply negb_true_iff, orb_false_iff in Hexc as [Hhas Hself].
    apply String.eqb_neq in Hself. rewrite has_trait_false in Hhas.
    by split. }
  split; [|split].
  - intros s Hs%list_elem_of_In. apply has_trait_true. by apply Hreq.
  - intros s Hs. apply Hexc'. unfold temp_exclude_traits.
    apply elem_of_app. by left.
  - intros m Hm Hset Hin.
    destruct (Hexc' (t "id"%string)) as [Hself _]; [|done].
    unfold temp_exclude_traits. apply elem_of_app. right.
    apply list_elem_of_In, in_flat_map. exists m.
    split; [by apply list_elem_of_In|].
    apply String.eqb_neq in Hset. rewrite Hset. by apply list_elem_of_In.
Qed.

(** X30.  With a generator that keeps to the range it is asked for, the
    index into [candidate_traits] is always valid and the function runs
    to completion. *)
Theorem generate_traits_completes (must_have_only : bool) (nb_traits : Z)
    (modifications : list config) (g : rng) :
  generator_in_range rng get_random_int ->
  exists u g',
    generate_traits must_have_only nb_traits modifications g = Done (u, g').
Proof.
  intros Hrange.
  assert (forall n mods g0, exists mods' g1,
            fill_traits must_have_only n mods g0 = Done (mods', g1)) as Hfill.
  { induction n as [|n IH]; intros mods g0; simpl; [by eauto|].
    destruct (candidate_traits must_have_only mods) as [|c0 cs] eqn:Hcand;
      [by eauto|].
    rewrite <- Hcand.
    assert (0 < length (candidate_traits must_have_only mods)) as Hpos
      by (rewrite Hcand; simpl; lia).
    pose proof (Hrange g0 0%Z
      (Z.of_nat (length (candidate_traits must_have_only mods)) - 1)%Z
      ltac:(lia)) as Hnum.
    destruct (get_random_int g0 0
                (Z.of_nat (length (candidate_traits must_have_only mods)) - 1))
      as [num g1]. simpl in Hnum.
    rewrite (proj2 (Z.leb_le 0 num)) by lia.
    destruct (lookup_lt_is_Some_2 (candidate_traits must_have_only mods)
                (Z.to_nat num) ltac:(lia)) as [t ->].
    apply IH. }
  unfold traits.generate_traits.
  destruct (Hfill (Z.to_nat (max_traits - nb_traits)) modifications g)
    as (mods' & g1 & ->).
  simpl. by eauto.
Qed.
End GenerateTraitsFacts.

(** * The further properties on concrete rooms and units *)

Lemma fixture_fragments_stay_convertible (walls : list wall) :
  fragments_stay_convertible walls.
Proof.
  intros p pl b [Hpts Hpar] (Ha & Ho & Hb). unfold buckets_all.
  assert (forall s s', s <> s' ->
            existsb (fun pt => Side_eqb (whichSide pl pt) s') (points p) = true ->
            convertible walls (Fixture.keep_side s pl p)) as Hkeep.
  { intros s s' Hss (x & Hx%list_elem_of_In & Hside)%existsb_exists.
    split; [|done]. unfold Fixture.keep_side. cbn [points]. intros Hnil.
    assert (x ∈ filter (fun pt => negb (Side_eqb (whichSide pl pt) s))
                  (points p)) as Hin.
    { apply list_elem_of_filter. split; [|done].
      by destruct (whichSide pl x), s, s'. }
    rewrite Hnil in Hin. by apply elem_of_nil in Hin. }
  cbn [split Fixture.Z_splitter].
  destruct (existsb (fun pt => Side_eqb (whichSide pl pt) ABOVE) (points p))
    eqn:Hup;
    destruct (existsb (fun pt => Side_eqb (whichSide pl pt) BELOW) (points p))
      eqn:Hdown; cbn [above on below];
    rewrite ?Forall_app, ?Forall_singleton; split_and!; try done.
  - by apply (Hkeep BELOW ABOVE).
  - by apply (Hkeep ABOVE BELOW).
Qed.

Lemma build_BSP_tree_and_accumulator_witness :
  exists tree h1 next1 new_walls1,
    build_BSP 3 Fixture.crossing3
      (construct_polygonspatial_model Fixture.crossing3)
      (Fixture.empty_heap, 0) [] 1 = Done (tree, (h1, next1), new_walls1) /\
    exists added,
      new_walls1 = [] ++ added /\
      added ≡ₚ tree_walls tree /\
      NoDup added /\
      (forall p, p ∈ added <-> 0 <= p < next1) /\
      (forall p, ~ (0 <= p < next1) -> h1 p = Fixture.empty_heap p).
Proof.
  destruct (build_BSP 3 Fixture.crossing3
              (construct_polygonspatial_model Fixture.crossing3)
              (Fixture.empty_heap, 0) [] 1)
    as [[[tree [h1 next1]] new_walls1]| |] eqn:Hrun.
  - exists tree, h1, next1, new_walls1. split; [done|].
    apply (build_BSP_tree_and_accumulator _ _ _ _ _ _ _ _ _ _ _ Hrun).
  - vm_compute in Hrun. discriminate.
  - vm_compute in Hrun. discriminate.
Defined.

Lemma build_BSP_node_shape_witness :
  exists tree st1 new_walls1,
    build_BSP 3 Fixture.crossing3
      (construct_polygonspatial_model Fixture.crossing3)
      (Fixture.empty_heap, 0) [] 1 = Done (tree, st1, new_walls1) /\
    (tree = None <-> construct_polygonspatial_model Fixture.crossing3 = []) /\
    forall x, x ∈ tree_nodes tree ->
      node_walls x <> [] /\
      (leaf_node x = true -> front x = None /\ back x = None).
Proof.
  destruct (build_BSP 3 Fixture.crossing3
              (construct_polygonspatial_model Fixture.crossing3)
              (Fixture.empty_heap, 0) [] 1)
    as [[[tree st1] new_walls1]| |] eqn:Hrun.
  - exists tree, st1, new_walls1. split; [done|].
    apply (build_BSP_node_shape _ _ _ _ _ _ _ _ _ Hrun).
  - vm_compute in Hrun. discriminate.
  - vm_compute in Hrun. discriminate.
Defined.

Lemma traverseTree_bounds_witness :
  exists tree st1 new_walls1,
    build_BSP 3 Fixture.floor_and_fin
      (construct_polygonspatial_model Fixture.floor_and_fin)
      (Fixture.empty_heap, 0) [] 1 = Done (tree, st1, new_walls1) /\
    (traverseTree tree = 0%Z <->
     construct_polygonspatial_model Fixture.floor_and_fin = []) /\
    (0 <= traverseTree tree <= Z.of_nat (length (tree_walls tree)))%Z.
Proof.
  destruct (build_BSP 3 Fixture.floor_and_fin
              (construct_polygonspatial_model Fixture.floor_and_fin)
              (Fixture.empty_heap, 0) [] 1)
    as [[[tree st1] new_walls1]| |] eqn:Hrun.
  - exists tree, st1, new_walls1. split; [done|].
    apply (traverseTree_bounds _ _ _ _ _ _ _ _ _ Hrun).
  - vm_compute in Hrun. discriminate.
  - vm_compute in Hrun. discriminate.
Defined.

Lemma select_splitter_threshold_zero_witness :
  exists w row,
    select_splitter (construct_polygonspatial_model Fixture.floor_and_fin) 0
      = Some w /\
    r_p_table (measures (construct_polygonspatial_model Fixture.floor_and_fin))
      !! w = Some row /\
    forall c r,
      r_p_table (measures (construct_polygonspatial_model Fixture.floor_and_fin))
        !! c = Some r ->
      (0 <= rp_score r)%Q /\ rp_cross row <= rp_cross r.
Proof.
  apply (select_splitter_threshold_zero
           (construct_polygonspatial_model Fixture.floor_and_fin) 0).
  - simpl. discriminate.
  - vm_compute. discriminate.
Defined.

Lemma select_splitter_threshold_above_one_witness :
  exists w row,
    select_splitter (construct_polygonspatial_model Fixture.crossing3) 2
      = Some w /\
    r_p_table (measures (construct_polygonspatial_model Fixture.crossing3))
      !! w = Some row /\
    forall c r,
      r_p_table (measures (construct_polygonspatial_model Fixture.crossing3))
        !! c = Some r ->
      (rp_score r < 2)%Q /\
      (deviation 2 row <= deviation 2 r)%Q /\
      ((rp_score row < rp_score r)%Q -> deviation 2 r == deviation 2 row).
Proof.
  apply (select_splitter_threshold_above_one
           (construct_polygonspatial_model Fixture.crossing3) 2).
  - simpl. discriminate.
  - vm_compute. reflexivity.
Defined.

Lemma build_BSP_no_fault_witness :
  build_BSP 2 Fixture.crossing3
    (construct_polygonspatial_model Fixture.crossing3)
    (Fixture.empty_heap, 0) [] 1 <> Fault.
Proof.
  apply (build_BSP_no_fault 2 Fixture.crossing3
           (construct_polygonspatial_model Fixture.crossing3)
           (Fixture.empty_heap, 0) [] 1).
  - apply fixture_fragments_stay_convertible.
  - repeat constructor; simpl; (discriminate || lia).
Defined.

Lemma wall_polygon_round_trip_witness :
  exists w',
    rtswall_of Fixture.box_sides
      (wall_polygon
         (Fixture.input_wall 1
            [Fixture.pt 1 0 0; Fixture.pt 1 1 0; Fixture.pt 1 1 1;
             Fixture.pt 1 0 1] (-1) 0 0 (-1) true)) = Done w' /\
    wall.corners w' =
      [Fixture.pt 1 0 0; Fixture.pt 1 1 0; Fixture.pt 1 1 1; Fixture.pt 1 0 1] /\
    wall.parent w' = Some 1 /\ wall.id w' = 10000%Z.
Proof.
  destruct (wall_polygon_round_trip Fixture.box_sides 1
              (Fixture.input_wall 1
                 [Fixture.pt 1 0 0; Fixture.pt 1 1 0; Fixture.pt 1 1 1;
                  Fixture.pt 1 0 1] (-1) 0 0 (-1) true))
    as (w' & Hrun & Hcorners & _ & _ & _ & _ & _ & Hparent & _ & _ & _ & Hid).
  - reflexivity.
  - reflexivity.
  - simpl. discriminate.
  - exists w'. split; [done|]. split; [done|]. split; [done|].
    apply Hid. simpl. lia.
Defined.

Lemma build_BSP_ids_before_harmonising_witness :
  exists tree h1 next1 pwalls_BSP,
    build_BSP 3 Fixture.crossing3
      (construct_polygonspatial_model Fixture.crossing3)
      (Fixture.empty_heap, 0) [] 1 = Done (tree, (h1, next1), pwalls_BSP) /\
    (forall j, j ∈ pwalls_BSP ->
       wall.id (h1 j) = ((wall.parent_id (h1 j) * 10000) mod 2 ^ 32)%Z /\
       ((wall.parent_id (h1 j) < 429497)%Z ->
        wall.id (h1 j) = (wall.parent_id (h1 j) * 10000)%Z)) /\
    (forall j1 j2, j1 ∈ pwalls_BSP -> j2 ∈ pwalls_BSP ->
       wall.parent_id (h1 j1) = wall.parent_id (h1 j2) ->
       wall.id (h1 j1) = wall.id (h1 j2)).
Proof.
  destruct (build_BSP 3 Fixture.crossing3
              (construct_polygonspatial_model Fixture.crossing3)
              (Fixture.empty_heap, 0) [] 1)
    as [[[tree [h1 next1]] pwalls_BSP]| |] eqn:Hrun.
  - exists tree, h1, next1, pwalls_BSP. split; [done|].
    apply (build_BSP_ids_before_harmonising _ _ _ _ _ _ _ _ _ _ Hrun).
  - vm_compute in Hrun. discriminate.
  - vm_compute in Hrun. discriminate.
Defined.

Lemma children_before_le_length `{Scalar} (h : heap) (pw : list ptr)
    (k : nat) (i : Z) :
  (children_before h pw k i <= Z.of_nat (length pw))%Z.
Proof.
  unfold children_before.
  pose proof (length_filter (fun j => wall.parent_id (h j) = i) (take k pw)).
  pose proof (length_take_le pw k). rewrite length_take in *. lia.
Qed.

Lemma harmonise_identifiers_idempotent_witness :
  harmonise_identifiers 1 [0; 1]
    (harmonise_identifiers 1 [0; 1] Fixture.two_fragments) 1 =
  harmonise_identifiers 1 [0; 1] Fixture.two_fragments 1.
Proof.
  apply (harmonise_identifiers_idempotent 1 [0; 1] Fixture.two_fragments).
  apply NoDup_cons. split; [|apply NoDup_singleton].
  rewrite list_elem_of_singleton. lia.
Defined.

Lemma harmonise_identifiers_distinct_witness :
  wall.id (harmonise_identifiers 1 [0; 1] Fixture.two_fragments 0) <>
  wall.id (harmonise_identifiers 1 [0; 1] Fixture.two_fragments 1).
Proof.
  intros Heq.
  assert (0 = 1) as Hk; [|discriminate Hk].
  apply (harmonise_identifiers_distinct 1 [0; 1] Fixture.two_fragments)
    with (j1 := 0) (j2 := 1); [| | |reflexivity|reflexivity|exact Heq].
  - apply NoDup_cons. split; [|apply NoDup_singleton].
    rewrite list_elem_of_singleton. lia.
  - intros j Hj. apply elem_of_cons in Hj as [->|Hj]; [simpl; lia|].
    apply list_elem_of_singleton in Hj as ->. simpl. lia.
  - intros i. pose proof (children_before_le_length Fixture.two_fragments
                            [0; 1] (length [0; 1]) i) as Hle.
    simpl in Hle. simpl. lia.
Defined.

Lemma place_wall_first_match_witness :
  place_wall (length [[0]] + 2) 1 0 [[0]] Fixture.two_planes =
    Done (match first_match_from Fixture.two_planes 1 0 [[0]] with
          | Some j => (alter (fun g => g ++ [1]) j [[0]],
                       assign_group Fixture.two_planes 1 j)
          | None => ([[0]] ++ [[1]],
                     assign_group Fixture.two_planes 1 (length [[0]]))
          end).
Proof.
  apply (place_wall_first_match 1 [[0]] Fixture.two_planes).
  - by repeat constructor.
  - discriminate.
  - intros p Hp. simpl in Hp. apply list_elem_of_singleton in Hp as ->.
    simpl. lia.
Defined.

Lemma create_plane_polygon_map_group_ids_witness :
  exists m' h',
    create_plane_polygon_map [2; 0; 1] [] Fixture.first_disabled
      = Done (m', h') /\
    forall i g w, m' !! i = Some g -> w ∈ g ->
      wall.plane_polygon_map_id (h' w) = Z.of_nat i.
Proof.
  destruct (create_plane_polygon_map [2; 0; 1] [] Fixture.first_disabled)
    as [[m' h']| |] eqn:Hrun.
  - exists m', h'. split; [done|].
    apply (create_plane_polygon_map_group_ids [2; 0; 1]
             Fixture.first_disabled m' h'); [|done].
    simpl. repeat (apply NoDup_cons; split);
      rewrite ?elem_of_cons, ?elem_of_nil; [lia..|apply NoDup_nil_2].
  - vm_compute in Hrun. discriminate.
  - vm_compute in Hrun. discriminate.
Defined.

Lemma create_plane_polygon_map_coplanar_witness :
  exists m' h',
    create_plane_polygon_map [1; 0] [] Fixture.two_planes = Done (m', h') /\
    (forall rep members w, (rep :: members) ∈ m' -> w ∈ members ->
       same_normal (Fixture.two_planes w) (Fixture.two_planes rep) = true) /\
    (forall i j ri gi rj gj, i < j ->
       m' !! i = Some (ri :: gi) -> m' !! j = Some (rj :: gj) ->
       same_normal (Fixture.two_planes rj) (Fixture.two_planes ri) = false).
Proof.
  destruct (create_plane_polygon_map [1; 0] [] Fixture.two_planes)
    as [[m' h']| |] eqn:Hrun.
  - exists m', h'. split; [done|].
    apply (create_plane_polygon_map_coplanar [1; 0]
             Fixture.two_planes m' h'); [|done].
    simpl. repeat (apply NoDup_cons; split);
      rewrite ?elem_of_cons, ?elem_of_nil; [lia..|apply NoDup_nil_2].
  - vm_compute in Hrun. discriminate.
  - vm_compute in Hrun. discriminate.
Defined.

Lemma create_plane_polygon_map_grows_witness :
  exists m' h',
    create_plane_polygon_map [0; 1] [[0]; [1]] Fixture.two_planes
      = Done (m', h') /\
    length [[0]; [1]] < length m' /\ map_extends [[0]; [1]] m'.
Proof.
  destruct (create_plane_polygon_map [0; 1] [[0]; [1]] Fixture.two_planes)
    as [[m' h']| |] eqn:Hrun.
  - exists m', h'. split; [done|].
    apply (create_plane_polygon_map_grows _ _ _ _ _ Hrun).
  - vm_compute in Hrun. discriminate.
  - vm_compute in Hrun. discriminate.
Defined.

Lemma create_plane_polygon_map_writes_group_ids_only_witness :
  exists m' h',
    create_plane_polygon_map [1; 2] [] Fixture.first_disabled
      = Done (m', h') /\
    same_but_group Fixture.first_disabled h' /\
    forall p, p ∉ [1; 2] -> p ∉ concat [] ->
      h' p = Fixture.first_disabled p.
Proof.
  destruct (create_plane_polygon_map [1; 2] [] Fixture.first_disabled)
    as [[m' h']| |] eqn:Hrun.
  - exists m', h'. split; [done|].
    apply (create_plane_polygon_map_writes_group_ids_only _ _ _ _ _ Hrun).
  - vm_compute in Hrun. discriminate.
  - vm_compute in Hrun. discriminate.
Defined.

Lemma unify_direct_reflectables_idempotent_witness :
  exists h1 h2,
    unify_direct_reflectables [[0; 1]] Fixture.two_fragments = Done h1 /\
    unify_direct_reflectables [[0; 1]] h1 = Done h2 /\
    forall p, h2 p = h1 p.
Proof.
  destruct (unify_direct_reflectables [[0; 1]] Fixture.two_fragments)
    as [h1| |] eqn:Hrun.
  - destruct (unify_direct_reflectables_idempotent [[0; 1]]
                Fixture.two_fragments h1) as (h2 & Hrun2 & Hsame).
    + by repeat constructor.
    + simpl. apply NoDup_cons. split; [|apply NoDup_singleton].
      rewrite list_elem_of_singleton. lia.
    + done.
    + by exists h1, h2.
  - vm_compute in Hrun. discriminate.
  - vm_compute in Hrun. discriminate.
Defined.

Lemma disable_selected_walls_in_range_witness :
  (disable_selected_walls [3; 1; 3] Fixture.box_sides).2 = None /\
  disable_selected_walls [1; 3] Fixture.box_sides =
    disable_selected_walls [3; 1; 3] Fixture.box_sides.
Proof.
  destruct (disable_selected_walls_in_range [3; 1; 3] Fixture.box_sides)
    as (Hnone & _ & Hsame).
  - repeat constructor; simpl; lia.
  - split; [done|]. apply Hsame. intros i.
    rewrite !elem_of_cons, !elem_of_nil. tauto.
Defined.

Lemma disabled_walls_give_no_polygon_witness :
  wall_polygon
    (Fixture.input_wall 0
       [Fixture.pt 0 0 0; Fixture.pt 0 1 0; Fixture.pt 0 1 1; Fixture.pt 0 0 1]
       1 0 0 0 true)
  ∈ construct_polygonspatial_model
      (disable_selected_walls [1; 3] Fixture.box_sides).1.
Proof.
  apply (disabled_walls_give_no_polygon [1; 3] Fixture.box_sides).
  - repeat constructor; simpl; lia.
  - exists 0. eexists. split; [reflexivity|]. split; [reflexivity|].
    split; [|reflexivity]. rewrite !elem_of_cons, elem_of_nil. lia.
Defined.

Lemma set_up_room_model_prefix_needs_enabled_wall_witness :
  set_up_room_model_prefix 3
    (disable_selected_walls [0; 1; 2] Fixture.crossing3).1
    Fixture.empty_heap 1 = Fault.
Proof.
  apply (set_up_room_model_prefix_needs_enabled_wall 2
           (disable_selected_walls [0; 1; 2] Fixture.crossing3).1
           Fixture.empty_heap 1).
  simpl. by repeat constructor.
Defined.

Lemma set_up_room_model_prefix_groups_witness :
  exists tree pwalls_BSP m h2,
    set_up_room_model_prefix 3 Fixture.crossing3 Fixture.empty_heap 1 =
      Done (tree, h2, pwalls_BSP, m) /\
    concat m ≡ₚ pwalls_BSP /\
    NoDup (concat m) /\
    Forall (fun g => g <> []) m /\
    (forall i g w, m !! i = Some g -> w ∈ g ->
       wall.plane_polygon_map_id (h2 w) = Z.of_nat i) /\
    (forall h', exists h'', unify_direct_reflectables m h' = Done h'').
Proof.
  destruct (build_BSP 3 Fixture.crossing3
              (construct_polygonspatial_model Fixture.crossing3)
              (Fixture.empty_heap, 0) [] 1)
    as [[[tree [h1 next1]] pwalls_BSP]| |] eqn:Hrun.
  - destruct (set_up_room_model_prefix_groups 3 Fixture.crossing3
                Fixture.empty_heap 1 tree h1 next1 pwalls_BSP)
      as (m & h2 & Hdone).
    + eexists. split; [by left|reflexivity].
    + done.
    + intros i.
      pose proof (children_before_le_length h1 pwalls_BSP
                    (length pwalls_BSP) i) as Hle.
      assert (length pwalls_BSP = 7) as Hlen.
      { pose proof Hrun as Hc. vm_compute in Hc.
        by injection Hc as _ _ _ <-. }
      lia.
    + by exists tree, pwalls_BSP, m, h2.
  - vm_compute in Hrun. discriminate.
  - vm_compute in Hrun. discriminate.
Defined.

(** ** Trait generation on the small unit type *)

Lemma counting_in_range : generator_in_range nat TraitFixture.counting.
Proof.
  intros g lo hi Hle. unfold TraitFixture.counting. simpl.
  pose proof (Z.mod_pos_bound (Z.of_nat g) (hi - lo + 1) ltac:(lia)). lia.
Qed.

Lemma generate_traits_appends_witness :
  exists u g',
    generate_traits TraitFixture.split_commas nat TraitFixture.counting
      TraitFixture.possible 5 true false 0 [] 2 = Done (u, g') /\
    random_traits_ u = false /\
    exists added,
      modifications_traits u = [] ++ added /\
      (Z.of_nat (length added) <= Z.max 0 (5 - 0))%Z /\
      Forall (fun t => t ∈ TraitFixture.possible) added /\
      (false = true -> added = []) /\
      (true = true ->
       Forall (fun t => t "availability"%string = "any"%string) added).
Proof.
  destruct (generate_traits TraitFixture.split_commas nat TraitFixture.counting
              TraitFixture.possible 5 true false 0 [] 2)
    as [[u g']| |] eqn:Hrun.
  - exists u, g'. split; [done|].
    apply (generate_traits_appends _ _ _ _ _ _ _ _ _ _ _ _ Hrun).
  - vm_compute in Hrun. discriminate.
  - vm_compute in Hrun. discriminate.
Defined.

Lemma generate_traits_stops_when_exhausted_witness :
  candidate_traits TraitFixture.split_commas TraitFixture.possible false false
    [TraitFixture.slow; TraitFixture.dim; TraitFixture.strong;
     TraitFixture.fearless] = [].
Proof.
  apply (generate_traits_stops_when_exhausted TraitFixture.split_commas nat
           TraitFixture.counting TraitFixture.possible 5 false false 0 [] 0
           (mk_unit_traits
              [TraitFixture.slow; TraitFixture.dim; TraitFixture.strong;
               TraitFixture.fearless] false) 4).
  - vm_compute. reflexivity.
  - simpl. lia.
Defined.

Lemma generate_traits_no_duplicate_ids_witness :
  exists u g',
    generate_traits TraitFixture.split_commas nat TraitFixture.counting
      TraitFixture.possible 5 false false 1 [TraitFixture.quick] 0
      = Done (u, g') /\
    NoDup (map (fun t : config => t "id"%string) (modifications_traits u)).
Proof.
  destruct (generate_traits TraitFixture.split_commas nat TraitFixture.counting
              TraitFixture.possible 5 false false 1 [TraitFixture.quick] 0)
    as [[u g']| |] eqn:Hrun.
  - exists u, g'. split; [done|].
    apply (generate_traits_no_duplicate_ids _ _ _ _ _ _ _ _ _ _ _ _ Hrun).
    simpl. apply NoDup_singleton.
  - vm_compute in Hrun. discriminate.
  - vm_compute in Hrun. discriminate.
Defined.

Lemma generate_traits_respects_requirements_witness :
  (forall s,
     s ∈ TraitFixture.split_commas (TraitFixture.fearless "require_traits"%string) ->
     exists m, m ∈ [TraitFixture.quick; TraitFixture.strong] /\
               m "id"%string = s) /\
  (forall s,
     s ∈ TraitFixture.split_commas (TraitFixture.fearless "exclude_traits"%string) ->
     s <> TraitFixture.fearless "id"%string /\
     forall m, m ∈ [TraitFixture.quick; TraitFixture.strong] ->
               m "id"%string <> s) /\
  (forall m, m ∈ [TraitFixture.quick; TraitFixture.strong] ->
     m "exclude_traits"%string <> String.EmptyString ->
     TraitFixture.fearless "id"%string
       ∉ TraitFixture.split_commas (m "exclude_traits"%string)).
Proof.
  apply (generate_traits_respects_requirements TraitFixture.split_commas nat
           TraitFixture.counting TraitFixture.possible 5 false false 1
           [TraitFixture.quick] 0
           (mk_unit_traits
              [TraitFixture.quick; TraitFixture.strong; TraitFixture.fearless]
              false) 2
           [TraitFixture.quick; TraitFixture.strong] TraitFixture.fearless []).
  - vm_compute. reflexivity.
  - reflexivity.
  - simpl. lia.
Defined.

Lemma generate_traits_completes_witness :
  exists u g',
    generate_traits TraitFixture.split_commas nat TraitFixture.counting
      TraitFixture.possible 3 false false 0 [] 1 = Done (u, g').
Proof.
  apply (generate_traits_completes TraitFixture.split_commas nat
           TraitFixture.counting TraitFixture.possible 3 false false 0 [] 1).
  apply counting_in_range.
Defined.

(** ** The unconditional properties at a glance *)

Lemma balance_score_range_witness :
  (0 <= balance 1 3 <= 1)%Q /\ (balance 2 2 == 1)%Q.
Proof.
  split.
  - apply (balance_score_range 1 3).
  - destruct (balance_score_range 2 2) as (_ & _ & Heven).
    apply Heven; [reflexivity|lia].
Defined.

Lemma measures_rows_witness :
  length (measures (construct_polygonspatial_model Fixture.crossing3)) = 3 /\
  forall i tid nb nf nc,
    measures (construct_polygonspatial_model Fixture.crossing3) !! i
      = Some (tid, nb, nf, nc) ->
    tid = i /\ nb + nf + nc = 3 - 1.
Proof.
  apply (measures_rows (construct_polygonspatial_model Fixture.crossing3)).
Defined.

Lemma select_splitter_in_bounds_witness :
  exists wall_id partition_wall,
    select_splitter (construct_polygonspatial_model Fixture.crossing3) 1
      = Some wall_id /\
    construct_polygonspatial_model Fixture.crossing3 !! wall_id
      = Some partition_wall.
Proof.
  destruct (select_splitter_in_bounds
              (construct_polygonspatial_model Fixture.crossing3) 1)
    as [_ Hsome].
  apply Hsome. simpl. discriminate.
Defined.

Lemma harmonise_identifiers_writes_ids_only_witness :
  harmonise_identifiers 1 [0; 1] Fixture.two_fragments 5 =
    Fixture.two_fragments 5.
Proof.
  destruct (harmonise_identifiers_writes_ids_only 1 [0; 1]
              Fixture.two_fragments 5) as (_ & Hout & _).
  apply Hout. rewrite !elem_of_cons, elem_of_nil. lia.
Defined.

Lemma unify_direct_reflectables_fault_witness :
  unify_direct_reflectables [[0; 1]; []] Fixture.two_fragments = Fault.
Proof.
  destruct (unify_direct_reflectables_fault [[0; 1]; []]
              Fixture.two_fragments) as [[Hfault _] _].
  apply Hfault. right. by left.
Defined.
